(** * Cube animation controller of the portfolio site (RubiksCube.tsx)

    A shallow embedding of [src/components/RubiksCube.tsx]: move tokens,
    the checkpoint planner ([moveCheckpoints]), the transition planner
    ([getMovesForTransition]), the slice rotation engine ([rotateSlice],
    [applyMove]), the hard reset ([resetToStep]) and the animation queue
    ([processQueue], [handleStepChange]).

    Conventions.
    - JavaScript strings are [string]; arrays are lists.
    - Counts and indices are [Z]; [experiences.length] and
      [solutionMoves.length] are lengths of lists, hence never negative.
    - The only non-integral arithmetic of the planner, the quotient
      [preWipMoves / numIntermediateSteps] and its rounded multiples, goes
      through the interface [JSNumber], instantiated with exact rationals
      and with IEEE binary64.
    - Grid-aligned pieces carry integer coordinates and an integer rotation
      matrix; the floating-point view of snapping lives in [Snapping]. *)

From Stdlib Require Import ZArith QArith Qround Lia List Bool String Ascii.
From Stdlib Require Import Floats Uint63.
From Stdlib Require Import Reals Lra.
From Stdlib Require Import Permutation Qminmax Qabs.
From Stdlib Require Lqa.
Import ListNotations.

Open Scope string_scope.
Open Scope list_scope.
Open Scope Z_scope.

(* ================================================================= *)
(** ** JavaScript strings *)

(** [s.includes(needle)] *)
Fixpoint includes (needle s : string) : bool :=
  String.prefix needle s ||
  match s with
  | EmptyString => false
  | String _ s' => includes needle s'
  end.

Fixpoint string_drop (n : nat) (s : string) : string :=
  match n, s with
  | O, _ => s
  | S n', String _ s' => string_drop n' s'
  | S _, EmptyString => EmptyString
  end.

(** [s.replace(pattern, replacement)] with a string pattern: only the first
    occurrence is replaced. *)
Fixpoint replace (pattern replacement s : string) : string :=
  if String.prefix pattern s
  then (replacement ++ string_drop (String.length pattern) s)%string
  else match s with
       | EmptyString => EmptyString
       | String c s' => String c (replace pattern replacement s')
       end.

(** [s[0]]: [None] stands for [undefined]. *)
Definition charAt0 (s : string) : option ascii :=
  match s with
  | EmptyString => None
  | String c _ => Some c
  end.

(** [invertMove] (lines 121-125). *)
Definition invertMove (move : string) : string :=
  if includes "'" move then replace "'" "" move
  else if includes "2" move then move
  else (move ++ "'")%string.

(** The eighteen move tokens of the data model: a face letter followed by
    nothing, a prime or a 2. *)
Definition faceLetters : list string := ["U"; "D"; "L"; "R"; "F"; "B"].
Definition modifiers : list string := [""; "'"; "2"].
Definition moveTokens : list string :=
  flat_map (fun f => map (fun m => (f ++ m)%string) modifiers) faceLetters.

Definition isMoveToken (m : string) : bool :=
  existsb (String.eqb m) moveTokens.

(* ================================================================= *)
(** ** JavaScript numbers used by the checkpoint planner *)

(** What [moveCheckpoints] needs of the number type: integers enter it,
    one quotient and its multiples are formed, [Math.round] leaves it. *)
Class JSNumber (num : Type) : Type := {
  ofZ : Z -> num;
  ndiv : num -> num -> num;
  nmul : num -> num -> num;
  Math_round : num -> Z
}.

(** Exact arithmetic: [Math.round x] is the integer nearest to [x], ties
    going up, i.e. the floor of [x + 1/2]. *)
#[export] Instance ExactNumber : JSNumber Q := {
  ofZ := inject_Z;
  ndiv := Qdiv;
  nmul := Qmult;
  Math_round := fun x => Qfloor (x + (1 # 2))
}.

(** IEEE binary64, as the engine computes. The rational value of a finite
    double is read off its mantissa and exponent, so [Math.round] is exact
    on the (already rounded) product. *)
Definition f64_value (x : float) : Q :=
  match Prim2SF x with
  | S754_finite s m e =>
      let q := (inject_Z (Zpos m) * Qpower 2 e)%Q in
      if s then Qopp q else q
  | _ => 0%Q
  end.

#[export] Instance Binary64 : JSNumber float := {
  ofZ := fun z => if z <? 0 then PrimFloat.opp (PrimFloat.of_uint63 (Uint63.of_Z (- z)))
                  else PrimFloat.of_uint63 (Uint63.of_Z z);
  ndiv := PrimFloat.div;
  nmul := PrimFloat.mul;
  Math_round := fun x => Qfloor (f64_value x + (1 # 2))
}.

(* ================================================================= *)
(** ** Arrays *)

(** [a[i] = v]. A negative [i] names a property, not an element; an [i] at
    or past the length extends the array (the planner only ever writes at
    indices up to the length, so the padding below is never observed). *)
Definition array_set (a : list Z) (i : Z) (v : Z) : list Z :=
  if i <? 0 then a
  else
    let n := Z.to_nat i in
    if (n <? List.length a)%nat
    then firstn n a ++ v :: skipn (S n) a
    else a ++ repeat 0 (n - List.length a) ++ [v].

(** [a[i] || 0]: a missing element is [undefined], which [||] turns into 0. *)
Definition array_get (a : list Z) (i : Z) : Z :=
  if i <? 0 then 0 else nth (Z.to_nat i) a 0.

(** [a.slice(start, end)] for integer arguments; negative ones count from
    the end. *)
Definition slice {A : Type} (a : list A) (start stop : Z) : list A :=
  let len := Z.of_nat (List.length a) in
  let k := if start <? 0 then Z.max (len + start) 0 else Z.min start len in
  let final := if stop <? 0 then Z.max (len + stop) 0 else Z.min stop len in
  firstn (Z.to_nat (final - k)) (skipn (Z.to_nat k) a).

(* ================================================================= *)
(** ** Checkpoint planner *)

Section Planner.

Context {num : Type} {NUM : JSNumber num}.

(** The props of the component. *)
Variable solutionMoves : list string.
Variable numExperiences : nat.   (* experiences.length *)

(** [moveCheckpoints] (lines 234-273). *)
Definition moveCheckpoints : list Z :=
  if (List.length solutionMoves =? 0)%nat then []
  else
    let totalMoves := Z.of_nat (List.length solutionMoves) in
    let N := Z.of_nat numExperiences in
    let checkpoints := repeat 0 numExperiences in
    let checkpoints := array_set checkpoints 0 0 in
    let checkpoints := array_set checkpoints (N - 1) totalMoves in
    let preWipMoves := Z.max 0 (totalMoves - 3) in
    let checkpoints :=
      if N >? 1 then array_set checkpoints (N - 2) preWipMoves
      else checkpoints in
    let numIntermediateSteps := N - 2 in
    if numIntermediateSteps >? 1 then
      let movesPerInterval := ndiv (ofZ preWipMoves) (ofZ numIntermediateSteps) in
      fold_left
        (fun cps i => array_set cps i (Math_round (nmul (ofZ i) movesPerInterval)))
        (map Z.of_nat (seq 1 (numExperiences - 3)))
        checkpoints
    else checkpoints.

(** [getMovesToReachStep] (lines 276-280). A step below zero reads
    [undefined] from the table and [slice(0, undefined)] is the whole
    array. *)
Definition getMovesToReachStep (targetStep : Z) : list string :=
  if (List.length solutionMoves =? 0)%nat
     || (targetStep >=? Z.of_nat (List.length moveCheckpoints))
  then []
  else if targetStep <? 0 then solutionMoves
  else slice solutionMoves 0 (nth (Z.to_nat targetStep) moveCheckpoints 0).

(** [getMovesForTransition] (lines 338-368). *)
Definition getMovesForTransition (fromStep toStep : Z) : list string * Q :=
  if (List.length solutionMoves =? 0)%nat then ([], 3 # 10)%Q
  else if (fromStep =? Z.of_nat numExperiences - 1) && (toStep =? 0) then
    (map invertMove (rev solutionMoves), 2 # 100)%Q
  else
    let fromMovesCount := array_get moveCheckpoints fromStep in
    let toMovesCount := array_get moveCheckpoints toStep in
    if toStep >? fromStep then
      if toStep =? Z.of_nat numExperiences - 1
      then (slice solutionMoves fromMovesCount toMovesCount, 25 # 100)%Q
      else (slice solutionMoves fromMovesCount toMovesCount, 25 # 100)%Q
    else if toStep <? fromStep then
      let movesToPlay := slice solutionMoves toMovesCount fromMovesCount in
      (map invertMove (rev movesToPlay), 25 # 100)%Q
    else ([], 3 # 10)%Q.

End Planner.

(** The entry the loop of [moveCheckpoints] writes at [i]:
    [Math.round(i * movesPerInterval)]. *)
Definition interpolated {num : Type} {NUM : JSNumber num} (T : Z) (N : nat) (i : Z) : Z :=
  Math_round (nmul (ofZ i) (ndiv (ofZ (Z.max 0 (T - 3))) (ofZ (Z.of_nat N - 2)))).

(** Rounding to the nearest integer, halves going up, in exact arithmetic. *)
Definition roundHalfUp (q : Q) : Z := Qfloor (q + (1 # 2)).

Arguments moveCheckpoints {num NUM} solutionMoves numExperiences.
Arguments getMovesToReachStep {num NUM} solutionMoves numExperiences targetStep.
Arguments getMovesForTransition {num NUM} solutionMoves numExperiences fromStep toStep.

(* ================================================================= *)
(** ** Pieces on the integer grid *)

Definition Vec : Type := (Z * Z * Z)%type.

Inductive Axis : Type := AxisX | AxisY | AxisZ.

Definition coord (axis : Axis) (v : Vec) : Z :=
  let '(vx, vy, vz) := v in
  match axis with
  | AxisX => vx
  | AxisY => vy
  | AxisZ => vz
  end.

(** Cosine and sine of [d] quarter turns. *)
Definition cosq (d : Z) : Z :=
  match d mod 4 with
  | 0 => 1
  | 2 => -1
  | _ => 0
  end.

Definition sinq (d : Z) : Z :=
  match d mod 4 with
  | 1 => 1
  | 3 => -1
  | _ => 0
  end.

(** The rotation by [d * Math.PI / 2] about a coordinate axis (right-handed,
    as [Object3D.rotation] is). *)
Definition rotateVec (axis : Axis) (d : Z) (v : Vec) : Vec :=
  let '(vx, vy, vz) := v in
  let c := cosq d in
  let s := sinq d in
  match axis with
  | AxisX => (vx, c * vy - s * vz, s * vy + c * vz)
  | AxisY => (c * vx + s * vz, vy, c * vz - s * vx)
  | AxisZ => (c * vx - s * vy, s * vx + c * vy, vz)
  end.

(** The rotation of a piece, as the images of the three unit vectors (the
    columns of its rotation matrix). [rotation.set(0, 0, 0)] is [noRotation]. *)
Definition Rot : Type := (Vec * Vec * Vec)%type.

Definition noRotation : Rot := ((1, 0, 0), (0, 1, 0), (0, 0, 1)).

Definition rotateRot (axis : Axis) (d : Z) (r : Rot) : Rot :=
  let '(e1, e2, e3) := r in
  (rotateVec axis d e1, rotateVec axis d e2, rotateVec axis d e3).

(** One of the 27 groups of meshes ([Cubie]): where it is, how it is turned
    and the colours of its six stickers (+x, -x, +y, -y, +z, -z). *)
Record Cubie : Type := mkCubie {
  position : Vec;
  rotation : Rot;
  faceColors : list string
}.

Definition FACE_COLORS (face : string) : string :=
  if String.eqb face "U" then "#FFFFFF"
  else if String.eqb face "R" then "#B90000"
  else if String.eqb face "F" then "#009E60"
  else if String.eqb face "D" then "#FFD500"
  else if String.eqb face "L" then "#FF5900"
  else if String.eqb face "B" then "#0045AD"
  else "".

Definition grid : list Z := [-1; 0; 1].

(** [initialPositions] (lines 71-90): the 27 grid points in the order of the
    three nested loops, each with its sticker colours. *)
Definition initialPositions : list (Vec * list string) :=
  flat_map (fun x =>
    flat_map (fun y =>
      map (fun z =>
        let c0 := if x =? 1 then FACE_COLORS "R" else "#111" in
        let c1 := if x =? -1 then FACE_COLORS "L" else "#111" in
        let c2 := if y =? 1 then FACE_COLORS "U" else "#111" in
        let c3 := if y =? -1 then FACE_COLORS "D" else "#111" in
        let c4 := if z =? 1 then FACE_COLORS "F" else "#111" in
        let c5 := if z =? -1 then FACE_COLORS "B" else "#111" in
        ((x, y, z), [c0; c1; c2; c3; c4; c5]))
      grid) grid) grid.

(** The pieces as the component mounts them (lines 636-643). *)
Definition mountedCubies : list Cubie :=
  map (fun pc => mkCubie (fst pc) noRotation (snd pc)) initialPositions.

(* ================================================================= *)
(** ** Slice rotation engine, on grid-aligned pieces *)

(** The selection test of [rotateSlice]: [Math.abs(pos - index) < 0.1]. *)
Definition isActive (axis : Axis) (index : Z) (c : Cubie) : bool :=
  10 * Z.abs (coord axis (position c) - index) <? 1.

(** What a finished rotation leaves of one selected piece: it was carried
    around the pivot by [direction] quarter turns and re-attached to the
    group; on the grid the snapping that follows changes nothing. *)
Definition turnCubie (axis : Axis) (direction : Z) (c : Cubie) : Cubie :=
  mkCubie (rotateVec axis direction (position c))
          (rotateRot axis direction (rotation c))
          (faceColors c).

(** [rotateSlice] (lines 127-200), start to completion: the instant path,
    and equally the animated one once its last frame has run. *)
Definition rotateSlice (axis : Axis) (index direction : Z) (cubies : list Cubie)
  : list Cubie :=
  map (fun c => if isActive axis index c then turnCubie axis direction c else c)
      cubies.

Arguments rotateSlice : simpl never.

(* ================================================================= *)
(** ** The permutation model *)

(** Modelled from the spec: the permutation model is the external library
    [cubejs] ([new Cube()], [cube.move(token)], [cube.solve()]), which is
    not part of the repository. Section 2 and 3 of the spec describe it as
    an opaque state of the 27 pieces with [move(notation)]; here the state
    is the place and rotation of every piece, and a token turns the named
    face clockwise, seen from outside, by one, three or two quarter turns.
    The state here also carries the turning of each centre piece about its
    own axis, which [cubejs] does not record and which does not show on
    screen: [uptoCentres] below forgets it. Only move tokens are played by
    the program; on any other string [Cube_move] leaves the state as it
    is, where the library would raise an error. *)
Definition Cube : Type := list (Vec * Rot).

Definition Cube_new : Cube :=
  map (fun pc => (fst pc, noRotation)) initialPositions.

(** The layer of a face: its axis and the sign of its outward normal. *)
Definition faceLayer (face : ascii) : option (Axis * Z) :=
  if Ascii.eqb face "R" then Some (AxisX, 1)
  else if Ascii.eqb face "L" then Some (AxisX, -1)
  else if Ascii.eqb face "U" then Some (AxisY, 1)
  else if Ascii.eqb face "D" then Some (AxisY, -1)
  else if Ascii.eqb face "F" then Some (AxisZ, 1)
  else if Ascii.eqb face "B" then Some (AxisZ, -1)
  else None.

(** Clockwise quarter turns a token asks for. *)
Definition tokenTurns (modifier : string) : option Z :=
  if String.eqb modifier "" then Some 1
  else if String.eqb modifier "'" then Some 3
  else if String.eqb modifier "2" then Some 2
  else None.

(** The pieces of the layer [side] of an axis make [d] quarter turns about
    that axis. *)
Definition turnLayer (axis : Axis) (side d : Z) (cube : Cube) : Cube :=
  map (fun pr : Vec * Rot =>
         if coord axis (fst pr) =? side
         then (rotateVec axis d (fst pr), rotateRot axis d (snd pr))
         else pr)
      cube.

Arguments turnLayer : simpl never.

(** [turns] clockwise quarter turns of a face, seen from outside: about the
    axis itself they run backwards on the positive side and forwards on the
    negative one. *)
Definition Cube_turn (axis : Axis) (side turns : Z) (cube : Cube) : Cube :=
  turnLayer axis side (- side * turns) cube.

Definition Cube_move (token : string) (cube : Cube) : Cube :=
  match token with
  | EmptyString => cube
  | String face modifier =>
      match faceLayer face, tokenTurns modifier with
      | Some (axis, side), Some turns => Cube_turn axis side turns cube
      | _, _ => cube
      end
  end.

(** The arrangement the pieces on screen show. *)
Definition arrangement (cubies : list Cubie) : Cube :=
  map (fun c => (position c, rotation c)) cubies.

Arguments arrangement : simpl never.

(* ================================================================= *)
(** ** applyMove *)

(** One call of [rotateSlice]. *)
Record SliceCall : Type := mkSliceCall {
  sc_axis : Axis;
  sc_index : Z;
  sc_direction : Z;
  sc_duration : Q
}.

(** What [applyMove] does, in order. *)
Inductive Action : Type :=
| LogicalMove (move : string)        (* logicalCube.current.move(move) *)
| RotateSlice (call : SliceCall).    (* await rotateSlice(...) *)

(** The [switch] of [applyMove] (lines 210-221) with its defaults. *)
Definition faceSlice (face : option ascii) : Axis * Z * Z :=
  match face with
  | Some c =>
      if Ascii.eqb c "R" then (AxisX, 1, -1)
      else if Ascii.eqb c "L" then (AxisX, -1, 1)
      else if Ascii.eqb c "U" then (AxisY, 1, -1)
      else if Ascii.eqb c "D" then (AxisY, -1, 1)
      else if Ascii.eqb c "F" then (AxisZ, 1, -1)
      else if Ascii.eqb c "B" then (AxisZ, -1, 1)
      else (AxisY, 0, 1)
  | None => (AxisY, 0, 1)
  end.

(** The slice call(s) of a move: axis, layer and direction after the prime
    has been taken into account. *)
Definition moveCall (move : string) (duration : Q) : SliceCall :=
  let face := charAt0 move in
  let isPrime := includes "'" move in
  let '(axis, sliceIndex, direction) := faceSlice face in
  let direction := if isPrime then direction * -1 else direction in
  mkSliceCall axis sliceIndex direction duration.

(** [applyMove] (lines 202-230) as the sequence of its effects. *)
Definition applyMove (move : string) (duration : Q) : list Action :=
  let isDouble := includes "2" move in
  let call := moveCall move duration in
  LogicalMove move ::
  (if isDouble then [RotateSlice call; RotateSlice call]
   else [RotateSlice call]).

(* ================================================================= *)
(** ** The controller: refs and state of the component *)

(** An entry of [animationQueue]; [t_moves] is the optional explicit list. *)
Record Transition : Type := mkTransition {
  t_from : Z;
  t_to : Z;
  t_moves : option (list string)
}.

Inductive AnimationState : Type :=
| idle | waiting | vibrating | shuffling | jump.

(** Who awaits the rotation in flight. *)
Inductive Caller : Type :=
| QueuePass (to : Z) (rest : list string) (duration : Q)
    (* [processQueue], inside the [for] loop of the transition to [to],
       with the moves in [rest] still to come *)
| Shuffle.
    (* the [then] callback of the shuffling frame *)

(** The suspended caller, the rotation it waits for and what is left of the
    [applyMove] that started it. *)
Record Pending : Type := mkPending {
  p_caller : Caller;
  p_inflight : SliceCall;
  p_after : list Action
}.

Record Controller : Type := mkController {
  logicalCube : Cube;
  cubies : list Cubie;
  groupRotation : Q * Q * Q;
  groupY : Q;
  animationQueue : list Transition;
  isProcessingQueue : bool;
  abortProcessing : bool;
  currentAnimatedStep : Z;
  lastQueuedStep : Z;
  isJumping : bool;
  pendingStep : option Z;
  animationState : AnimationState;
  isSolving : bool;
  jumpTimer : option Z;          (* the step the pending jump timer will reset to *)
  running : option Pending;   (* the rotation in flight and who awaits it *)
  history : list Action          (* every effect started so far, oldest first *)
}.

Definition set_logicalCube v s :=
  mkController v (cubies s) (groupRotation s) (groupY s) (animationQueue s)
    (isProcessingQueue s) (abortProcessing s) (currentAnimatedStep s)
    (lastQueuedStep s) (isJumping s) (pendingStep s) (animationState s)
    (isSolving s) (jumpTimer s) (running s) (history s).
Definition set_cubies v s :=
  mkController (logicalCube s) v (groupRotation s) (groupY s) (animationQueue s)
    (isProcessingQueue s) (abortProcessing s) (currentAnimatedStep s)
    (lastQueuedStep s) (isJumping s) (pendingStep s) (animationState s)
    (isSolving s) (jumpTimer s) (running s) (history s).
Definition set_groupRotation v s :=
  mkController (logicalCube s) (cubies s) v (groupY s) (animationQueue s)
    (isProcessingQueue s) (abortProcessing s) (currentAnimatedStep s)
    (lastQueuedStep s) (isJumping s) (pendingStep s) (animationState s)
    (isSolving s) (jumpTimer s) (running s) (history s).
Definition set_groupY v s :=
  mkController (logicalCube s) (cubies s) (groupRotation s) v (animationQueue s)
    (isProcessingQueue s) (abortProcessing s) (currentAnimatedStep s)
    (lastQueuedStep s) (isJumping s) (pendingStep s) (animationState s)
    (isSolving s) (jumpTimer s) (running s) (history s).
Definition set_animationQueue v s :=
  mkController (logicalCube s) (cubies s) (groupRotation s) (groupY s) v
    (isProcessingQueue s) (abortProcessing s) (currentAnimatedStep s)
    (lastQueuedStep s) (isJumping s) (pendingStep s) (animationState s)
    (isSolving s) (jumpTimer s) (running s) (history s).
Definition set_isProcessingQueue v s :=
  mkController (logicalCube s) (cubies s) (groupRotation s) (groupY s)
    (animationQueue s) v (abortProcessing s) (currentAnimatedStep s)
    (lastQueuedStep s) (isJumping s) (pendingStep s) (animationState s)
    (isSolving s) (jumpTimer s) (running s) (history s).
Definition set_abortProcessing v s :=
  mkController (logicalCube s) (cubies s) (groupRotation s) (groupY s)
    (animationQueue s) (isProcessingQueue s) v (currentAnimatedStep s)
    (lastQueuedStep s) (isJumping s) (pendingStep s) (animationState s)
    (isSolving s) (jumpTimer s) (running s) (history s).
Definition set_currentAnimatedStep v s :=
  mkController (logicalCube s) (cubies s) (groupRotation s) (groupY s)
    (animationQueue s) (isProcessingQueue s) (abortProcessing s) v
    (lastQueuedStep s) (isJumping s) (pendingStep s) (animationState s)
    (isSolving s) (jumpTimer s) (running s) (history s).
Definition set_lastQueuedStep v s :=
  mkController (logicalCube s) (cubies s) (groupRotation s) (groupY s)
    (animationQueue s) (isProcessingQueue s) (abortProcessing s)
    (currentAnimatedStep s) v (isJumping s) (pendingStep s) (animationState s)
    (isSolving s) (jumpTimer s) (running s) (history s).
Definition set_isJumping v s :=
  mkController (logicalCube s) (cubies s) (groupRotation s) (groupY s)
    (animationQueue s) (isProcessingQueue s) (abortProcessing s)
    (currentAnimatedStep s) (lastQueuedStep s) v (pendingStep s)
    (animationState s) (isSolving s) (jumpTimer s) (running s) (history s).
Definition set_pendingStep v s :=
  mkController (logicalCube s) (cubies s) (groupRotation s) (groupY s)
    (animationQueue s) (isProcessingQueue s) (abortProcessing s)
    (currentAnimatedStep s) (lastQueuedStep s) (isJumping s) v
    (animationState s) (isSolving s) (jumpTimer s) (running s) (history s).
Definition set_animationState v s :=
  mkController (logicalCube s) (cubies s) (groupRotation s) (groupY s)
    (animationQueue s) (isProcessingQueue s) (abortProcessing s)
    (currentAnimatedStep s) (lastQueuedStep s) (isJumping s) (pendingStep s)
    v (isSolving s) (jumpTimer s) (running s) (history s).
Definition set_isSolving v s :=
  mkController (logicalCube s) (cubies s) (groupRotation s) (groupY s)
    (animationQueue s) (isProcessingQueue s) (abortProcessing s)
    (currentAnimatedStep s) (lastQueuedStep s) (isJumping s) (pendingStep s)
    (animationState s) v (jumpTimer s) (running s) (history s).
Definition set_jumpTimer v s :=
  mkController (logicalCube s) (cubies s) (groupRotation s) (groupY s)
    (animationQueue s) (isProcessingQueue s) (abortProcessing s)
    (currentAnimatedStep s) (lastQueuedStep s) (isJumping s) (pendingStep s)
    (animationState s) (isSolving s) v (running s) (history s).
Definition set_running v s :=
  mkController (logicalCube s) (cubies s) (groupRotation s) (groupY s)
    (animationQueue s) (isProcessingQueue s) (abortProcessing s)
    (currentAnimatedStep s) (lastQueuedStep s) (isJumping s) (pendingStep s)
    (animationState s) (isSolving s) (jumpTimer s) v (history s).
Definition set_history v s :=
  mkController (logicalCube s) (cubies s) (groupRotation s) (groupY s)
    (animationQueue s) (isProcessingQueue s) (abortProcessing s)
    (currentAnimatedStep s) (lastQueuedStep s) (isJumping s) (pendingStep s)
    (animationState s) (isSolving s) (jumpTimer s) (running s) v.

(** The component right after mounting: a solved cube, nothing queued. *)
Definition mounted : Controller :=
  mkController Cube_new mountedCubies (0, 0, 0)%Q 0%Q [] false false 0 0
    false None idle false None None [].

(** The synchronous head of [applyMove]: the logical cube moves at once. *)
Definition moveLogical (move : string) (s : Controller) : Controller :=
  set_history (history s ++ [LogicalMove move])
    (set_logicalCube (Cube_move move (logicalCube s)) s).

(** A call of [rotateSlice] begins: from here on it is in flight. *)
Definition beginRotation (call : SliceCall) (s : Controller) : Controller :=
  set_history (history s ++ [RotateSlice call]) s.

(** A call of [rotateSlice] ends: the selected pieces have made their
    quarter turn and been snapped. *)
Definition endRotation (call : SliceCall) (s : Controller) : Controller :=
  set_cubies
    (rotateSlice (sc_axis call) (sc_index call) (sc_direction call) (cubies s)) s.

(** One effect of [applyMove] carried out from start to end. *)
Definition perform (a : Action) (s : Controller) : Controller :=
  match a with
  | LogicalMove move => moveLogical move s
  | RotateSlice call => endRotation call (beginRotation call s)
  end.

(** [await applyMove(move, duration)] with nothing else running in between;
    this is how the instant moves of [resetToStep] and [initCube] go. *)
Definition awaitApplyMove (move : string) (duration : Q) (s : Controller)
  : Controller :=
  fold_left (fun st a => perform a st) (applyMove move duration) s.

Definition awaitApplyMoves (moves : list string) (duration : Q) (s : Controller)
  : Controller :=
  fold_left (fun st move => awaitApplyMove move duration st) moves s.

(* ================================================================= *)
(** ** Splitting the solver's answer *)

(** [s.split(' ')] *)
Fixpoint split_space (s : string) : list string :=
  match s with
  | EmptyString => [EmptyString]
  | String c s' =>
      if Ascii.eqb c " " then EmptyString :: split_space s'
      else match split_space s' with
           | [] => [String c EmptyString]
           | w :: ws => String c w :: ws
           end
  end.

(** White space that [trim] removes, among the characters of a solver's
    answer: space, tab, line feed, vertical tab, form feed, carriage return. *)
Definition isWhiteSpace (c : ascii) : bool :=
  let n := nat_of_ascii c in
  ((n =? 32) || ((9 <=? n) && (n <=? 13)))%nat.

Fixpoint trimStart (s : string) : string :=
  match s with
  | EmptyString => EmptyString
  | String c s' => if isWhiteSpace c then trimStart s' else s
  end.

(** [m.trim() !== ''] *)
Definition notBlank (m : string) : bool :=
  negb (String.eqb (trimStart m) "").

(* ================================================================= *)
(** ** Reset, queue and navigation *)

Definition VIBRATION_DURATION : Z := 1500.
Definition SOLVED_WAIT : Z := 750.
Definition JUMP_DURATION : Z := 600.   (* ms *)

(** [cubieRefs.current.forEach((cubie, i) => ... table[i] ...)] *)
Fixpoint forEachIndexed {A B : Type} (f : A -> B -> A) (l : list A) (table : list B)
  : list A :=
  match l, table with
  | a :: l', b :: table' => f a b :: forEachIndexed f l' table'
  | _, _ => l
  end.

(** An async body runs until its first [await rotateSlice(...)]. *)
Fixpoint runToAwait (actions : list Action) (s : Controller)
  : Controller * option (SliceCall * list Action) :=
  match actions with
  | [] => (s, None)
  | LogicalMove move :: rest => runToAwait rest (moveLogical move s)
  | RotateSlice call :: rest => (beginRotation call s, Some (call, rest))
  end.

Section Component.

Context {num : Type} {NUM : JSNumber num}.

Variable solutionMoves : list string.
Variable numExperiences : nat.

(** [logicalCube.current.solve()] of the external solver: any function of
    the state to a string of tokens separated by spaces. *)
Variable solve : Cube -> string.

(** [resetToStep] (lines 283-335), called with no rotation in flight: the
    27 pieces are then children of the group and the coordinates written
    here are theirs in the group. (While a rotation is in flight its
    pieces hang on the pivot, line 146, and the same writes land in the
    pivot's frame; the properties of the reset below are stated for
    [running s = None].) *)
Definition resetToStep (targetStep : Z) (s : Controller) : Controller :=
  (* 1. Reset logical cube to solved state *)
  let s := set_logicalCube Cube_new s in
  (* 2. Reset visual rotation of group *)
  let s := set_groupRotation (0, 0, 0)%Q s in
  (* 3. Reset colors to initial state *)
  let s := set_cubies
             (forEachIndexed (fun c init => mkCubie (position c) (rotation c) (snd init))
                (cubies s) initialPositions) s in
  let movesForStep := getMovesToReachStep solutionMoves numExperiences targetStep in
  let reverseSolution := map invertMove (rev solutionMoves) in
  (* Reset Cubies to Initial State *)
  let s := set_cubies
             (forEachIndexed (fun c init => mkCubie (fst init) noRotation (faceColors c))
                (cubies s) initialPositions) s in
  (* Apply reverse solution (Instant) *)
  let s := awaitApplyMoves reverseSolution 0 s in
  (* Apply moves for step (Instant) *)
  let s := awaitApplyMoves movesForStep 0 s in
  (* Sync logical cube *)
  let s := fold_left (fun st move => moveLogical move st) reverseSolution s in
  let s := fold_left (fun st move => moveLogical move st) movesForStep s in
  s.

(** What a reset is meant to reach: the scramble undone from the solved
    cube, then the moves of the step. *)
Definition stepMoves (targetStep : Z) : list string :=
  map invertMove (rev solutionMoves)
  ++ getMovesToReachStep solutionMoves numExperiences targetStep.

(** The end of [processQueue] (lines 404-405). *)
Definition finishProcessing (s : Controller) : Controller :=
  set_isSolving false (set_isProcessingQueue false (set_running None s)).

(** The [for] loop of [processQueue] (lines 396-399) from the head of an
    iteration, up to the next [await]; [afterLoop] is the code behind the
    loop. *)
Fixpoint forMoves (afterLoop : Controller -> Controller)
    (to : Z) (duration : Q) (moves : list string) (s : Controller) : Controller :=
  match moves with
  | [] => afterLoop s
  | move :: rest =>
      if abortProcessing s then afterLoop s
      else
        match runToAwait (applyMove move duration) s with
        | (s', Some (call, after)) =>
            set_running (Some (mkPending (QueuePass to rest duration) call after)) s'
        | (s', None) => forMoves afterLoop to duration rest s'
        end
  end.

(** The [while] loop of [processQueue] (lines 378-402) from its test, over
    the queue as it stands. *)
Fixpoint whileQueue (queue : list Transition) (s : Controller) : Controller :=
  match queue with
  | [] => finishProcessing s
  | transition :: queue' =>
      if abortProcessing s then finishProcessing s
      else
        let s := set_animationQueue queue' s in      (* shift() *)
        let '(moves, duration) :=
          match t_moves transition with
          | Some moves => (moves, (25 # 100)%Q)
          | None =>
              getMovesForTransition solutionMoves numExperiences
                (t_from transition) (t_to transition)
          end in
        forMoves
          (fun s' => whileQueue queue' (set_currentAnimatedStep (t_to transition) s'))
          (t_to transition) duration moves s
  end.

(** [processQueue] (lines 371-406), up to its first [await]. *)
Definition processQueue (s : Controller) : Controller :=
  if isProcessingQueue s || (List.length (animationQueue s) =? 0)%nat then s
  else
    let s := set_isProcessingQueue true s in
    let s := set_isSolving true s in
    let s := set_abortProcessing false s in
    whileQueue (animationQueue s) s.

(** The rotation in flight completes (the last frame of [animate], or the
    instant path): its pieces are snapped, the promise resolves and the
    awaiting code runs on to its next [await]. *)
Definition rotationDone (s : Controller) : Controller :=
  match running s with
  | None => s
  | Some p =>
      let s := endRotation (p_inflight p) (set_running None s) in
      match runToAwait (p_after p) s with
      | (s', Some (call, after)) =>
          (* still inside [applyMove]: the second quarter of a half turn *)
          set_running (Some (mkPending (p_caller p) call after)) s'
      | (s', None) =>
          match p_caller p with
          | QueuePass to rest duration =>
              forMoves
                (fun s'' => whileQueue (animationQueue s'')
                              (set_currentAnimatedStep to s''))
                to duration rest s'
          | Shuffle =>
              (* lines 624-630 *)
              let s' := set_isProcessingQueue false s' in
              if (0 <? List.length (animationQueue s'))%nat then processQueue s'
              else s'
          end
      end
  end.

(** The shuffling branch of the frame callback (lines 616-631) with the
    random move it drew. *)
Definition shuffleFrame (randomMove : string) (s : Controller) : Controller :=
  match animationState s with
  | shuffling =>
      if isProcessingQueue s then s
      else
        let s := set_isProcessingQueue true s in
        match runToAwait (applyMove randomMove (3 # 10)%Q) s with
        | (s', Some (call, after)) =>
            set_running (Some (mkPending Shuffle call after)) s'
        | (s', None) => set_isProcessingQueue false s'
        end
  | _ => s
  end.

(** The two loops of the normal path (lines 505-508 and 513-516): [count]
    iterations, [s] moving by [delta]. *)
Fixpoint pushSteps (count : nat) (delta s currentQueueStep : Z)
    (queue : list Transition) : list Transition :=
  match count with
  | O => queue
  | S count' =>
      pushSteps count' delta (s + delta) s
        (queue ++ [mkTransition currentQueueStep s None])
  end.

(** Cancelling (lines 442-445): the flag is raised and the queue emptied;
    what is in flight is left alone. *)
Definition cancelProcessing (s : Controller) : Controller :=
  let s := set_abortProcessing true s in
  set_animationQueue [] s.

(** SPECIAL CASE: Backward from WIP (Last Step) -> Previous Step (lines
    441-474). The timer is kept in [jumpTimer]; [jumpLanding] below is its
    callback. *)
Definition jumpBack (targetStep : Z) (s : Controller) : Controller :=
  let s := cancelProcessing s in
  let s := set_animationState jump s in
  let s := set_isJumping true s in
  set_jumpTimer (Some targetStep) s.

(** DECISION: Dynamic Solving for Final Step (lines 477-496). *)
Definition dynamicSolve (targetStep : Z) (s : Controller) : Controller :=
  let lastQueued := lastQueuedStep s in
  let s := set_animationQueue [] s in
  let s := set_abortProcessing false s in
  let solveMovesString := solve (logicalCube s) in
  let solveMoves := filter notBlank (split_space solveMovesString) in
  let s := set_animationQueue
             (animationQueue s ++ [mkTransition lastQueued targetStep (Some solveMoves)])
             s in
  let s := set_lastQueuedStep targetStep s in
  processQueue s.

(** What the normal path appends to the queue (lines 504-518). *)
Definition normalTransitions (lastQueued targetStep : Z) (queue : list Transition)
  : list Transition :=
  let totalSteps := Z.of_nat numExperiences in
  if targetStep >? lastQueued then
    pushSteps (Z.to_nat (targetStep - lastQueued)) 1 (lastQueued + 1) lastQueued queue
  else if targetStep <? lastQueued then
    if (lastQueued =? totalSteps - 1) && (targetStep =? 0)
    then queue ++ [mkTransition lastQueued 0 None]
    else
      pushSteps (Z.to_nat (lastQueued - targetStep)) (-1) (lastQueued - 1) lastQueued queue
  else queue.

(** Normal Path Logic (lines 498-521). *)
Definition normalPath (targetStep : Z) (s : Controller) : Controller :=
  let lastQueued := lastQueuedStep s in
  let s := set_abortProcessing false s in
  let s := set_animationQueue
             (normalTransitions lastQueued targetStep (animationQueue s)) s in
  let s := set_lastQueuedStep targetStep s in
  processQueue s.

(** [handleStepChange] (lines 436-522). *)
Definition handleStepChange (targetStep : Z) (s : Controller) : Controller :=
  let N := Z.of_nat numExperiences in
  let lastQueued := lastQueuedStep s in
  if targetStep =? lastQueued then s
  else if (lastQueued =? N - 1) && (targetStep =? N - 2) then jumpBack targetStep s
  else if (targetStep =? N - 1) && negb (lastQueued =? targetStep - 1)
  then dynamicSolve targetStep s
  else normalPath targetStep s.

(** The effect on [step] (lines 525-535), once the cube is initialised. *)
Definition stepChanged (step : Z) (s : Controller) : Controller :=
  if (List.length solutionMoves =? 0)%nat then s
  else if isJumping s then set_pendingStep (Some step) s
  else handleStepChange step s.

(** The callback of the jump timer (lines 454-471), [JUMP_DURATION] ms
    after the jump began. *)
Definition jumpLanding (s : Controller) : Controller :=
  match jumpTimer s with
  | None => s
  | Some targetStep =>
      let s := set_jumpTimer None s in
      let s := resetToStep targetStep s in
      let s := set_animationState idle s in
      let s := set_isJumping false s in
      let s := set_groupY 0%Q s in
      let s := set_lastQueuedStep targetStep s in
      let s := set_currentAnimatedStep targetStep s in
      match pendingStep s with
      | Some nextStep => handleStepChange nextStep (set_pendingStep None s)
      | None => s
      end
  end.

(** [initCube] (lines 418-430). *)
Definition initCube (s : Controller) : Controller :=
  let s := set_logicalCube Cube_new s in
  let reverseMoves := map invertMove (rev solutionMoves) in
  let s := awaitApplyMoves reverseMoves 0 s in
  set_lastQueuedStep 0 (set_currentAnimatedStep 0 s).

End Component.

(* ================================================================= *)
(** ** Nominal animation time *)

(** Seconds of animation an [applyMove] asks for: a rotation with duration
    [d] cannot resolve before [d] seconds have passed (its frame callback
    goes on while [elapsed / duration < 1]), and the second quarter of a
    half turn starts only when the first has resolved. *)
Fixpoint animationSeconds (actions : list Action) : Q :=
  match actions with
  | [] => 0%Q
  | LogicalMove _ :: rest => animationSeconds rest
  | RotateSlice call :: rest => (sc_duration call + animationSeconds rest)%Q
  end.

Definition animationMillis (move : string) (duration : Q) : Q :=
  (1000 * animationSeconds (applyMove move duration))%Q.

(** The rotations among a list of effects. *)
Fixpoint rotationsOf (actions : list Action) : list SliceCall :=
  match actions with
  | [] => []
  | LogicalMove _ :: rest => rotationsOf rest
  | RotateSlice call :: rest => call :: rotationsOf rest
  end.

(** The logical moves among a list of effects. *)
Fixpoint logicalMovesOf (actions : list Action) : list string :=
  match actions with
  | [] => []
  | LogicalMove move :: rest => move :: logicalMovesOf rest
  | RotateSlice _ :: rest => logicalMovesOf rest
  end.

(** [n] rotations in a row come to their end. *)
Section Settle.
Context {num : Type} {NUM : JSNumber num}.
Variable solutionMoves : list string.
Variable numExperiences : nat.

Fixpoint settle (n : nat) (s : Controller) : Controller :=
  match n with
  | O => s
  | S n' => settle n' (rotationDone solutionMoves numExperiences s)
  end.
End Settle.

(** A scramble of four moves, used with five milestones in the examples,
    and the component resting on the last milestone with the cube solved. *)
Definition fourMoves : list string := ["R"; "U"; "F"; "D"].

Definition restingOnLast : Controller :=
  set_currentAnimatedStep 4 (set_lastQueuedStep 4 mounted).

(** A queue pass that has just started the half turn "R2" of an explicit
    transition: its first quarter is in flight. *)
Definition halfTurnInFlight : Controller :=
  processQueue (num := Q) fourMoves 5
    (set_animationQueue [mkTransition 0 4 (Some ["R2"; "U"])] mounted).

(** Applying a list of tokens to the permutation model. *)
Definition Cube_moves (tokens : list string) (cube : Cube) : Cube :=
  fold_left (fun c token => Cube_move token c) tokens cube.

(* ================================================================= *)
(** ** The rotation engine over real coordinates *)

(** [rotateSlice] once more, this time with the numbers as the engine sees
    them between grid states: positions and Euler angles are reals, the
    pivot turns through intermediate angles, and the snapping at the end
    does real work. What [Object3D.attach] computes (three.js) is left
    open. *)
Module Snapping.

Local Open Scope R_scope.

Definition R3 : Type := (R * R * R)%type.

(** [position] and [rotation] (Euler angles) of a [THREE.Group]. *)
Record Piece : Type := mkPiece {
  pos : R3;
  euler : R3
}.

(** [Math.round]: the nearest integer, halves going up. *)
Definition Math_round (x : R) : Z := Int_part (x + / 2).

Definition coordR (axis : Axis) (v : R3) : R :=
  let '(vx, vy, vz) := v in
  match axis with
  | AxisX => vx
  | AxisY => vy
  | AxisZ => vz
  end.

(** Lines 155-160 and 186-191. *)
Definition snap (c : Piece) : Piece :=
  let '(px, py, pz) := pos c in
  let '(rx, ry, rz) := euler c in
  mkPiece
    (IZR (Math_round px), IZR (Math_round py), IZR (Math_round pz))
    (IZR (Math_round (rx / (PI / 2))) * (PI / 2),
     IZR (Math_round (ry / (PI / 2))) * (PI / 2),
     IZR (Math_round (rz / (PI / 2))) * (PI / 2)).

(** [Math.abs(pos - index) < 0.1] *)
Definition isSelected (axis : Axis) (index : R) (c : Piece) : bool :=
  if Rlt_dec (Rabs (coordR axis (pos c) - index)) (1 / 10) then true else false.

(** A call of [rotateSlice] under way, or over. *)
Record Rotation : Type := mkRotation {
  pieces : list Piece;          (* cubieRefs; the active ones relative to the pivot *)
  active : list bool;           (* which of them are in activeCubies *)
  axisOf : Axis;
  pivotRotation : R;            (* pivot.rotation[axis] *)
  startRot : R;
  targetRot : R;
  startTime : R;                (* performance.now(), ms *)
  durationOf : R;               (* s *)
  resolved : bool               (* the promise of the call has resolved *)
}.

Section Engine.

(** [pivot.attach(cubie)]: the piece as seen from the (unturned) pivot. *)
Variable attachToPivot : Piece -> Piece.

(** [groupRef.current.attach(c)] with the pivot turned by the given angle
    about the axis: the piece as seen from the group again. *)
Variable attachToGroup : Axis -> R -> Piece -> Piece.

Fixpoint zipWith {A B C : Type} (f : A -> B -> C) (l : list A) (m : list B) : list C :=
  match l, m with
  | a :: l', b :: m' => f a b :: zipWith f l' m'
  | _, _ => []
  end.

(** Lines 153-163 and 184-194: every active piece goes back to the group
    and is snapped. *)
Definition release (axis : Axis) (angle : R) (act : list bool) (ps : list Piece)
  : list Piece :=
  zipWith (fun (a : bool) c => if a then snap (attachToGroup axis angle c) else c) act ps.

(** [rotateSlice(axis, index, direction, duration)] up to its return (lines
    133-170 and the first [requestAnimationFrame]), called at time [now]. *)
Definition rotateSlice (axis : Axis) (index direction duration now : R)
    (ps : list Piece) : Rotation :=
  let act := map (isSelected axis index) ps in
  let held := zipWith (fun (a : bool) c => if a then attachToPivot c else c) act ps in
  if Req_dec_T duration 0 then
    let angle := 0 + direction * PI / 2 in
    mkRotation (release axis angle act held) act axis angle 0 angle now duration true
  else
    let startRot := 0 in
    let targetRot := startRot + (direction * PI / 2) in
    mkRotation held act axis 0 startRot targetRot now duration false.

(** [animate(time)] (lines 172-197), one display refresh. *)
Definition animate (time : R) (r : Rotation) : Rotation :=
  let elapsed := (time - startTime r) / 1000 in
  let t := Rmin (elapsed / durationOf r) 1 in
  let ease := 1 - (1 - t) ^ 3 in
  let turned := startRot r + (targetRot r - startRot r) * ease in
  if Rlt_dec t 1 then
    mkRotation (pieces r) (active r) (axisOf r) turned
      (startRot r) (targetRot r) (startTime r) (durationOf r) false
  else
    mkRotation (release (axisOf r) (targetRot r) (active r) (pieces r)) (active r)
      (axisOf r) (targetRot r)
      (startRot r) (targetRot r) (startTime r) (durationOf r) true.

(** The refreshes that follow, at the given times; none is asked for once
    the promise has resolved. *)
Fixpoint frames (times : list R) (r : Rotation) : Rotation :=
  match times with
  | [] => r
  | time :: later => if resolved r then r else frames later (animate time r)
  end.

(** A call that has not resolved holds its pieces as they were attached;
    one that has resolved has released them. *)
Definition holding (axis : Axis) (index duration now : R) (ps : list Piece)
    (r : Rotation) : Prop :=
  resolved r = false /\
  active r = map (isSelected axis index) ps /\
  pieces r = zipWith (fun (a : bool) p => if a then attachToPivot p else p)
               (map (isSelected axis index) ps) ps /\
  axisOf r = axis /\ startTime r = now /\ durationOf r = duration.

Definition released (axis : Axis) (index : R) (ps : list Piece) (r : Rotation) : Prop :=
  resolved r = true /\
  exists angle,
    pieces r
    = release axis angle (map (isSelected axis index) ps)
        (zipWith (fun (a : bool) p => if a then attachToPivot p else p)
           (map (isSelected axis index) ps) ps).

End Engine.

(** On the grid: whole coordinates and whole quarter turns. *)
Definition onGrid (c : Piece) : Prop :=
  (exists i j k : Z, pos c = (IZR i, IZR j, IZR k)) /\
  (exists a b d : Z, euler c = (IZR a * (PI / 2), IZR b * (PI / 2), IZR d * (PI / 2))).

End Snapping.

(* ================================================================= *)
(** ** Cells of the cube *)

(** A grid point of the 3x3x3 cube. *)
Definition inGrid (v : Vec) : bool :=
  let '(vx, vy, vz) := v in
  (Z.abs vx <=? 1) && (Z.abs vy <=? 1) && (Z.abs vz <=? 1).

(** The 27 cells, in the order of [initialPositions]. *)
Definition cells : list Vec := map fst initialPositions.

(** What a slice call leaves on screen once it has resolved. *)
Definition turnCall (call : SliceCall) (cs : list Cubie) : list Cubie :=
  rotateSlice (sc_axis call) (sc_index call) (sc_direction call) cs.

Definition turnCalls (calls : list SliceCall) (cs : list Cubie) : list Cubie :=
  fold_left (fun acc call => turnCall call acc) calls cs.

(** The pieces fill the cube: one in every cell. *)
Definition fillsCube (cs : list Cubie) : Prop :=
  Permutation (map position cs) cells.


(** [moveCheckpoints[i]] for a step in range. *)
Definition checkpointAt {num : Type} {NUM : JSNumber num}
    (moves : list string) (N : nat) (i : Z) : Z :=
  nth (Z.to_nat i) (moveCheckpoints moves N) 0.

(* ================================================================= *)
(** ** A queue played through *)

Section QueuePlayed.

Context {num : Type} {NUM : JSNumber num}.
Variable solutionMoves : list string.
Variable numExperiences : nat.

(** The moves and the duration [processQueue] takes for a transition
    (lines 384-394). *)
Definition transitionPlan (transition : Transition) : list string * Q :=
  match t_moves transition with
  | Some moves => (moves, (25 # 100)%Q)
  | None =>
      getMovesForTransition solutionMoves numExperiences
        (t_from transition) (t_to transition)
  end.

(** The moves of a queue, in the order of the queue. *)
Definition queueMoves (queue : list Transition) : list string :=
  flat_map (fun transition => fst (transitionPlan transition)) queue.

(** The effects of a queue: every move of every transition through
    [applyMove] with the transition's duration. *)
Definition queueActions (queue : list Transition) : list Action :=
  flat_map
    (fun transition =>
       flat_map (fun move => applyMove move (snd (transitionPlan transition)))
         (fst (transitionPlan transition)))
    queue.

(** The body of [processQueue]'s loops with every [await] carried out on
    the spot: nothing else runs in between. *)
Fixpoint playQueue (queue : list Transition) (s : Controller) : Controller :=
  match queue with
  | [] => finishProcessing s
  | transition :: queue' =>
      let s := set_animationQueue queue' s in
      let s := awaitApplyMoves (fst (transitionPlan transition))
                 (snd (transitionPlan transition)) s in
      playQueue queue' (set_currentAnimatedStep (t_to transition) s)
  end.

End QueuePlayed.

(** What a running queue pass keeps while nobody interferes: no
    cancellation, the processing flag up, no jump, and the step last
    queued. *)
Definition passing (step : Z) (s : Controller) : Prop :=
  abortProcessing s = false /\ isProcessingQueue s = true /\
  isJumping s = false /\ lastQueuedStep s = step.

(** A queue pass is either waiting for a rotation or over. *)
Definition waitingOrOver (step : Z) (s : Controller) : Prop :=
  (passing step s /\
   exists to rest d call after,
     running s = Some (mkPending (QueuePass to rest d) call after)) \/
  running s = None.

(** The controller at rest on a milestone: nothing processing, in flight
    or queued, no jump going on, and the logical cube and the pieces where
    the moves of the step take the solved cube. *)
Definition atRestOn {num : Type} {NUM : JSNumber num}
    (solutionMoves : list string) (numExperiences : nat) (step : Z) (s : Controller)
  : Prop :=
  isProcessingQueue s = false /\ running s = None /\ animationQueue s = [] /\
  isJumping s = false /\ lastQueuedStep s = step /\
  logicalCube s = Cube_moves (stepMoves solutionMoves numExperiences step) Cube_new /\
  arrangement (cubies s)
  = Cube_moves (stepMoves solutionMoves numExperiences step) Cube_new.

(* ================================================================= *)
(** ** The words of the solver's answer *)

(** [solveMovesString.split(' ').filter(m => m.trim() !== '')] (line 484). *)
Definition solveMoves (solveMovesString : string) : list string :=
  filter notBlank (split_space solveMovesString).

(* ================================================================= *)
(** ** The page around the cube *)

Module Portfolio.

Section Page.

(** [experiences.length] *)
Variable numExperiences : nat.

(** The updaters of [nextStep] and [prevStep] (lines 55-61). *)
Definition nextStep (prev : Z) : Z := Z.min (prev + 1) (Z.of_nat numExperiences - 1).

Definition prevStep (prev : Z) : Z := Z.max (prev - 1) 0.

(** [handleKeyDown] of the keyboard listener (lines 190-193) on the step. *)
Definition handleKeyDown (key : string) (step : Z) : Z :=
  let step := if String.eqb key "ArrowRight" then nextStep step else step in
  if String.eqb key "ArrowLeft" then prevStep step else step.

(** The width of the progress bar in percent (line 161). *)
Definition progressWidth (step : Z) : Q :=
  ((inject_Z (step + 1) / inject_Z (Z.of_nat numExperiences)) * 100)%Q.

End Page.

End Portfolio.

(* ================================================================= *)
(** ** The random move of the shuffle *)

(** [moves[Math.floor(Math.random() * moves.length)] +
    modifiers[Math.floor(Math.random() * modifiers.length)]] (lines
    618-620) for the two numbers [Math.random] returned, both in [0, 1). *)
Definition randomMove (r1 r2 : Q) : string :=
  (nth (Z.to_nat (Qfloor (r1 * inject_Z (Z.of_nat (List.length faceLetters)))))
     faceLetters "undefined"
   ++ nth (Z.to_nat (Qfloor (r2 * inject_Z (Z.of_nat (List.length modifiers)))))
        modifiers "undefined")%string.

(* ================================================================= *)
(** ** The frame callback: jump, vibration and decay *)

(** The numbers of the frame callback are taken as exact rationals. *)

(** [jumpHeight] (line 601). *)
Definition jumpHeight : Q := 175 # 1000.

(** The height of the group during the jump (lines 596-604), [elapsed]
    milliseconds after it began. *)
Definition jumpY (elapsed : Q) : Q :=
  let progress := Qmin (elapsed / inject_Z JUMP_DURATION) 1 in
  let y := (4 * jumpHeight * (progress - progress ^ 2))%Q in
  Qmax 0 y.

(** The intensity of the vibration (lines 584-588), [elapsed] milliseconds
    after it began. *)
Definition vibrationIntensity (elapsed : Q) : Q :=
  let progress := Qmin (elapsed / inject_Z VIBRATION_DURATION) 1 in
  ((2 # 100) + progress * (13 # 100))%Q.

(** One angle of the vibrating group (lines 590-592), for the number
    [Math.random] returned. *)
Definition vibrationAngle (random elapsed : Q) : Q :=
  ((random - (5 # 10)) * vibrationIntensity elapsed)%Q.

(** One frame of the return to rest on one coordinate of the group
    (lines 608-612). *)
Definition decay (x : Q) : Q :=
  if Qlt_le_dec (1 # 100) (Qabs x) then (x * (9 # 10))%Q else x.

(* ================================================================= *)
(** ** Checking tables *)

Fixpoint nondecreasing (l : list Z) : bool :=
  match l with
  | a :: (b :: _) as rest => (a <=? b) && nondecreasing rest
  | _ => true
  end.

(** Every table of the binary64 planner for 3 to [maxN] milestones and 1
    to [maxT] moves is non-decreasing. *)
Definition tablesNondecreasing (maxN maxT : nat) : bool :=
  forallb (fun N =>
    forallb (fun T => nondecreasing (moveCheckpoints (num := float) (repeat "R" T) N))
      (seq 1 maxT))
    (seq 3 (maxN - 2)).

(* ================================================================= *)
(** ** The cube as the solver and the eye see it *)

(** The cell of a centre piece or of the core: two coordinates at least
    are zero. *)
Definition isCentre (v : Vec) : bool :=
  let '(vx, vy, vz) := v in
  ((vx =? 0) && (vy =? 0)) || ((vx =? 0) && (vz =? 0)) || ((vy =? 0) && (vz =? 0)).

(** A state with the turning of the centre pieces about their own axes
    forgotten. *)
Definition uptoCentres (cube : Cube) : Cube :=
  map (fun pr : Vec * Rot => if isCentre (fst pr) then (fst pr, noRotation) else pr) cube.

(** Solved, for the solver and on screen: every piece in its place, every
    corner and edge in its orientation. *)
Definition solvedCube (cube : Cube) : Prop :=
  uptoCentres cube = uptoCentres Cube_new.

(* ================================================================= *)
(** ** The jump in binary64 *)

(** The height of lines 596-604 as the engine computes it, for an elapsed
    time that is a number: every operation rounded to binary64,
    [Math.pow(progress, 2)] taken as the rounded product, 0.175 as the
    double nearest to it. *)
Definition jumpY64 (elapsed : float) : float :=
  let quotient := (elapsed / 600)%float in
  let progress := if (quotient <? 1)%float then quotient else 1%float in
  let y := (4 * 0x1.6666666666666p-3 * (progress - progress * progress))%float in
  if (0 <? y)%float then y else 0%float.

(* ================================================================= *)
(** * Properties *)

(** ** Arrays *)

Lemma array_set_length (a : list Z) (i v : Z) :
  0 <= i < Z.of_nat (List.length a) ->
  List.length (array_set a i v) = List.length a.
Proof.
  intros Hi. unfold array_set.
  destruct (Z.ltb_spec i 0) as [Hneg | _]; [lia |].
  destruct (Nat.ltb_spec (Z.to_nat i) (List.length a)) as [Hlt | Hge]; [| lia].
  rewrite length_app. cbn [List.length]. rewrite length_firstn, length_skipn. lia.
Qed.

Lemma array_set_nth (a : list Z) (i v : Z) (k : nat) :
  0 <= i < Z.of_nat (List.length a) ->
  nth k (array_set a i v) 0 = if (k =? Z.to_nat i)%nat then v else nth k a 0.
Proof.
  intros Hi. unfold array_set.
  destruct (Z.ltb_spec i 0) as [Hneg | _]; [lia |].
  destruct (Nat.ltb_spec (Z.to_nat i) (List.length a)) as [Hlt | Hge]; [| lia].
  set (n := Z.to_nat i) in *.
  destruct (Nat.eqb_spec k n) as [-> | Hne].
  - rewrite app_nth2; rewrite length_firstn; [| lia].
    replace (n - Nat.min n (List.length a))%nat with 0%nat by lia. reflexivity.
  - destruct (Nat.lt_ge_cases k n) as [Hk | Hk].
    + rewrite app_nth1 by (rewrite length_firstn; lia).
      rewrite nth_firstn. destruct (Nat.ltb_spec k n); [reflexivity | lia].
    + rewrite app_nth2 by (rewrite length_firstn; lia).
      rewrite length_firstn.
      replace (k - Nat.min n (List.length a))%nat with (S (k - S n)) by lia.
      cbn [nth]. rewrite nth_skipn. f_equal. lia.
Qed.

(** The loop over the intermediate entries. *)
Lemma fill_length (f : Z -> Z) (idx : list nat) (a : list Z) :
  Forall (fun i => (i < List.length a)%nat) idx ->
  List.length (fold_left (fun cps i => array_set cps i (f i)) (map Z.of_nat idx) a)
  = List.length a.
Proof.
  revert a. induction idx as [| i idx IH]; intros a Hall; [reflexivity |].
  inversion Hall as [| ? ? Hi Hrest]; subst. cbn [map fold_left].
  rewrite IH.
  - apply array_set_length. lia.
  - rewrite array_set_length by lia. exact Hrest.
Qed.

Lemma fill_nth (f : Z -> Z) (idx : list nat) (a : list Z) (k : nat) :
  Forall (fun i => (i < List.length a)%nat) idx ->
  nth k (fold_left (fun cps i => array_set cps i (f i)) (map Z.of_nat idx) a) 0
  = if existsb (Nat.eqb k) idx then f (Z.of_nat k) else nth k a 0.
Proof.
  revert a. induction idx as [| i idx IH] using rev_ind; intros a Hall; [reflexivity |].
  apply Forall_app in Hall as [Hall Hi]. inversion Hi as [| ? ? Hi' _]; subst.
  rewrite map_app, fold_left_app. cbn [map fold_left].
  rewrite array_set_nth by (rewrite fill_length by assumption; lia).
  rewrite existsb_app. cbn [existsb]. rewrite Nat2Z.id, orb_false_r.
  destruct (Nat.eqb_spec k i) as [-> | Hne].
  - rewrite orb_true_r. reflexivity.
  - rewrite orb_false_r. apply IH. assumption.
Qed.

Lemma existsb_seq (k start len : nat) :
  existsb (Nat.eqb k) (seq start len) = ((start <=? k) && (k <? start + len))%nat.
Proof.
  revert start. induction len as [| len IH]; intros start; cbn [seq existsb].
  - destruct (Nat.leb_spec start k), (Nat.ltb_spec k (start + 0)); try reflexivity; lia.
  - rewrite IH.
    destruct (Nat.eqb_spec k start), (Nat.leb_spec start k), (Nat.leb_spec (S start) k),
      (Nat.ltb_spec k (S start + len)), (Nat.ltb_spec k (start + S len));
      try reflexivity; lia.
Qed.

(** ** The checkpoint table, entry by entry *)

Section PlannerFacts.

Context {num : Type} {NUM : JSNumber num}.

Lemma moveCheckpoints_empty (N : nat) : moveCheckpoints [] N = [].
Proof. reflexivity. Qed.

Lemma moveCheckpoints_length (moves : list string) (N : nat) :
  moves <> [] -> (2 <= N)%nat -> List.length (moveCheckpoints moves N) = N.
Proof.
  intros Hne HN. unfold moveCheckpoints.
  destruct moves as [| m moves]; [contradiction |]. cbn [List.length Nat.eqb].
  assert (L0 : List.length (array_set (repeat 0 N) 0 0) = N)
    by (rewrite array_set_length; rewrite repeat_length; lia).
  assert (L1 : forall v, List.length (array_set (array_set (repeat 0 N) 0 0)
                                       (Z.of_nat N - 1) v) = N)
    by (intros v; rewrite array_set_length; lia).
  assert (L2 : forall v w, List.length (array_set (array_set (array_set (repeat 0 N) 0 0)
                                       (Z.of_nat N - 1) v) (Z.of_nat N - 2) w) = N)
    by (intros v w; rewrite array_set_length; rewrite L1; lia).
  destruct (Z.gtb_spec (Z.of_nat N) 1) as [_ | ?]; [| lia].
  destruct (Z.gtb_spec (Z.of_nat N - 2) 1) as [HN4 | HN3].
  - rewrite fill_length; [apply L2 |].
    apply Forall_forall. intros i Hi. apply in_seq in Hi. rewrite L2. lia.
  - apply L2.
Qed.

Lemma moveCheckpoints_nth (moves : list string) (N : nat) (k : nat) :
  moves <> [] -> (2 <= N)%nat -> (k < N)%nat ->
  nth k (moveCheckpoints moves N) 0 =
    if (k =? N - 1)%nat then Z.of_nat (List.length moves)
    else if (k =? N - 2)%nat then Z.max 0 (Z.of_nat (List.length moves) - 3)
    else if (k =? 0)%nat then 0
    else interpolated (Z.of_nat (List.length moves)) N (Z.of_nat k).
Proof.
  intros Hne HN Hk. unfold moveCheckpoints.
  destruct moves as [| m moves]; [contradiction |].
  remember (m :: moves) as ms eqn:Hms.
  replace (List.length ms =? 0)%nat with false by (subst ms; reflexivity).
  cbv zeta.
  set (T := Z.of_nat (List.length ms)).
  assert (L0 : List.length (array_set (repeat 0 N) 0 0) = N)
    by (rewrite array_set_length; rewrite repeat_length; lia).
  assert (L1 : forall v, List.length (array_set (array_set (repeat 0 N) 0 0)
                                       (Z.of_nat N - 1) v) = N)
    by (intros v; rewrite array_set_length; lia).
  assert (L2 : forall v w, List.length (array_set (array_set (array_set (repeat 0 N) 0 0)
                                       (Z.of_nat N - 1) v) (Z.of_nat N - 2) w) = N)
    by (intros v w; rewrite array_set_length; rewrite L1; lia).
  assert (Base : nth k (array_set (array_set (array_set (repeat 0 N) 0 0)
                          (Z.of_nat N - 1) T) (Z.of_nat N - 2) (Z.max 0 (T - 3))) 0
                 = if (k =? N - 1)%nat then T
                   else if (k =? N - 2)%nat then Z.max 0 (T - 3) else 0).
  { rewrite array_set_nth by (rewrite L1; lia).
    rewrite array_set_nth by (rewrite L0; lia).
    rewrite array_set_nth by (rewrite repeat_length; lia).
    replace (Z.to_nat (Z.of_nat N - 2)) with (N - 2)%nat by lia.
    replace (Z.to_nat (Z.of_nat N - 1)) with (N - 1)%nat by lia.
    change (Z.to_nat 0) with 0%nat.
    rewrite nth_repeat.
    destruct (Nat.eqb_spec k (N - 2)), (Nat.eqb_spec k (N - 1)), (Nat.eqb_spec k 0);
      try reflexivity; lia. }
  destruct (Z.gtb_spec (Z.of_nat N) 1) as [_ | ?]; [| lia].
  destruct (Z.gtb_spec (Z.of_nat N - 2) 1) as [HN4 | HN3].
  - rewrite fill_nth
      with (f := fun i => Math_round (nmul (ofZ i)
                            (ndiv (ofZ (Z.max 0 (T - 3))) (ofZ (Z.of_nat N - 2)))))
      by (apply Forall_forall; intros i Hi; apply in_seq in Hi; rewrite L2; lia).
    rewrite existsb_seq, Base. unfold interpolated. fold T.
    destruct (Nat.leb_spec 1 k), (Nat.ltb_spec k (1 + (N - 3))),
      (Nat.eqb_spec k (N - 1)), (Nat.eqb_spec k (N - 2)), (Nat.eqb_spec k 0);
      cbn [andb]; try reflexivity; lia.
  - rewrite Base.
    destruct (Nat.eqb_spec k (N - 1)), (Nat.eqb_spec k (N - 2)), (Nat.eqb_spec k 0);
      try reflexivity; lia.
Qed.

End PlannerFacts.

(** With three milestones or more and a scramble that is not empty, in any
    arithmetic (binary64 included): the table has [N] entries, the first is
    0, the last is the number of moves, the one before it that number less
    three (or 0), and each entry in between is what [Math.round] makes of
    [i] times the quotient, as that arithmetic computes it. *)
Lemma checkpoint_table_any_numbers {num : Type} {NUM : JSNumber num}
    (moves : list string) (N : nat) :
  (3 <= N)%nat -> moves <> [] ->
  let T := Z.of_nat (List.length moves) in
  let checkpoints := moveCheckpoints moves N in
  List.length checkpoints = N /\
  nth 0 checkpoints 0 = 0 /\
  nth (N - 1) checkpoints 0 = T /\
  nth (N - 2) checkpoints 0 = Z.max 0 (T - 3) /\
  (forall i : nat, (1 <= i <= N - 3)%nat ->
     nth i checkpoints 0
     = Math_round (nmul (ofZ (Z.of_nat i))
                     (ndiv (ofZ (Z.max 0 (T - 3))) (ofZ (Z.of_nat N - 2))))).
Proof.
  intros HN Hne T checkpoints. subst checkpoints.
  assert (Hnth := fun k => moveCheckpoints_nth moves N k Hne ltac:(lia)).
  fold T in Hnth.
  split; [apply moveCheckpoints_length; [exact Hne | lia] |].
  repeat split.
  - rewrite Hnth by lia.
    destruct (Nat.eqb_spec 0 (N - 1)), (Nat.eqb_spec 0 (N - 2)); try reflexivity; lia.
  - rewrite Hnth by lia. rewrite Nat.eqb_refl. reflexivity.
  - rewrite Hnth by lia. rewrite Nat.eqb_refl.
    destruct (Nat.eqb_spec (N - 2) (N - 1)); [lia | reflexivity].
  - intros i Hi. rewrite Hnth by lia.
    destruct (Nat.eqb_spec i (N - 1)), (Nat.eqb_spec i (N - 2)), (Nat.eqb_spec i 0);
      try lia.
    reflexivity.
Qed.

Lemma checkpoint_table_any_numbers_witness :
  let checkpoints := moveCheckpoints (num := float) (repeat "R" 64) 16 in
  List.length checkpoints = 16%nat /\
  nth 0 checkpoints 0 = 0 /\
  nth (16 - 1) checkpoints 0 = Z.of_nat (List.length (repeat "R" 64)) /\
  nth (16 - 2) checkpoints 0 = Z.max 0 (Z.of_nat (List.length (repeat "R" 64)) - 3) /\
  (forall i : nat, (1 <= i <= 16 - 3)%nat ->
     nth i checkpoints 0
     = Math_round (nmul (ofZ (Z.of_nat i))
                     (ndiv (ofZ (Z.max 0 (Z.of_nat (List.length (repeat "R" 64)) - 3)))
                        (ofZ (Z.of_nat 16 - 2))))).
Proof.
  apply (checkpoint_table_any_numbers (num := float) (repeat "R" 64) 16).
  - lia.
  - discriminate.
Defined.

(** ** Rounding in exact arithmetic *)

Lemma inject_Z_le (a b : Z) : a <= b -> (inject_Z a <= inject_Z b)%Q.
Proof. intros H. rewrite <- Zle_Qle. exact H. Qed.

Lemma quotient_nonneg (p m : Z) : 0 <= p -> 0 < m -> (0 <= inject_Z p / inject_Z m)%Q.
Proof.
  intros Hp Hm. apply Qle_shift_div_l.
  - change 0%Q with (inject_Z 0). rewrite <- Zlt_Qlt. exact Hm.
  - rewrite Qmult_0_l. change 0%Q with (inject_Z 0). apply inject_Z_le. exact Hp.
Qed.

Lemma scaled_round_mono (q : Q) (i j : Z) :
  (0 <= q)%Q -> i <= j ->
  roundHalfUp (inject_Z i * q) <= roundHalfUp (inject_Z j * q).
Proof.
  intros Hq Hij. unfold roundHalfUp. apply Qfloor_resp_le.
  apply Qplus_le_compat; [| apply Qle_refl].
  apply Qmult_le_compat_r; [apply inject_Z_le; exact Hij | exact Hq].
Qed.

Lemma scaled_round_nonneg (q : Q) (i : Z) :
  (0 <= q)%Q -> 0 <= i -> 0 <= roundHalfUp (inject_Z i * q).
Proof.
  intros Hq Hi. unfold roundHalfUp.
  change 0 with (Qfloor 0). apply Qfloor_resp_le.
  apply Qle_trans with (0 + 0)%Q; [apply Qle_refl |].
  apply Qplus_le_compat; [| discriminate].
  apply Qmult_le_0_compat; [| exact Hq].
  change 0%Q with (inject_Z 0). apply inject_Z_le. exact Hi.
Qed.

Lemma scaled_round_upper (p m i : Z) :
  0 <= p -> 0 < m -> i <= m ->
  roundHalfUp (inject_Z i * (inject_Z p / inject_Z m)) <= p.
Proof.
  intros Hp Hm Him. unfold roundHalfUp.
  set (x := (inject_Z i * (inject_Z p / inject_Z m) + (1 # 2))%Q).
  assert (Hx : (x < inject_Z (p + 1))%Q).
  { unfold x. rewrite inject_Z_plus.
    apply Qle_lt_trans with (inject_Z p + (1 # 2))%Q.
    - apply Qplus_le_compat; [| apply Qle_refl].
      apply Qle_trans with (inject_Z m * (inject_Z p / inject_Z m))%Q.
      + apply Qmult_le_compat_r; [apply inject_Z_le; exact Him |].
        apply quotient_nonneg; assumption.
      + rewrite Qmult_div_r; [apply Qle_refl |].
        intros H. apply (Qeq_bool_neq (inject_Z m) 0); [| exact H].
        unfold Qeq_bool, inject_Z. cbn. apply Z.eqb_neq. lia.
    - apply Qplus_lt_r. reflexivity. }
  assert (Hf : (inject_Z (Qfloor x) < inject_Z (p + 1))%Q)
    by (apply Qle_lt_trans with x; [apply Qfloor_le | exact Hx]).
  rewrite <- Zlt_Qlt in Hf. lia.
Qed.

Lemma interpolated_exact (T : Z) (N : nat) (i : Z) :
  interpolated (num := Q) T N i
  = roundHalfUp (inject_Z i * inject_Z (Z.max 0 (T - 3)) / inject_Z (Z.of_nat N - 2)).
Proof.
  unfold interpolated, roundHalfUp. cbn [Math_round nmul ndiv ofZ ExactNumber].
  apply Qfloor_comp. apply Qplus_comp; [| reflexivity].
  unfold Qdiv. rewrite Qmult_assoc. reflexivity.
Qed.

(** ** Checkpoint planner *)

(** The table takes nothing from the scramble but its length. *)
Lemma moveCheckpoints_length_only {num : Type} {NUM : JSNumber num}
    (moves : list string) (N : nat) :
  moveCheckpoints moves N = moveCheckpoints (repeat "R" (List.length moves)) N.
Proof. unfold moveCheckpoints. rewrite repeat_length. reflexivity. Qed.

Lemma nondecreasing_nth (l : list Z) :
  nondecreasing l = true ->
  forall i j : nat, (i <= j < List.length l)%nat -> nth i l 0 <= nth j l 0.
Proof.
  induction l as [| a l IH]; intros H i j Hij; [cbn in Hij; lia |].
  destruct l as [| b l].
  - cbn [List.length] in Hij. replace i with 0%nat by lia. replace j with 0%nat by lia.
    lia.
  - cbn [nondecreasing] in H. apply andb_prop in H as [Hab Hrest].
    apply Z.leb_le in Hab. specialize (IH Hrest).
    destruct i as [| i], j as [| j]; cbn [nth]; try lia.
    + apply Z.le_trans with b; [exact Hab |].
      apply (IH 0%nat j). cbn [List.length] in *. lia.
    + apply (IH i j). cbn [List.length] in *. lia.
Qed.

Lemma tables_checked (maxN maxT N T : nat) :
  tablesNondecreasing maxN maxT = true ->
  (3 <= N <= maxN)%nat -> (1 <= T <= maxT)%nat ->
  nondecreasing (moveCheckpoints (num := float) (repeat "R" T) N) = true.
Proof.
  unfold tablesNondecreasing. intros Hall HN HT.
  rewrite forallb_forall in Hall.
  specialize (Hall N ltac:(apply in_seq; lia)).
  rewrite forallb_forall in Hall.
  apply Hall. apply in_seq. lia.
Qed.

(** Every table binary64 gives for 3 to 40 milestones and 1 to 120 moves,
    computed. *)
Lemma tables_nondecreasing_binary64 : tablesNondecreasing 40 120 = true.
Proof. vm_compute. reflexivity. Qed.




(** In binary64 the quotient is rounded before it is multiplied, and an
    entry can come out one below the rounding of the exact value of
    [i * max(0, T-3) / (N-2)]: sixteen milestones and sixty-four moves put
    30 at index 7 where exact arithmetic has 31. *)
Remark checkpoint_entry_binary64 :
  nth 7 (moveCheckpoints (num := float) (repeat "R" 64) 16) 0 = 30 /\
  nth 7 (moveCheckpoints (num := Q) (repeat "R" 64) 16) 0 = 31.
Proof. split; vm_compute; reflexivity. Qed.

(** C4, as the code has it. With two milestones: an empty scramble gives
    the empty table; a scramble of [T >= 1] moves gives a table of two
    entries whose second is [T], and whose first is 0 when [T <= 3]. *)
Theorem checkpoint_table_two_milestones {num : Type} {NUM : JSNumber num}
    (moves : list string) :
  let T := Z.of_nat (List.length moves) in
  let checkpoints := moveCheckpoints moves 2 in
  (moves = [] -> checkpoints = []) /\
  (moves <> [] ->
     exists first : Z, checkpoints = [first; T] /\ (T <= 3 -> first = 0)).
Proof.
  intros T checkpoints. split.
  { intros ->. reflexivity. }
  intros Hne. exists (Z.max 0 (T - 3)). split; [| lia].
  subst checkpoints. unfold moveCheckpoints.
  destruct moves as [| m moves]; [contradiction |].
  remember (m :: moves) as ms eqn:Hms.
  replace (List.length ms =? 0)%nat with false by (subst ms; reflexivity).
  fold T. reflexivity.
Qed.

Lemma checkpoint_table_two_milestones_witness :
  exists first : Z,
    moveCheckpoints (num := Q) ["R"; "U"] 2 = [first; 2] /\ (2 <= 3 -> first = 0).
Proof.
  apply (proj2 (checkpoint_table_two_milestones (num := Q) ["R"; "U"])).
  discriminate.
Defined.

(** C4, as stated, fails for the empty scramble: the table is then empty,
    not [[0; 0]]. *)
Lemma checkpoint_table_two_milestones_empty :
  moveCheckpoints (num := Q) [] 2 <> [0; Z.of_nat (List.length (@nil string))].
Proof. cbn. discriminate. Qed.

(** With two milestones and more than three moves the write at index
    [N - 2] lands on entry 0. *)
Remark checkpoint_table_two_milestones_long :
  moveCheckpoints (num := Q) ["R"; "U"; "F"; "D"; "L"] 2 = [2; 5].
Proof. reflexivity. Qed.

(** ** Transition planner *)

Lemma array_get_nth (a : list Z) (i : Z) :
  0 <= i -> array_get a i = nth (Z.to_nat i) a 0.
Proof.
  intros Hi. unfold array_get.
  destruct (Z.ltb_spec i 0); [lia | reflexivity].
Qed.

(** The branches of [getMovesForTransition], one at a time. *)
Section PlanBranches.

Context {num : Type} {NUM : JSNumber num}.
Variable moves : list string.
Variable N : nat.
Hypothesis scrambled : moves <> [].

Lemma scrambled_length : (List.length moves =? 0)%nat = false.
Proof. destruct moves; [contradiction | reflexivity]. Qed.

Lemma plan_reset :
  getMovesForTransition moves N (Z.of_nat N - 1) 0
  = (map invertMove (rev moves), (2 # 100)%Q).
Proof.
  unfold getMovesForTransition. rewrite scrambled_length, !Z.eqb_refl. reflexivity.
Qed.

Lemma plan_forward (fromIdx toIdx : Z) :
  0 <= fromIdx -> fromIdx < toIdx ->
  getMovesForTransition moves N fromIdx toIdx
  = (slice moves (nth (Z.to_nat fromIdx) (moveCheckpoints moves N) 0)
       (nth (Z.to_nat toIdx) (moveCheckpoints moves N) 0), (25 # 100)%Q).
Proof.
  intros Hfrom Hlt. unfold getMovesForTransition.
  rewrite scrambled_length, !array_get_nth by lia.
  destruct (Z.eqb_spec toIdx 0); [lia |]. rewrite andb_false_r.
  destruct (Z.gtb_spec toIdx fromIdx); [| lia].
  destruct (toIdx =? Z.of_nat N - 1); reflexivity.
Qed.

Lemma plan_backward (fromIdx toIdx : Z) :
  0 <= toIdx -> toIdx < fromIdx ->
  ~ (fromIdx = Z.of_nat N - 1 /\ toIdx = 0) ->
  getMovesForTransition moves N fromIdx toIdx
  = (map invertMove
       (rev (slice moves (nth (Z.to_nat toIdx) (moveCheckpoints moves N) 0)
               (nth (Z.to_nat fromIdx) (moveCheckpoints moves N) 0))),
     (25 # 100)%Q).
Proof.
  intros Hto Hlt Hnot. unfold getMovesForTransition.
  rewrite scrambled_length, !array_get_nth by lia.
  destruct (Z.eqb_spec fromIdx (Z.of_nat N - 1)), (Z.eqb_spec toIdx 0); cbn [andb];
    try tauto;
    (destruct (Z.gtb_spec toIdx fromIdx); [lia |];
     destruct (Z.ltb_spec toIdx fromIdx); [reflexivity | lia]).
Qed.

Lemma plan_stay (idx : Z) :
  ~ (idx = Z.of_nat N - 1 /\ idx = 0) ->
  getMovesForTransition moves N idx idx = ([], (3 # 10)%Q).
Proof.
  intros Hnot. unfold getMovesForTransition. rewrite scrambled_length.
  destruct (Z.eqb_spec idx (Z.of_nat N - 1)), (Z.eqb_spec idx 0); cbn [andb];
    try tauto;
    (destruct (Z.gtb_spec idx idx); [lia |];
     destruct (Z.ltb_spec idx idx); [lia | reflexivity]).
Qed.

End PlanBranches.



(** ** Quarter turns *)

(** Equality of two vectors, coordinate by coordinate. *)
Ltac triple_ring :=
  match goal with
  | |- (?a, ?b, ?c) = (?a', ?b', ?c') =>
      replace a with a' by ring; replace b with b' by ring;
      replace c with c' by ring; reflexivity
  end.

Lemma quarter_residue (d : Z) : d mod 4 = 0 \/ d mod 4 = 1 \/ d mod 4 = 2 \/ d mod 4 = 3.
Proof. pose proof (Z.mod_pos_bound d 4). lia. Qed.

Lemma cosq_add (d1 d2 : Z) :
  cosq (d1 + d2) = cosq d1 * cosq d2 - sinq d1 * sinq d2.
Proof.
  unfold cosq, sinq. rewrite (Z.add_mod d1 d2 4) by lia.
  destruct (quarter_residue d1) as [H1 | [H1 | [H1 | H1]]];
    destruct (quarter_residue d2) as [H2 | [H2 | [H2 | H2]]];
    rewrite H1, H2; reflexivity.
Qed.

Lemma sinq_add (d1 d2 : Z) :
  sinq (d1 + d2) = sinq d1 * cosq d2 + cosq d1 * sinq d2.
Proof.
  unfold cosq, sinq. rewrite (Z.add_mod d1 d2 4) by lia.
  destruct (quarter_residue d1) as [H1 | [H1 | [H1 | H1]]];
    destruct (quarter_residue d2) as [H2 | [H2 | [H2 | H2]]];
    rewrite H1, H2; reflexivity.
Qed.

Lemma rotateVec_add (axis : Axis) (d1 d2 : Z) (v : Vec) :
  rotateVec axis d2 (rotateVec axis d1 v) = rotateVec axis (d1 + d2) v.
Proof.
  destruct v as [[vx vy] vz]. unfold rotateVec.
  rewrite cosq_add, sinq_add. destruct axis; triple_ring.
Qed.

Lemma rotateVec_residue (axis : Axis) (d1 d2 : Z) (v : Vec) :
  d1 mod 4 = d2 mod 4 -> rotateVec axis d1 v = rotateVec axis d2 v.
Proof. intros H. unfold rotateVec, cosq, sinq. rewrite H. reflexivity. Qed.

Lemma rotateVec_full (axis : Axis) (d : Z) (v : Vec) :
  d mod 4 = 0 -> rotateVec axis d v = v.
Proof.
  intros H. destruct v as [[vx vy] vz].
  assert (Hc : cosq d = 1) by (unfold cosq; rewrite H; reflexivity).
  assert (Hs : sinq d = 0) by (unfold sinq; rewrite H; reflexivity).
  unfold rotateVec. rewrite Hc, Hs. destruct axis; triple_ring.
Qed.

Lemma coord_rotateVec (axis : Axis) (d : Z) (v : Vec) :
  coord axis (rotateVec axis d v) = coord axis v.
Proof. destruct v as [[vx vy] vz], axis; reflexivity. Qed.

Lemma rotateRot_add (axis : Axis) (d1 d2 : Z) (r : Rot) :
  rotateRot axis d2 (rotateRot axis d1 r) = rotateRot axis (d1 + d2) r.
Proof.
  destruct r as [[e1 e2] e3]. unfold rotateRot. rewrite !rotateVec_add. reflexivity.
Qed.

Lemma rotateRot_residue (axis : Axis) (d1 d2 : Z) (r : Rot) :
  d1 mod 4 = d2 mod 4 -> rotateRot axis d1 r = rotateRot axis d2 r.
Proof.
  intros H. destruct r as [[e1 e2] e3]. unfold rotateRot.
  rewrite !(rotateVec_residue axis d1 d2) by exact H. reflexivity.
Qed.

Lemma rotateRot_full (axis : Axis) (d : Z) (r : Rot) :
  d mod 4 = 0 -> rotateRot axis d r = r.
Proof.
  intros H. destruct r as [[e1 e2] e3]. unfold rotateRot.
  rewrite !rotateVec_full by exact H. reflexivity.
Qed.

Lemma turnLayer_add (axis : Axis) (side d1 d2 : Z) (cube : Cube) :
  turnLayer axis side d2 (turnLayer axis side d1 cube) = turnLayer axis side (d1 + d2) cube.
Proof.
  unfold turnLayer. rewrite map_map. apply map_ext. intros [v r]. cbn [fst snd].
  destruct (Z.eqb_spec (coord axis v) side) as [Hin | Hout]; cbn [fst snd].
  - rewrite coord_rotateVec. rewrite (proj2 (Z.eqb_eq _ _) Hin).
    rewrite rotateVec_add, rotateRot_add. reflexivity.
  - rewrite (proj2 (Z.eqb_neq _ _) Hout). reflexivity.
Qed.

Lemma turnLayer_residue (axis : Axis) (side d1 d2 : Z) (cube : Cube) :
  d1 mod 4 = d2 mod 4 -> turnLayer axis side d1 cube = turnLayer axis side d2 cube.
Proof.
  intros H. unfold turnLayer. apply map_ext. intros [v r]. cbn [fst snd].
  rewrite (rotateVec_residue axis d1 d2), (rotateRot_residue axis d1 d2) by exact H.
  reflexivity.
Qed.

Lemma turnLayer_full (axis : Axis) (side d : Z) (cube : Cube) :
  d mod 4 = 0 -> turnLayer axis side d cube = cube.
Proof.
  intros H. unfold turnLayer. rewrite <- (map_id cube) at 2. apply map_ext.
  intros [v r]. cbn [fst snd].
  rewrite rotateVec_full, rotateRot_full by exact H.
  destruct (coord axis v =? side); reflexivity.
Qed.

(** ** Move tokens and their inverses *)

Lemma isMoveToken_In (m : string) : isMoveToken m = true -> In m moveTokens.
Proof.
  unfold isMoveToken. intros H. apply existsb_exists in H as [t [Hin Heq]].
  apply String.eqb_eq in Heq. subst t. exact Hin.
Qed.

(** Case analysis over the eighteen tokens. *)
Ltac each_token H :=
  apply isMoveToken_In in H; cbn in H;
  repeat (destruct H as [H | H]; [subst |]); [.. | contradiction].

Lemma invertMove_token (m : string) :
  isMoveToken m = true -> isMoveToken (invertMove m) = true.
Proof. intros H. each_token H; reflexivity. Qed.

(** Inverting a move token twice gives the token back. *)
Lemma invertMove_involutive (m : string) :
  isMoveToken m = true -> invertMove (invertMove m) = m.
Proof. intros H. each_token H; reflexivity. Qed.

Lemma invertMove_involutive_witness : invertMove (invertMove "R'") = "R'".
Proof. apply (invertMove_involutive "R'"). reflexivity. Defined.


Lemma Cube_move_invertMove (m : string) (cube : Cube) :
  isMoveToken m = true -> Cube_move (invertMove m) (Cube_move m cube) = cube.
Proof.
  intros H. each_token H;
    cbn [invertMove includes String.prefix orb replace string_drop String.length
         append Cube_move faceLayer tokenTurns];
    cbn; unfold Cube_turn; rewrite turnLayer_add; apply turnLayer_full; reflexivity.
Qed.

Lemma Cube_moves_app (l1 l2 : list string) (cube : Cube) :
  Cube_moves (l1 ++ l2) cube = Cube_moves l2 (Cube_moves l1 cube).
Proof. apply fold_left_app. Qed.

Lemma Cube_moves_undo (l : list string) (cube : Cube) :
  forallb isMoveToken l = true ->
  Cube_moves (map invertMove (rev l)) (Cube_moves l cube) = cube.
Proof.
  revert cube. induction l as [| m l IH]; intros cube Hl; [reflexivity |].
  cbn [forallb] in Hl. apply andb_prop in Hl as [Hm Hl].
  cbn [rev]. rewrite map_app, Cube_moves_app. cbn [map].
  change (Cube_moves (m :: l) cube) with (Cube_moves l (Cube_move m cube)).
  rewrite IH by exact Hl. cbn. apply Cube_move_invertMove. exact Hm.
Qed.

(** ** The pieces on screen follow the permutation model *)

Lemma isActive_grid (axis : Axis) (index : Z) (c : Cubie) :
  isActive axis index c = (coord axis (position c) =? index).
Proof.
  unfold isActive.
  destruct (Z.ltb_spec (10 * Z.abs (coord axis (position c) - index)) 1),
    (Z.eqb_spec (coord axis (position c)) index); try reflexivity; lia.
Qed.

Lemma arrangement_rotateSlice (axis : Axis) (index d : Z) (cs : list Cubie) :
  arrangement (rotateSlice axis index d cs) = turnLayer axis index d (arrangement cs).
Proof.
  unfold arrangement, rotateSlice, turnLayer. rewrite !map_map. apply map_ext.
  intros c. rewrite isActive_grid. cbn [fst snd].
  destruct (coord axis (position c) =? index); reflexivity.
Qed.

Lemma awaitApplyMove_logicalCube (move : string) (d : Q) (s : Controller) :
  logicalCube (awaitApplyMove move d s) = Cube_move move (logicalCube s).
Proof.
  unfold awaitApplyMove, applyMove. destruct (includes "2" move); reflexivity.
Qed.

Lemma awaitApplyMove_cubies (move : string) (d : Q) (s : Controller) :
  cubies (awaitApplyMove move d s) =
    let call := moveCall move d in
    let once := rotateSlice (sc_axis call) (sc_index call) (sc_direction call) in
    if includes "2" move then once (once (cubies s)) else once (cubies s).
Proof.
  unfold awaitApplyMove, applyMove. destruct (includes "2" move); reflexivity.
Qed.

Lemma awaitApplyMove_history (move : string) (d : Q) (s : Controller) :
  history (awaitApplyMove move d s) = history s ++ applyMove move d.
Proof.
  unfold awaitApplyMove, applyMove. destruct (includes "2" move);
    cbn; rewrite <- ?app_assoc; reflexivity.
Qed.

Lemma awaitApplyMove_arrangement (move : string) (d : Q) (s : Controller) :
  isMoveToken move = true ->
  arrangement (cubies (awaitApplyMove move d s)) = Cube_move move (arrangement (cubies s)).
Proof.
  intros H. rewrite awaitApplyMove_cubies.
  each_token H; cbn; unfold Cube_turn;
    rewrite ?arrangement_rotateSlice, ?turnLayer_add;
    apply turnLayer_residue; reflexivity.
Qed.

Lemma awaitApplyMoves_logicalCube (moves : list string) (d : Q) (s : Controller) :
  logicalCube (awaitApplyMoves moves d s) = Cube_moves moves (logicalCube s).
Proof.
  revert s. induction moves as [| m moves IH]; intros s; [reflexivity |].
  cbn [awaitApplyMoves fold_left]. fold (awaitApplyMoves moves d (awaitApplyMove m d s)).
  rewrite IH, awaitApplyMove_logicalCube. reflexivity.
Qed.

Lemma awaitApplyMoves_arrangement (moves : list string) (d : Q) (s : Controller) :
  forallb isMoveToken moves = true ->
  arrangement (cubies (awaitApplyMoves moves d s)) = Cube_moves moves (arrangement (cubies s)).
Proof.
  revert s. induction moves as [| m moves IH]; intros s Hall; [reflexivity |].
  cbn [forallb] in Hall. apply andb_prop in Hall as [Hm Hall].
  cbn [awaitApplyMoves fold_left]. fold (awaitApplyMoves moves d (awaitApplyMove m d s)).
  rewrite IH by exact Hall. rewrite awaitApplyMove_arrangement by exact Hm. reflexivity.
Qed.

Lemma moveLogical_all_logicalCube (moves : list string) (s : Controller) :
  logicalCube (fold_left (fun st move => moveLogical move st) moves s)
  = Cube_moves moves (logicalCube s).
Proof.
  revert s. induction moves as [| m moves IH]; intros s; [reflexivity |].
  cbn [fold_left]. rewrite IH. reflexivity.
Qed.

Lemma moveLogical_all_cubies (moves : list string) (s : Controller) :
  cubies (fold_left (fun st move => moveLogical move st) moves s) = cubies s.
Proof.
  revert s. induction moves as [| m moves IH]; intros s; [reflexivity |].
  cbn [fold_left]. rewrite IH. reflexivity.
Qed.

Lemma forEachIndexed_place (cs : list Cubie) (table : list (Vec * list string)) :
  List.length cs = List.length table ->
  arrangement
    (forEachIndexed (fun c init => mkCubie (fst init) noRotation (faceColors c)) cs table)
  = map (fun pc => (fst pc, noRotation)) table.
Proof.
  revert table. induction cs as [| c cs IH]; intros [| t table] Hlen;
    try discriminate; [reflexivity |].
  cbn [forEachIndexed]. unfold arrangement in *. cbn [map]. f_equal.
  apply IH. cbn in Hlen. lia.
Qed.

Lemma forEachIndexed_length {A B : Type} (f : A -> B -> A) (l : list A) (table : list B) :
  List.length (forEachIndexed f l table) = List.length l.
Proof.
  revert table. induction l as [| a l IH]; intros [| b table]; cbn; try reflexivity.
  rewrite IH. reflexivity.
Qed.

(** ** Slices *)

Lemma forallb_firstn {A : Type} (p : A -> bool) (n : nat) (l : list A) :
  forallb p l = true -> forallb p (firstn n l) = true.
Proof.
  revert n. induction l as [| a l IH]; intros [| n] H; try reflexivity.
  cbn in *. apply andb_prop in H as [Ha Hl]. rewrite Ha, IH by exact Hl. reflexivity.
Qed.

Lemma forallb_skipn {A : Type} (p : A -> bool) (n : nat) (l : list A) :
  forallb p l = true -> forallb p (skipn n l) = true.
Proof.
  revert n. induction l as [| a l IH]; intros [| n] H; try reflexivity; try exact H.
  cbn in *. apply andb_prop in H as [Ha Hl]. apply IH. exact Hl.
Qed.

Lemma forallb_slice {A : Type} (p : A -> bool) (l : list A) (a b : Z) :
  forallb p l = true -> forallb p (slice l a b) = true.
Proof. intros H. unfold slice. apply forallb_firstn, forallb_skipn, H. Qed.

Lemma slice_whole {A : Type} (l : list A) :
  slice l 0 (Z.of_nat (List.length l)) = l.
Proof.
  unfold slice. change (0 <? 0) with false. cbv zeta.
  destruct (Z.ltb_spec (Z.of_nat (List.length l)) 0); [lia |].
  rewrite Z.min_id. rewrite Z.min_l by lia. cbn [Z.to_nat skipn].
  rewrite Z.sub_0_r, Nat2Z.id. apply firstn_all.
Qed.

(** ** The hard reset *)

Section ResetFacts.

Context {num : Type} {NUM : JSNumber num}.
Variable solutionMoves : list string.
Variable numExperiences : nat.

(** The logical cube is moved by [applyMove] and then once more by the two
    loops that end [resetToStep]. *)
Lemma resetToStep_logicalCube (targetStep : Z) (s : Controller) :
  logicalCube (resetToStep solutionMoves numExperiences targetStep s)
  = Cube_moves (stepMoves solutionMoves numExperiences targetStep
                ++ stepMoves solutionMoves numExperiences targetStep) Cube_new.
Proof.
  unfold resetToStep, stepMoves. cbv zeta.
  rewrite !moveLogical_all_logicalCube, !awaitApplyMoves_logicalCube.
  rewrite !Cube_moves_app. reflexivity.
Qed.

Lemma getMovesToReachStep_tokens (targetStep : Z) :
  forallb isMoveToken solutionMoves = true ->
  forallb isMoveToken (getMovesToReachStep solutionMoves numExperiences targetStep) = true.
Proof.
  intros H. unfold getMovesToReachStep.
  destruct (_ || _); [reflexivity |].
  destruct (targetStep <? 0); [exact H | apply forallb_slice, H].
Qed.

Lemma inverted_tokens (moves : list string) :
  forallb isMoveToken moves = true ->
  forallb isMoveToken (map invertMove (rev moves)) = true.
Proof.
  intros H. apply forallb_forall. intros m Hm.
  apply in_map_iff in Hm as [m0 [<- Hm0]]. apply in_rev in Hm0.
  apply invertMove_token. revert m0 Hm0. apply forallb_forall. exact H.
Qed.

(** With no rotation in flight (the pieces all hang on the group, none on
    the pivot), the pieces on screen are turned once. *)
Lemma resetToStep_arrangement (targetStep : Z) (s : Controller) :
  running s = None ->
  forallb isMoveToken solutionMoves = true ->
  List.length (cubies s) = 27%nat ->
  arrangement (cubies (resetToStep solutionMoves numExperiences targetStep s))
  = Cube_moves (stepMoves solutionMoves numExperiences targetStep) Cube_new.
Proof.
  intros _ Htok Hlen. unfold resetToStep, stepMoves. cbv zeta.
  rewrite !moveLogical_all_cubies.
  rewrite awaitApplyMoves_arrangement by (apply getMovesToReachStep_tokens, Htok).
  rewrite awaitApplyMoves_arrangement by (apply inverted_tokens, Htok).
  rewrite Cube_moves_app. do 2 f_equal.
  cbn [cubies set_cubies set_groupRotation set_logicalCube].
  apply forEachIndexed_place. rewrite forEachIndexed_length. exact Hlen.
Qed.

End ResetFacts.

Lemma resetToStep_arrangement_witness :
  arrangement (cubies (resetToStep (num := Q) fourMoves 5 3 mounted))
  = Cube_moves (stepMoves (num := Q) fourMoves 5 3) Cube_new.
Proof.
  apply (resetToStep_arrangement (num := Q) fourMoves 5 3 mounted); reflexivity.
Defined.


(** C1 at a failing input: four scramble moves, five milestones, a reset
    to milestone 3 (the landing of the jump back from the last one). The
    pieces on screen show the scramble undone and the first
    [checkpoints[3]] moves applied once; the logical cube has gone through
    that sequence twice (every move reached it twice, every rotation was
    made once) and holds another permutation. *)
Theorem resetToStep_moves_logical_cube_twice :
  let moves := ["R"; "U"; "F"; "D"] in
  let s := resetToStep (num := Q) moves 5 3 (initCube moves mounted) in
  let once :=
    map invertMove (rev moves)
    ++ slice moves 0 (nth 3 (moveCheckpoints (num := Q) moves 5) 0) in
  arrangement (cubies s) = Cube_moves once Cube_new /\
  logicalCube s = Cube_moves (once ++ once) Cube_new /\
  logicalMovesOf (skipn (List.length (history (initCube moves mounted))) (history s))
  = once ++ once /\
  rotationsOf (skipn (List.length (history (initCube moves mounted))) (history s))
  = map (fun move => moveCall move 0) once /\
  map fst (logicalCube s) <> map fst (arrangement (cubies s)).
Proof.
  intros moves s once. split; [| split; [| split; [| split]]].
  - vm_compute. reflexivity.
  - vm_compute. reflexivity.
  - vm_compute. reflexivity.
  - vm_compute. reflexivity.
  - vm_compute. discriminate.
Qed.

(** ** Round trips of the transition planner *)

(** From three milestones on, a transition and its reverse cancel on every
    state of the permutation model. *)
Lemma round_trip_three_or_more {num : Type} {NUM : JSNumber num}
    (moves : list string) (N : nat) (i j : Z) (cube : Cube) :
  (3 <= N)%nat ->
  forallb isMoveToken moves = true ->
  0 <= i -> i <= j -> j < Z.of_nat N ->
  Cube_moves (fst (getMovesForTransition moves N j i))
    (Cube_moves (fst (getMovesForTransition moves N i j)) cube) = cube.
Proof.
  intros HN Htok Hi Hij Hj.
  destruct moves as [| m0 moves0] eqn:Hmoves; [reflexivity |].
  rewrite <- Hmoves in *.
  assert (Hne : moves <> []) by (rewrite Hmoves; discriminate).
  destruct (Z.eq_dec i j) as [-> | Hneq].
  - rewrite plan_stay by (try assumption; lia). reflexivity.
  - rewrite (plan_forward moves N Hne i j) by lia. cbn [fst].
    destruct (Z.eq_dec j (Z.of_nat N - 1)) as [Hlast | Hlast];
      [destruct (Z.eq_dec i 0) as [Hfirst | Hfirst] |].
    + subst i j. rewrite plan_reset by exact Hne. cbn [fst].
      rewrite (moveCheckpoints_nth moves N) by (try assumption; lia).
      rewrite (moveCheckpoints_nth moves N) by (try assumption; lia).
      replace (Z.to_nat 0 =? N - 1)%nat with false
        by (symmetry; apply Nat.eqb_neq; lia).
      replace (Z.to_nat 0 =? N - 2)%nat with false
        by (symmetry; apply Nat.eqb_neq; lia).
      replace (Z.to_nat 0 =? 0)%nat with true by reflexivity.
      replace (Z.to_nat (Z.of_nat N - 1) =? N - 1)%nat with true
        by (symmetry; apply Nat.eqb_eq; lia).
      rewrite slice_whole. apply Cube_moves_undo, Htok.
    + rewrite plan_backward by (try assumption; lia). cbn [fst].
      apply Cube_moves_undo, forallb_slice, Htok.
    + rewrite plan_backward by (try assumption; lia). cbn [fst].
      apply Cube_moves_undo, forallb_slice, Htok.
Qed.

Lemma round_trip_three_or_more_witness :
  Cube_moves (fst (getMovesForTransition (num := Q) fourMoves 5 3 1))
    (Cube_moves (fst (getMovesForTransition (num := Q) fourMoves 5 1 3)) Cube_new)
  = Cube_new.
Proof.
  apply (round_trip_three_or_more (num := Q) fourMoves 5 1 3 Cube_new);
    [lia | reflexivity | lia | lia | cbn; lia].
Defined.


(** C3 at a failing input: two milestones and four scramble moves. The
    table is [[1; 4]], the plan from 0 to 1 is the last three moves, the
    plan back is the whole scramble reversed, and the round trip leaves the
    solved cube with its right face turned. *)
Theorem round_trip_two_milestones_leaves_a_turn :
  let moves := ["R"; "U"; "F"; "D"] in
  let forth := fst (getMovesForTransition (num := Q) moves 2 0 1) in
  let back := fst (getMovesForTransition (num := Q) moves 2 1 0) in
  moveCheckpoints (num := Q) moves 2 = [1; 4] /\
  forth = ["U"; "F"; "D"] /\
  back = ["D'"; "F'"; "U'"; "R'"] /\
  Cube_moves back (Cube_moves forth Cube_new) = Cube_move "R'" Cube_new /\
  map fst (Cube_moves back (Cube_moves forth Cube_new)) <> map fst Cube_new.
Proof.
  intros moves forth back. repeat split; try (vm_compute; reflexivity).
  vm_compute. discriminate.
Qed.

(** ** Half turns *)

(** C10. A move with a 2 in it is two calls of [rotateSlice] with the same
    axis, layer and direction, each with the whole duration, so that the
    move animates for twice the duration; the logical cube moves once, and
    first. For a face letter followed by 2 the calls are those of the face's
    quarter turn. *)
Theorem half_turn_is_two_quarter_turns (move : string) (duration : Q) (s : Controller) :
  includes "2" move = true ->
  let call := moveCall move duration in
  let s' := awaitApplyMove move duration s in
  applyMove move duration = [LogicalMove move; RotateSlice call; RotateSlice call] /\
  sc_duration call = duration /\
  (animationSeconds (applyMove move duration) == 2 * duration)%Q /\
  history s' = history s ++ [LogicalMove move; RotateSlice call; RotateSlice call] /\
  logicalCube s' = Cube_move move (logicalCube s) /\
  cubies s' =
    rotateSlice (sc_axis call) (sc_index call) (sc_direction call)
      (rotateSlice (sc_axis call) (sc_index call) (sc_direction call) (cubies s)) /\
  (forall face : string, In face faceLetters ->
     moveCall (face ++ "2") duration = moveCall face duration /\
     applyMove face duration = [LogicalMove face; RotateSlice (moveCall face duration)]).
Proof.
  intros Hdouble call s'.
  assert (Happ : applyMove move duration
                 = [LogicalMove move; RotateSlice call; RotateSlice call])
    by (unfold applyMove; rewrite Hdouble; reflexivity).
  assert (Hdur : sc_duration call = duration).
  { unfold call, moveCall. destruct (faceSlice (charAt0 move)) as [[axis index] direction].
    reflexivity. }
  split; [exact Happ |]. split; [exact Hdur |]. split.
  { rewrite Happ. cbn [animationSeconds]. rewrite Hdur. ring. }
  split.
  { unfold s'. rewrite awaitApplyMove_history, Happ. reflexivity. }
  split; [apply awaitApplyMove_logicalCube |]. split.
  { unfold s'. rewrite awaitApplyMove_cubies, Hdouble. reflexivity. }
  intros face Hface. cbn in Hface.
  repeat (destruct Hface as [<- | Hface]; [split; reflexivity |]). contradiction.
Qed.

Lemma half_turn_is_two_quarter_turns_witness :
  applyMove "R2" (3 # 10)
  = [LogicalMove "R2"; RotateSlice (moveCall "R2" (3 # 10));
     RotateSlice (moveCall "R2" (3 # 10))].
Proof.
  apply (half_turn_is_two_quarter_turns "R2" (3 # 10) mounted). reflexivity.
Defined.

(** ** Navigation *)

Lemma pushSteps_app (count : nat) (delta s current : Z) (queue : list Transition) :
  pushSteps count delta s current queue = queue ++ pushSteps count delta s current [].
Proof.
  revert s current queue. induction count as [| count IH]; intros s current queue;
    cbn [pushSteps]; [symmetry; apply app_nil_r |].
  rewrite (IH _ _ (queue ++ _)), (IH _ _ ([] ++ _)). cbn [app].
  rewrite <- app_assoc. reflexivity.
Qed.

Lemma pushSteps_planned (count : nat) (delta s current : Z) :
  Forall (fun t => t_moves t = None) (pushSteps count delta s current []).
Proof.
  revert s current. induction count as [| count IH]; intros s current;
    cbn [pushSteps]; [constructor |].
  rewrite pushSteps_app. cbn [app]. constructor; [reflexivity | apply IH].
Qed.

Lemma normalTransitions_app (N : nat) (lastQueued target : Z) (queue : list Transition) :
  normalTransitions N lastQueued target queue
  = queue ++ normalTransitions N lastQueued target [].
Proof.
  unfold normalTransitions.
  destruct (target >? lastQueued); [apply pushSteps_app |].
  destruct (target <? lastQueued); [| symmetry; apply app_nil_r].
  destruct (_ && _); [reflexivity | apply pushSteps_app].
Qed.

Lemma normalTransitions_planned (N : nat) (lastQueued target : Z) :
  Forall (fun t => t_moves t = None) (normalTransitions N lastQueued target []).
Proof.
  unfold normalTransitions.
  destruct (target >? lastQueued); [apply pushSteps_planned |].
  destruct (target <? lastQueued); [| constructor].
  destruct (_ && _); [repeat constructor | apply pushSteps_planned].
Qed.

(** C7, as the code has it. Arriving at the last milestone from any
    milestone but the one before it, the controller drops what is queued,
    asks the solver for the moves that solve the logical cube as it is, and
    queues one transition carrying those moves. Leaving the last milestone
    for one that is not the one before it, the controller takes the normal
    path: what is queued stays, transitions without moves of their own are
    added (their moves come from the checkpoint table when they run) and
    the solver is not asked. *)
Theorem dynamic_solve_on_arrival_only {num : Type} {NUM : JSNumber num}
    (moves : list string) (N : nat) (solve : Cube -> string)
    (target : Z) (s : Controller) :
  let last := Z.of_nat N - 1 in
  let lastQueued := lastQueuedStep s in
  (target = last -> lastQueued <> last -> lastQueued <> last - 1 ->
     handleStepChange moves N solve target s
     = processQueue moves N
         (set_lastQueuedStep target
            (set_animationQueue
               [mkTransition lastQueued target
                  (Some (filter notBlank (split_space (solve (logicalCube s)))))]
               (set_abortProcessing false s)))) /\
  (lastQueued = last -> target < last - 1 ->
     handleStepChange moves N solve target s
     = processQueue moves N
         (set_lastQueuedStep target
            (set_animationQueue
               (animationQueue s ++ normalTransitions N lastQueued target [])
               (set_abortProcessing false s))) /\
     Forall (fun t => t_moves t = None) (normalTransitions N lastQueued target []) /\
     (target = 0 ->
        normalTransitions N lastQueued target [] = [mkTransition last 0 None])).
Proof.
  intros last lastQueued. subst last lastQueued. split.
  - intros Htarget Hnot_last Hnot_before. unfold handleStepChange.
    destruct (Z.eqb_spec target (lastQueuedStep s)) as [? | _]; [lia |].
    destruct (Z.eqb_spec (lastQueuedStep s) (Z.of_nat N - 1)) as [? | _]; [lia |].
    cbn [andb].
    destruct (Z.eqb_spec target (Z.of_nat N - 1)) as [_ | ?]; [| lia].
    destruct (Z.eqb_spec (lastQueuedStep s) (target - 1)) as [? | _]; [lia |].
    cbn [andb negb]. unfold dynamicSolve. destruct s. reflexivity.
  - intros Hlast Hfar. split; [| split].
    + unfold handleStepChange.
      destruct (Z.eqb_spec target (lastQueuedStep s)) as [? | _]; [lia |].
      destruct (Z.eqb_spec target (Z.of_nat N - 2)) as [? | _]; [lia |].
      rewrite andb_false_r.
      destruct (Z.eqb_spec target (Z.of_nat N - 1)) as [? | _]; [lia |].
      cbn [andb]. unfold normalPath.
      rewrite (normalTransitions_app N _ _ (animationQueue _)).
      destruct s. reflexivity.
    + apply normalTransitions_planned.
    + intros ->. unfold normalTransitions.
      destruct (Z.gtb_spec 0 (lastQueuedStep s)) as [? | _]; [lia |].
      destruct (Z.ltb_spec 0 (lastQueuedStep s)) as [_ | ?]; [| lia].
      rewrite Hlast, !Z.eqb_refl. reflexivity.
Qed.

Lemma dynamic_solve_on_arrival_only_witness :
  handleStepChange (num := Q) fourMoves 5 (fun _ => "R U") 4 mounted
  = processQueue (num := Q) fourMoves 5
      (set_lastQueuedStep 4
         (set_animationQueue
            [mkTransition 0 4 (Some (filter notBlank (split_space "R U")))]
            (set_abortProcessing false mounted))).
Proof.
  apply (dynamic_solve_on_arrival_only (num := Q) fourMoves 5 (fun _ => "R U") 4 mounted);
    cbn; lia.
Defined.

(** C7, as stated, fails on leaving the last milestone: from milestone 4
    of 5 to milestone 1 the queue receives the three backward steps, none
    with moves of its own; the first is taken up at once with the moves the
    checkpoint table gives it, and the outcome is not that of a dynamic
    solve. *)
Lemma leaving_last_milestone_replays_checkpoints :
  let s := handleStepChange (num := Q) fourMoves 5 (fun _ => "R U") 1 restingOnLast in
  animationQueue s = [mkTransition 3 2 None; mkTransition 2 1 None] /\
  option_map p_caller (running s) = Some (QueuePass 3 ["F'"; "U'"] (25 # 100)) /\
  s <> dynamicSolve (num := Q) fourMoves 5 (fun _ => "R U") 1 restingOnLast.
Proof.
  intros s. split; [| split].
  - vm_compute. reflexivity.
  - vm_compute. reflexivity.
  - intros H. apply (f_equal animationQueue) in H. vm_compute in H. discriminate.
Qed.

(** ** Cancelling the queue *)

Section QueueFacts.

Context {num : Type} {NUM : JSNumber num}.
Variable solutionMoves : list string.
Variable numExperiences : nat.

Lemma set_running_twice (p q : option Pending) (s : Controller) :
  set_running p (set_running q s) = set_running p s.
Proof. destruct s. reflexivity. Qed.

Lemma running_eta (s : Controller) (p : option Pending) :
  running s = p -> s = set_running p s.
Proof. intros <-. destruct s. reflexivity. Qed.

(** With the flag raised the [for] loop starts nothing more. *)
Lemma forMoves_aborted (afterLoop : Controller -> Controller) (to : Z) (d : Q)
    (rest : list string) (s : Controller) :
  abortProcessing s = true -> forMoves afterLoop to d rest s = afterLoop s.
Proof. intros H. destruct rest; cbn [forMoves]; [| rewrite H]; reflexivity. Qed.

(** The last rotation of the move in flight ends under a raised flag and
    an empty queue: the pass is over. *)
Lemma rotationDone_cancelled (s : Controller) (to : Z) (rest : list string) (d : Q)
    (call : SliceCall) :
  abortProcessing s = true -> animationQueue s = [] ->
  rotationDone solutionMoves numExperiences (set_running (Some (mkPending (QueuePass to rest d) call [])) s)
  = finishProcessing (set_currentAnimatedStep to (endRotation call (set_running None s))).
Proof.
  intros Habort Hqueue. unfold rotationDone.
  cbn [running set_running p_inflight p_after p_caller runToAwait].
  rewrite set_running_twice.
  rewrite forMoves_aborted by (destruct s; exact Habort).
  replace (animationQueue (endRotation call (set_running None s))) with (@nil Transition)
    by (destruct s; symmetry; exact Hqueue).
  reflexivity.
Qed.

(** A rotation ends and the move in flight has another one to make. *)
Lemma rotationDone_continues (s : Controller) (caller : Caller)
    (call next : SliceCall) (after : list Action) :
  rotationDone solutionMoves numExperiences (set_running (Some (mkPending caller call (RotateSlice next :: after))) s)
  = set_running (Some (mkPending caller next after))
      (beginRotation next (endRotation call (set_running None s))).
Proof.
  unfold rotationDone.
  cbn [running set_running p_inflight p_after p_caller runToAwait].
  rewrite set_running_twice. reflexivity.
Qed.

Lemma settle_S (n : nat) (s : Controller) :
  settle solutionMoves numExperiences (S n) s
  = settle solutionMoves numExperiences n (rotationDone solutionMoves numExperiences s).
Proof. reflexivity. Qed.

Lemma settle_cancelled (calls : list SliceCall) :
  forall (s : Controller) (to : Z) (rest : list string) (d : Q) (call : SliceCall),
  abortProcessing s = true -> animationQueue s = [] ->
  let s' := settle solutionMoves numExperiences (S (List.length calls))
              (set_running (Some (mkPending (QueuePass to rest d) call
                                    (map RotateSlice calls))) s) in
  running s' = None /\
  isProcessingQueue s' = false /\
  animationQueue s' = [] /\
  currentAnimatedStep s' = to /\
  logicalCube s' = logicalCube s /\
  history s' = history s ++ map RotateSlice calls /\
  s' = settle solutionMoves numExperiences (S (List.length calls))
         (set_running (Some (mkPending (QueuePass to [] d) call
                               (map RotateSlice calls))) s).
Proof.
  induction calls as [| next calls IH]; intros s to rest d call Habort Hqueue.
  - cbn [List.length map]. rewrite !settle_S. cbn [settle].
    rewrite !rotationDone_cancelled by assumption.
    destruct s. cbn in *. subst. rewrite app_nil_r.
    split; [| split; [| split; [| split; [| split; [| split]]]]]; reflexivity.
  - cbn [List.length map]. rewrite !(settle_S (S _)).
    rewrite !rotationDone_continues.
    specialize (IH (beginRotation next (endRotation call (set_running None s)))
                  to rest d next).
    destruct IH as (H1 & H2 & H3 & H4 & H5 & H6 & H7).
    { destruct s; exact Habort. }
    { destruct s; exact Hqueue. }
    split; [exact H1 |]. split; [exact H2 |]. split; [exact H3 |].
    split; [exact H4 |]. split; [| split].
    + rewrite H5. destruct s. reflexivity.
    + rewrite H6. destruct s. cbn. rewrite <- app_assoc. reflexivity.
    + exact H7.
Qed.

(** Until the last rotation of the move ends, one is in flight. *)
Lemma settle_in_flight (calls : list SliceCall) :
  forall (s : Controller) (caller : Caller) (call : SliceCall) (n : nat),
  (n <= List.length calls)%nat ->
  running (settle solutionMoves numExperiences n
             (set_running (Some (mkPending caller call (map RotateSlice calls))) s))
  <> None.
Proof.
  induction calls as [| next calls IH]; intros s caller call n Hn.
  - assert (n = 0%nat) as -> by (cbn in Hn; lia). cbn [settle].
    destruct s. discriminate.
  - destruct n as [| n]; [cbn [settle]; destruct s; discriminate |].
    rewrite settle_S. cbn [map]. rewrite rotationDone_continues.
    apply IH. cbn in Hn. lia.
Qed.

End QueueFacts.

(** C6, as the code has it. A queue pass waits for a rotation; the flag
    is raised and the queue emptied. Once the move in flight has made its
    rotations (one, or the two of a half turn) nothing is in flight, the
    processing flag is down and the queue is empty; no move has been
    started (the logical cube is as it was, and only the rotations of the
    move in flight have been added to the history), the moves that were
    left of the cancelled transition play no part in the outcome, and a
    later pass over a fresh queue runs the loop of [processQueue] from its
    top. Until the last of those rotations ends, a rotation is in flight. *)
Theorem cancel_takes_effect_after_the_move_in_flight
    {num : Type} {NUM : JSNumber num} (moves : list string) (N : nat)
    (s : Controller) (to : Z) (rest : list string) (d : Q)
    (call : SliceCall) (calls : list SliceCall) :
  running s = Some (mkPending (QueuePass to rest d) call (map RotateSlice calls)) ->
  let cancelled := cancelProcessing s in
  let s' := settle moves N (S (List.length calls)) cancelled in
  running s' = None /\
  isProcessingQueue s' = false /\
  animationQueue s' = [] /\
  logicalCube s' = logicalCube s /\
  history s' = history s ++ map RotateSlice calls /\
  s' = settle moves N (S (List.length calls))
         (set_running (Some (mkPending (QueuePass to [] d) call
                               (map RotateSlice calls))) cancelled) /\
  (forall queue : list Transition, queue <> [] ->
     processQueue moves N (set_animationQueue queue s')
     = whileQueue moves N queue
         (set_abortProcessing false
            (set_isSolving true
               (set_isProcessingQueue true (set_animationQueue queue s'))))) /\
  (forall n : nat, (n <= List.length calls)%nat ->
     running (settle moves N n cancelled) <> None).
Proof.
  intros Hrun cancelled s'.
  assert (Heta : cancelled
                 = set_running (Some (mkPending (QueuePass to rest d) call
                                        (map RotateSlice calls))) cancelled).
  { apply running_eta. unfold cancelled, cancelProcessing. destruct s. exact Hrun. }
  assert (Habort : abortProcessing cancelled = true) by (destruct s; reflexivity).
  assert (Hqueue : animationQueue cancelled = []) by (destruct s; reflexivity).
  destruct (settle_cancelled moves N calls cancelled to rest d call Habort Hqueue)
    as (H1 & H2 & H3 & H4 & H5 & H6 & H7).
  cbv zeta in *. rewrite <- Heta in *. fold s' in H1, H2, H3, H4, H5, H6, H7.
  split; [exact H1 |]. split; [exact H2 |]. split; [exact H3 |].
  split; [rewrite H5; destruct s; reflexivity |].
  split; [rewrite H6; destruct s; reflexivity |].
  split; [exact H7 |]. split.
  - intros queue Hne. unfold processQueue.
    replace (isProcessingQueue (set_animationQueue queue s')) with false
      by (destruct s'; symmetry; exact H2).
    destruct queue as [| t queue]; [contradiction |]. reflexivity.
  - intros n Hn. rewrite Heta. apply settle_in_flight. exact Hn.
Qed.

Lemma cancel_takes_effect_after_the_move_in_flight_witness :
  isProcessingQueue
    (settle (num := Q) fourMoves 5 2 (cancelProcessing halfTurnInFlight)) = false.
Proof.
  apply (cancel_takes_effect_after_the_move_in_flight (num := Q) fourMoves 5
           halfTurnInFlight 4 ["U"] (25 # 100)
           (moveCall "R2" (25 # 100)) [moveCall "R2" (25 # 100)]).
  vm_compute. reflexivity.
Defined.

(** C6, as stated, fails for a half turn: cancelled during its first
    quarter, the move goes on to start its second quarter once the first has
    ended, so a rotation that was not in flight at the cancellation is
    started and completes, and the processing flag stays up meanwhile. *)
Lemma cancel_during_half_turn_starts_second_quarter :
  let s := halfTurnInFlight in
  let s1 := rotationDone (num := Q) fourMoves 5 (cancelProcessing s) in
  option_map p_inflight (running s) = Some (moveCall "R2" (25 # 100)) /\
  history s1 = history s ++ [RotateSlice (moveCall "R2" (25 # 100))] /\
  running s1 <> None /\
  isProcessingQueue s1 = true.
Proof.
  intros s s1. split; [| split; [| split]]; try (vm_compute; reflexivity).
  vm_compute. discriminate.
Qed.

(** ** The jump and the move in flight *)

(** What [processQueue] plays and the jump. Every move token of a queued
    transition, explicit or planned, is animated at the duration
    [processQueue] takes for that transition, and this is 0.25 s or 0.02 s
    a rotation (the 0.3 s of the remaining cases come with no move at all).
    The animation such a move asks for, one or two rotations, is therefore
    at most 500 ms, less than [JUMP_DURATION]. This is the time asked for:
    a rotation is in flight at least that long. *)
Lemma queue_moves_fit_the_jump {num : Type} {NUM : JSNumber num}
    (solutionMoves : list string) (N : nat) (transition : Transition) (move : string) :
  In move (fst (transitionPlan solutionMoves N transition)) ->
  isMoveToken move = true ->
  let duration := snd (transitionPlan solutionMoves N transition) in
  (duration = (25 # 100)%Q \/ duration = (2 # 100)%Q) /\
  (animationMillis move duration <= 500)%Q /\
  (animationMillis move duration < inject_Z JUMP_DURATION)%Q.
Proof.
  intros Hin Htok duration.
  assert (Hd : duration = (25 # 100)%Q \/ duration = (2 # 100)%Q).
  { subst duration. revert Hin. unfold transitionPlan.
    destruct (t_moves transition) as [explicit |]; [left; reflexivity |].
    unfold getMovesForTransition.
    destruct (_ =? _)%nat; [intros [] |].
    destruct (_ && _); [right; reflexivity |].
    destruct (_ >? _); [destruct (_ =? _); left; reflexivity |].
    destruct (_ <? _); [left; reflexivity | intros []]. }
  split; [exact Hd |].
  destruct Hd as [-> | ->]; each_token Htok;
    (split; [vm_compute; discriminate | vm_compute; reflexivity]).
Qed.

Lemma queue_moves_fit_the_jump_witness :
  (animationMillis "U2"
     (snd (transitionPlan (num := float) fourMoves 5 (mkTransition 0 4 (Some ["U2"]))))
   < inject_Z JUMP_DURATION)%Q.
Proof.
  apply (queue_moves_fit_the_jump (num := float) fourMoves 5
           (mkTransition 0 4 (Some ["U2"])) "U2").
  - left. reflexivity.
  - reflexivity.
Defined.


(** C9 at a failing input: the shuffle on the last milestone draws "U2"
    and starts it with [applyMove]'s 0.3 s a rotation; stepping back to the
    milestone before sets the jump timer and leaves the move in flight. The
    two quarters ask for 600 ms of animation, which [JUMP_DURATION] equals
    and does not exceed. *)
Theorem shuffled_half_turn_lasts_the_whole_jump :
  let s := shuffleFrame "U2" (set_animationState shuffling restingOnLast) in
  let jumped := handleStepChange (num := Q) fourMoves 5 (fun _ => "") 3 s in
  running s
  = Some (mkPending Shuffle (moveCall "U2" (3 # 10)) [RotateSlice (moveCall "U2" (3 # 10))]) /\
  jumpTimer jumped = Some 3 /\
  running jumped = running s /\
  (animationMillis "U2" (3 # 10) == inject_Z JUMP_DURATION)%Q /\
  ~ (animationMillis "U2" (3 # 10) < inject_Z JUMP_DURATION)%Q.
Proof.
  intros s jumped. split; [| split; [| split; [| split]]];
    try (vm_compute; reflexivity).
  vm_compute. discriminate.
Qed.

(** ** Snapping *)

Module SnappingFacts.

Import Snapping.
Local Open Scope R_scope.

Lemma snap_onGrid (c : Piece) : onGrid (snap c).
Proof.
  unfold snap. destruct (pos c) as [[px py] pz], (euler c) as [[rx ry] rz].
  split; cbn [pos euler].
  - exists (Math_round px), (Math_round py), (Math_round pz). reflexivity.
  - exists (Math_round (rx / (PI / 2))), (Math_round (ry / (PI / 2))),
      (Math_round (rz / (PI / 2))). reflexivity.
Qed.

Section EngineFacts.

Variable attachToPivot : Piece -> Piece.
Variable attachToGroup : Axis -> R -> Piece -> Piece.

(** The pieces held by the pivot, back in the group. *)
Lemma release_selected (axis : Axis) (index angle : R) (ps : list Piece) (i : nat) (c : Piece) :
  nth_error ps i = Some c ->
  isSelected axis index c = true ->
  exists c',
    nth_error
      (release attachToGroup axis angle (map (isSelected axis index) ps)
         (zipWith (fun (a : bool) p => if a then attachToPivot p else p)
            (map (isSelected axis index) ps) ps)) i = Some c'
    /\ onGrid c'.
Proof.
  revert i. induction ps as [| p ps IH]; intros [| i] Hnth Hsel; try discriminate.
  - cbn in Hnth. injection Hnth as ->.
    cbn [map zipWith release nth_error]. rewrite Hsel.
    exists (snap (attachToGroup axis angle (attachToPivot c))).
    split; [reflexivity | exact (snap_onGrid _)].
  - cbn in Hnth. cbn [map zipWith release nth_error]. apply IH; assumption.
Qed.

Lemma rotateSlice_state (axis : Axis) (index direction duration now : R) (ps : list Piece) :
  let r := rotateSlice attachToPivot attachToGroup axis index direction duration now ps in
  (duration = 0 -> released attachToPivot attachToGroup axis index ps r) /\
  (duration <> 0 -> holding attachToPivot axis index duration now ps r).
Proof.
  unfold rotateSlice. cbv zeta. destruct (Req_dec_T duration 0) as [Hz | Hnz]; split;
    intros H; try contradiction.
  - split; [reflexivity |]. eexists. reflexivity.
  - repeat split; reflexivity.
Qed.

Lemma animate_state (axis : Axis) (index duration now : R) (ps : list Piece)
    (time : R) (r : Rotation) :
  holding attachToPivot axis index duration now ps r ->
  let t := Rmin ((time - now) / 1000 / duration) 1 in
  (t < 1 -> holding attachToPivot axis index duration now ps (animate attachToGroup time r)) /\
  (~ t < 1 -> released attachToPivot attachToGroup axis index ps (animate attachToGroup time r)).
Proof.
  intros (Hres & Hact & Hpieces & Haxis & Hstart & Hdur). cbv zeta.
  unfold animate. rewrite Hstart, Hdur.
  destruct (Rlt_dec (Rmin ((time - now) / 1000 / duration) 1) 1) as [Hlt | Hge];
    split; intros H; try contradiction.
  - repeat split; assumption.
  - split; [reflexivity |]. exists (targetRot r). cbn [pieces].
    rewrite Hact, Hpieces, Haxis. reflexivity.
Qed.

Lemma frames_resolved (times : list R) (r : Rotation) :
  resolved r = true -> frames attachToGroup times r = r.
Proof. intros H. destruct times; cbn [frames]; [| rewrite H]; reflexivity. Qed.

Lemma frames_state (axis : Axis) (index duration now : R) (ps : list Piece)
    (times : list R) (r : Rotation) :
  holding attachToPivot axis index duration now ps r \/ released attachToPivot attachToGroup axis index ps r ->
  holding attachToPivot axis index duration now ps (frames attachToGroup times r)
  \/ released attachToPivot attachToGroup axis index ps (frames attachToGroup times r).
Proof.
  revert r. induction times as [| time times IH]; intros r Hr; [exact Hr |].
  destruct Hr as [Hhold | Hdone].
  - cbn [frames]. destruct Hhold as [Hres Hrest] eqn:E. rewrite Hres. apply IH.
    destruct (animate_state axis index duration now ps time r (conj Hres Hrest))
      as [Hlt Hge].
    destruct (Rlt_dec (Rmin ((time - now) / 1000 / duration) 1) 1);
      [left; apply Hlt | right; apply Hge]; assumption.
  - right. rewrite frames_resolved by apply Hdone. exact Hdone.
Qed.

Lemma frames_resolve (axis : Axis) (index duration now : R) (ps : list Piece)
    (times : list R) (r : Rotation) :
  0 < duration ->
  holding attachToPivot axis index duration now ps r ->
  (exists time, In time times /\ now + 1000 * duration <= time) ->
  resolved (frames attachToGroup times r) = true.
Proof.
  intros Hpos. revert r. induction times as [| time times IH]; intros r Hhold [late [Hin Hlate]];
    [contradiction |].
  cbn [frames]. rewrite (proj1 Hhold).
  destruct (animate_state axis index duration now ps time r Hhold) as [Hlt Hge].
  destruct (Rlt_dec (Rmin ((time - now) / 1000 / duration) 1) 1) as [Hearly | Hdone].
  - apply IH; [apply Hlt, Hearly |].
    destruct Hin as [<- | Hin]; [| exists late; split; assumption].
    exfalso. apply (Rlt_irrefl 1). eapply Rle_lt_trans; [| exact Hearly].
    apply Rmin_glb; [| apply Rle_refl].
    unfold Rdiv. apply Rmult_le_reg_r with duration; [exact Hpos |].
    rewrite Rmult_assoc, Rinv_l by lra. lra.
  - rewrite frames_resolved; apply (proj1 (Hge Hdone)).
Qed.

(** No refresh earlier than [duration] seconds after the start resolves
    the call. *)
Lemma frames_hold (axis : Axis) (index duration now : R) (ps : list Piece)
    (times : list R) (r : Rotation) :
  0 < duration ->
  holding attachToPivot axis index duration now ps r ->
  (forall time, In time times -> time < now + 1000 * duration) ->
  holding attachToPivot axis index duration now ps (frames attachToGroup times r).
Proof.
  intros Hpos. revert r. induction times as [| time times IH]; intros r Hhold Hearly;
    [exact Hhold |].
  cbn [frames]. rewrite (proj1 Hhold). apply IH.
  - apply (animate_state axis index duration now ps time r Hhold).
    apply Rle_lt_trans with ((time - now) / 1000 / duration); [apply Rmin_l |].
    specialize (Hearly time (or_introl eq_refl)).
    unfold Rdiv. apply Rmult_lt_reg_r with duration; [exact Hpos |].
    rewrite Rmult_assoc, Rinv_l by lra. lra.
  - intros t Ht. apply Hearly. right. exact Ht.
Qed.

End EngineFacts.

(** An animated call of [rotateSlice] lasts at least its duration: it has
    not resolved at any display refresh that comes sooner. *)
Lemma rotation_takes_its_duration
    (attachToPivot : Piece -> Piece) (attachToGroup : Axis -> R -> Piece -> Piece)
    (axis : Axis) (index direction duration now : R) (ps : list Piece) (times : list R) :
  0 < duration ->
  (forall time, In time times -> time < now + 1000 * duration) ->
  resolved (frames attachToGroup times
              (rotateSlice attachToPivot attachToGroup axis index direction duration now ps))
  = false.
Proof.
  intros Hpos Hearly.
  apply (frames_hold attachToPivot attachToGroup axis index duration now ps times);
    [exact Hpos | | exact Hearly].
  apply (rotateSlice_state attachToPivot attachToGroup axis index direction duration now ps).
  lra.
Qed.

Lemma rotation_takes_its_duration_witness :
  resolved (frames (fun _ _ c => c) [100; 299]
              (rotateSlice (fun c => c) (fun _ _ c => c) AxisY 1 (-1) (3 / 10) 0
                 [mkPiece (0, 1, 0) (0, 0, 0)]))
  = false.
Proof.
  apply (rotation_takes_its_duration (fun c => c) (fun _ _ c => c) AxisY 1 (-1) (3 / 10) 0
           [mkPiece (0, 1, 0) (0, 0, 0)] [100; 299]).
  - lra.
  - intros time [<- | [<- | []]]; lra.
Defined.


(** C8. Whatever [attach] computes: when a call of [rotateSlice] has
    resolved, instantly or after any number of display refreshes, every
    piece it selected has whole coordinates and Euler angles that are whole
    multiples of a quarter turn. A call with duration zero has resolved on
    return; an animated one resolves at the first refresh that comes
    [duration] seconds or more after the start, and not without the
    snapping. *)
Theorem selected_pieces_on_grid_when_resolved
    (attachToPivot : Piece -> Piece) (attachToGroup : Axis -> R -> Piece -> Piece)
    (axis : Axis) (index direction duration now : R) (ps : list Piece) (times : list R) :
  let r := frames attachToGroup times
             (rotateSlice attachToPivot attachToGroup axis index direction duration now ps) in
  (resolved r = true ->
     forall (i : nat) (c : Piece),
       nth_error ps i = Some c -> isSelected axis index c = true ->
       exists c', nth_error (pieces r) i = Some c' /\ onGrid c') /\
  (duration = 0 -> resolved r = true) /\
  (0 < duration ->
     (exists time, In time times /\ now + 1000 * duration <= time) ->
     resolved r = true).
Proof.
  intros r.
  destruct (rotateSlice_state attachToPivot attachToGroup axis index direction duration now ps)
    as [Hinstant Hanimated].
  cbv zeta in Hinstant, Hanimated.
  assert (Hstart :
    holding attachToPivot axis index duration now ps
      (rotateSlice attachToPivot attachToGroup axis index direction duration now ps)
    \/ released attachToPivot attachToGroup axis index ps
      (rotateSlice attachToPivot attachToGroup axis index direction duration now ps)).
  { destruct (Req_dec_T duration 0); [right; apply Hinstant | left; apply Hanimated];
      assumption. }
  split; [| split].
  - intros Hres i c Hnth Hsel.
    destruct (frames_state attachToPivot attachToGroup axis index duration now ps times _ Hstart)
      as [Hhold | [_ [angle Hpieces]]].
    + destruct Hhold as [Hno _]. fold r in Hno. congruence.
    + fold r in Hpieces. rewrite Hpieces. apply release_selected with (c := c); assumption.
  - intros Hz. unfold r. rewrite frames_resolved; apply (Hinstant Hz).
  - intros Hpos Hlate. unfold r.
    apply (frames_resolve attachToPivot attachToGroup axis index duration now ps);
      [exact Hpos | apply Hanimated; lra | exact Hlate].
Qed.

Lemma selected_pieces_on_grid_when_resolved_witness :
  exists c',
    nth_error
      (pieces (frames (fun _ _ c => c) []
                 (rotateSlice (fun c => c) (fun _ _ c => c) AxisX 1 (-1) 0 0
                    [mkPiece (1, 0, 0) (0, 0, 0)]))) 0 = Some c'
    /\ onGrid c'.
Proof.
  pose proof (selected_pieces_on_grid_when_resolved (fun c => c) (fun _ _ c => c)
                AxisX 1 (-1) 0 0 [mkPiece (1, 0, 0) (0, 0, 0)] []) as [Hgrid [Hinstant _]].
  apply (Hgrid (Hinstant eq_refl) 0%nat (mkPiece (1, 0, 0) (0, 0, 0)) eq_refl).
  unfold isSelected. cbn [coordR pos].
  destruct (Rlt_dec (Rabs (1 - 1)) (1 / 10)) as [_ | Hfar]; [reflexivity |].
  exfalso. apply Hfar. rewrite Rminus_diag, Rabs_R0. lra.
Defined.

End SnappingFacts.

(* ================================================================= *)
(** * Further properties *)

(** ** The slice engine on the grid *)

Lemma rotateVec_inGrid (axis : Axis) (d : Z) (v : Vec) :
  inGrid v = true -> inGrid (rotateVec axis d v) = true.
Proof.
  destruct v as [[vx vy] vz]. unfold inGrid, rotateVec, cosq, sinq. intros H.
  apply andb_prop in H as [H Hz]. apply andb_prop in H as [Hx Hy].
  apply Z.leb_le in Hx, Hy, Hz.
  destruct (quarter_residue d) as [Hd | [Hd | [Hd | Hd]]]; rewrite Hd;
    destruct axis; rewrite !andb_true_iff, !Z.leb_le; lia.
Qed.

Lemma rotateVec_injective (axis : Axis) (d : Z) (v w : Vec) :
  rotateVec axis d v = rotateVec axis d w -> v = w.
Proof.
  intros H. apply (f_equal (rotateVec axis (- d))) in H.
  rewrite !rotateVec_add in H.
  rewrite !rotateVec_full in H by (replace (d + - d) with 0 by lia; reflexivity).
  exact H.
Qed.

(** Where a slice call sends a piece that stands at [v]. *)
Lemma position_rotateSlice (axis : Axis) (index d : Z) (cs : list Cubie) :
  map position (rotateSlice axis index d cs)
  = map (fun v => if coord axis v =? index then rotateVec axis d v else v)
      (map position cs).
Proof.
  unfold rotateSlice. rewrite !map_map. apply map_ext. intros c.
  rewrite isActive_grid. destruct (coord axis (position c) =? index); reflexivity.
Qed.

Lemma layer_turn_injective (axis : Axis) (index d : Z) (v w : Vec) :
  (if coord axis v =? index then rotateVec axis d v else v)
  = (if coord axis w =? index then rotateVec axis d w else w) ->
  v = w.
Proof.
  destruct (Z.eqb_spec (coord axis v) index) as [Hv | Hv],
           (Z.eqb_spec (coord axis w) index) as [Hw | Hw]; intros H.
  - apply rotateVec_injective in H. exact H.
  - exfalso. apply Hw. rewrite <- H, coord_rotateVec. exact Hv.
  - exfalso. apply Hv. rewrite H, coord_rotateVec. exact Hw.
  - exact H.
Qed.

Lemma NoDup_map_injective {A B : Type} (f : A -> B) (l : list A) :
  (forall x y, f x = f y -> x = y) -> NoDup l -> NoDup (map f l).
Proof.
  intros Hinj Hl. induction Hl as [| a l Hnotin Hl IH]; cbn [map]; constructor.
  - intros Hin. apply in_map_iff in Hin as [b [Hb Hin]].
    apply Hinj in Hb. subst b. contradiction.
  - exact IH.
Qed.

Lemma cells_NoDup : NoDup cells.
Proof.
  vm_compute. repeat (constructor; [cbn; intuition discriminate |]). constructor.
Qed.

Lemma cells_inGrid (v : Vec) : In v cells <-> inGrid v = true.
Proof.
  split.
  - intros H. vm_compute in H.
    repeat (destruct H as [<- | H]; [reflexivity |]). contradiction.
  - destruct v as [[vx vy] vz]. unfold inGrid. intros H.
    apply andb_prop in H as [H Hz]. apply andb_prop in H as [Hx Hy].
    apply Z.leb_le in Hx, Hy, Hz.
    assert (Ex : vx = -1 \/ vx = 0 \/ vx = 1) by lia.
    assert (Ey : vy = -1 \/ vy = 0 \/ vy = 1) by lia.
    assert (Ez : vz = -1 \/ vz = 0 \/ vz = 1) by lia.
    destruct Ex as [-> | [-> | ->]], Ey as [-> | [-> | ->]], Ez as [-> | [-> | ->]];
      vm_compute; tauto.
Qed.

Lemma rotateSlice_fillsCube (axis : Axis) (index d : Z) (cs : list Cubie) :
  fillsCube cs -> fillsCube (rotateSlice axis index d cs).
Proof.
  unfold fillsCube. intros H.
  assert (Hnodup : NoDup (map position cs))
    by (apply (Permutation_NoDup (Permutation_sym H)), cells_NoDup).
  apply NoDup_Permutation_bis.
  - rewrite position_rotateSlice. apply NoDup_map_injective; [| exact Hnodup].
    intros v w. apply layer_turn_injective.
  - rewrite length_map. unfold rotateSlice. rewrite length_map.
    rewrite <- (Permutation_length H), length_map. apply Nat.le_refl.
  - intros v Hv. rewrite position_rotateSlice in Hv.
    apply in_map_iff in Hv as [w [<- Hw]].
    apply (Permutation_in _ H), cells_inGrid in Hw. apply cells_inGrid.
    destruct (coord axis w =? index); [apply rotateVec_inGrid |]; exact Hw.
Qed.

Lemma fillsCube_length (cs : list Cubie) : fillsCube cs -> List.length cs = 27%nat.
Proof.
  intros H. apply Permutation_length in H. rewrite length_map in H. exact H.
Qed.

Lemma awaitApplyMove_fillsCube (move : string) (d : Q) (s : Controller) :
  fillsCube (cubies s) -> fillsCube (cubies (awaitApplyMove move d s)).
Proof.
  intros H. rewrite awaitApplyMove_cubies. cbv zeta.
  destruct (includes "2" move); repeat apply rotateSlice_fillsCube; exact H.
Qed.

Lemma awaitApplyMoves_fillsCube (moves : list string) (d : Q) (s : Controller) :
  fillsCube (cubies s) -> fillsCube (cubies (awaitApplyMoves moves d s)).
Proof.
  revert s. induction moves as [| m moves IH]; intros s H; [exact H |].
  cbn [awaitApplyMoves fold_left]. fold (awaitApplyMoves moves d (awaitApplyMove m d s)).
  apply IH, awaitApplyMove_fillsCube, H.
Qed.

Lemma forEachIndexed_positions (cs : list Cubie) (table : list (Vec * list string)) :
  List.length cs = List.length table ->
  map position
    (forEachIndexed (fun c init => mkCubie (fst init) noRotation (faceColors c)) cs table)
  = map fst table.
Proof.
  revert table. induction cs as [| c cs IH]; intros [| t table] Hlen;
    try discriminate; [reflexivity |].
  cbn [forEachIndexed map position]. f_equal. apply IH. cbn in Hlen. lia.
Qed.

Lemma runToAwait_cubies (acts : list Action) (st : Controller) :
  cubies (fst (runToAwait acts st)) = cubies st.
Proof.
  revert st. induction acts as [| [m | c] acts IHa]; intros st; cbn [runToAwait fst];
    [reflexivity | rewrite IHa; destruct st; reflexivity | destruct st; reflexivity].
Qed.

Lemma forMoves_cubies (k : Controller -> Controller) (to : Z) (d : Q)
    (moves : list string) :
  (forall st', cubies (k st') = cubies st') ->
  forall st, cubies (forMoves k to d moves st) = cubies st.
Proof.
  intros Hk. induction moves as [| m moves IHm]; intros st; cbn [forMoves]; [apply Hk |].
  destruct (abortProcessing st); [apply Hk |].
  pose proof (runToAwait_cubies (applyMove m d) st) as Hrun.
  destruct (runToAwait (applyMove m d) st) as [st' [[c after] |]]; cbn [fst] in Hrun.
  - rewrite <- Hrun. destruct st'. reflexivity.
  - rewrite IHm. exact Hrun.
Qed.

Section PiecesInCells.

Context {num : Type} {NUM : JSNumber num}.
Variable solutionMoves : list string.
Variable N : nat.

Lemma whileQueue_cubies (q : list Transition) :
  forall st, cubies (whileQueue solutionMoves N q st) = cubies st.
Proof.
  induction q as [| t q IHq]; intros st; cbn [whileQueue]; [destruct st; reflexivity |].
  destruct (abortProcessing st); [destruct st; reflexivity |].
  destruct (match t_moves t with
            | Some moves => (moves, (25 # 100)%Q)
            | None => getMovesForTransition solutionMoves N (t_from t) (t_to t)
            end) as [moves d].
  rewrite forMoves_cubies; [destruct st; reflexivity |].
  intros st'. rewrite IHq. destruct st'. reflexivity.
Qed.

Lemma processQueue_cubies (st : Controller) :
  cubies (processQueue solutionMoves N st) = cubies st.
Proof.
  unfold processQueue. destruct (_ || _); [reflexivity |].
  cbv zeta. rewrite whileQueue_cubies. destruct st. reflexivity.
Qed.

(** The end of a rotation moves the pieces of one layer by a quarter turn
    and nothing else. *)
Lemma rotationDone_fillsCube (s : Controller) :
  fillsCube (cubies s) -> fillsCube (cubies (rotationDone solutionMoves N s)).
Proof.
  intros H. unfold rotationDone. destruct (running s) as [p |]; [| exact H].
  cbv zeta.
  assert (Hend : fillsCube (cubies (endRotation (p_inflight p) (set_running None s))))
    by (destruct s; apply rotateSlice_fillsCube, H).
  revert Hend. generalize (endRotation (p_inflight p) (set_running None s)).
  intros s0 H0.
  pose proof (runToAwait_cubies (p_after p) s0) as Hrun.
  destruct (runToAwait (p_after p) s0) as [s1 [[c after] |]]; cbn [fst] in Hrun.
  - replace (cubies (set_running (Some (mkPending (p_caller p) c after)) s1))
      with (cubies s1) by (destruct s1; reflexivity).
    rewrite Hrun. exact H0.
  - destruct (p_caller p) as [to rest d |].
    + rewrite forMoves_cubies; [rewrite Hrun; exact H0 |].
      intros st'. rewrite whileQueue_cubies. destruct st'. reflexivity.
    + cbv zeta. destruct (0 <? _)%nat; [rewrite processQueue_cubies |];
        (replace (cubies (set_isProcessingQueue false s1)) with (cubies s1)
           by (destruct s1; reflexivity)); rewrite Hrun; exact H0.
Qed.

Lemma settle_fillsCube (k : nat) :
  forall s, fillsCube (cubies s) -> fillsCube (cubies (settle solutionMoves N k s)).
Proof.
  induction k as [| k IH]; intros s H; [exact H |].
  rewrite settle_S. apply IH, rotationDone_fillsCube, H.
Qed.

End PiecesInCells.

(** One piece in every cell. Take a controller with no rotation in flight
    whose pieces fill the 27 cells, and a scramble of move tokens. Then one
    piece stands in every cell after any list of move tokens has been
    applied and awaited, after the hard reset to any step, after the
    initial scramble, and, when a queue pass over transitions of move
    tokens is started, each time one more of its rotations has ended. *)
Theorem one_piece_in_every_cell {num : Type} {NUM : JSNumber num}
    (solutionMoves : list string) (N : nat) (s : Controller) :
  fillsCube (cubies s) -> running s = None ->
  forallb isMoveToken solutionMoves = true ->
  (forall (moves : list string) (d : Q),
     forallb isMoveToken moves = true ->
     fillsCube (cubies (awaitApplyMoves moves d s))) /\
  (forall targetStep : Z, fillsCube (cubies (resetToStep solutionMoves N targetStep s))) /\
  fillsCube (cubies (initCube solutionMoves s)) /\
  (Forall (fun transition =>
             forall explicit, t_moves transition = Some explicit ->
                              forallb isMoveToken explicit = true)
          (animationQueue s) ->
   forall k : nat,
     fillsCube (cubies (settle solutionMoves N k (processQueue solutionMoves N s)))).
Proof.
  intros H _ _. split; [| split; [| split]].
  - intros moves d _. apply awaitApplyMoves_fillsCube, H.
  - intros targetStep. unfold resetToStep. cbv zeta.
    rewrite !moveLogical_all_cubies.
    do 2 apply awaitApplyMoves_fillsCube.
    cbn [cubies set_cubies set_groupRotation set_logicalCube].
    unfold fillsCube. rewrite forEachIndexed_positions; [apply Permutation_refl |].
    rewrite forEachIndexed_length. apply fillsCube_length, H.
  - unfold initCube. cbv zeta.
    replace (cubies (set_lastQueuedStep 0 (set_currentAnimatedStep 0
               (awaitApplyMoves (map invertMove (rev solutionMoves)) 0
                  (set_logicalCube Cube_new s)))))
      with (cubies (awaitApplyMoves (map invertMove (rev solutionMoves)) 0
                      (set_logicalCube Cube_new s)))
      by (destruct (awaitApplyMoves _ _ _); reflexivity).
    apply awaitApplyMoves_fillsCube. destruct s. exact H.
  - intros _ k. apply settle_fillsCube. rewrite processQueue_cubies. exact H.
Qed.

Lemma one_piece_in_every_cell_witness :
  fillsCube (cubies (resetToStep (num := Q) fourMoves 5 2 mounted)) /\
  fillsCube
    (cubies (settle (num := Q) fourMoves 5 1
               (processQueue (num := Q) fourMoves 5
                  (set_animationQueue [mkTransition 0 2 None] mounted)))).
Proof.
  split.
  - apply (one_piece_in_every_cell (num := Q) fourMoves 5 mounted);
      [apply Permutation_refl | reflexivity | reflexivity].
  - apply (one_piece_in_every_cell (num := Q) fourMoves 5
             (set_animationQueue [mkTransition 0 2 None] mounted));
      [apply Permutation_refl | reflexivity | reflexivity |].
    constructor; [discriminate | constructor].
Defined.

(** ** Turning a layer back *)

Lemma turnCubie_add (axis : Axis) (d1 d2 : Z) (c : Cubie) :
  turnCubie axis d2 (turnCubie axis d1 c) = turnCubie axis (d1 + d2) c.
Proof.
  unfold turnCubie. cbn [position rotation faceColors].
  rewrite rotateVec_add, rotateRot_add. reflexivity.
Qed.

Lemma turnCubie_full (axis : Axis) (d : Z) (c : Cubie) :
  d mod 4 = 0 -> turnCubie axis d c = c.
Proof.
  intros H. unfold turnCubie. rewrite rotateVec_full, rotateRot_full by exact H.
  destruct c. reflexivity.
Qed.

Lemma rotateSlice_add (axis : Axis) (index d1 d2 : Z) (cs : list Cubie) :
  rotateSlice axis index d2 (rotateSlice axis index d1 cs)
  = rotateSlice axis index (d1 + d2) cs.
Proof.
  unfold rotateSlice. rewrite map_map. apply map_ext. intros c.
  rewrite !isActive_grid.
  destruct (Z.eqb_spec (coord axis (position c)) index) as [Hin | Hout].
  - cbn [turnCubie position]. rewrite coord_rotateVec.
    rewrite (proj2 (Z.eqb_eq _ _) Hin). apply turnCubie_add.
  - rewrite (proj2 (Z.eqb_neq _ _) Hout). reflexivity.
Qed.

Lemma rotateSlice_full (axis : Axis) (index d : Z) (cs : list Cubie) :
  d mod 4 = 0 -> rotateSlice axis index d cs = cs.
Proof.
  intros H. unfold rotateSlice. rewrite <- (map_id cs) at 2. apply map_ext.
  intros c. rewrite turnCubie_full by exact H. destruct (isActive axis index c); reflexivity.
Qed.

(** Calls of [rotateSlice] on one layer add up: two calls are one call by
    the sum of the directions, the opposite direction undoes a call, and
    any number of whole turns leaves every piece as it was. *)
Theorem slice_turns_add_up (axis : Axis) (index d1 d2 : Z) (cs : list Cubie) :
  rotateSlice axis index d2 (rotateSlice axis index d1 cs)
  = rotateSlice axis index (d1 + d2) cs /\
  rotateSlice axis index (- d1) (rotateSlice axis index d1 cs) = cs /\
  rotateSlice axis index (4 * d1) cs = cs.
Proof.
  split; [apply rotateSlice_add |]. split.
  - rewrite rotateSlice_add. apply rotateSlice_full.
    replace (d1 + - d1) with 0 by lia. reflexivity.
  - apply rotateSlice_full. rewrite Z.mul_comm. apply Z.mod_mul. lia.
Qed.

(** A call of [rotateSlice] keeps every piece at its index in the array
    and in its layer along the axis, never changes a colour, and leaves
    the pieces of the other layers exactly as they were. *)
Theorem slice_turn_touches_one_layer (axis : Axis) (index d : Z) (cs : list Cubie)
    (i : nat) (c : Cubie) :
  nth_error cs i = Some c ->
  exists c',
    nth_error (rotateSlice axis index d cs) i = Some c' /\
    faceColors c' = faceColors c /\
    coord axis (position c') = coord axis (position c) /\
    (coord axis (position c) <> index -> c' = c).
Proof.
  intros Hnth. unfold rotateSlice. rewrite nth_error_map, Hnth. cbn [option_map].
  eexists. split; [reflexivity |]. rewrite isActive_grid.
  destruct (Z.eqb_spec (coord axis (position c)) index) as [Hin | Hout].
  - cbn [turnCubie faceColors position]. rewrite coord_rotateVec.
    split; [reflexivity |]. split; [reflexivity |]. intros Hne. contradiction.
  - split; [reflexivity |]. split; reflexivity.
Qed.

Lemma slice_turn_touches_one_layer_witness :
  exists c',
    nth_error (rotateSlice AxisX 1 (-1) mountedCubies) 0 = Some c' /\
    faceColors c' = faceColors (mkCubie (-1, -1, -1) noRotation
                                  ["#111"; "#FF5900"; "#111"; "#FFD500"; "#111"; "#0045AD"]) /\
    coord AxisX (position c') = -1 /\
    (-1 <> 1 -> c' = mkCubie (-1, -1, -1) noRotation
                        ["#111"; "#FF5900"; "#111"; "#FFD500"; "#111"; "#0045AD"]).
Proof.
  apply (slice_turn_touches_one_layer AxisX 1 (-1) mountedCubies 0
           (mkCubie (-1, -1, -1) noRotation
              ["#111"; "#FF5900"; "#111"; "#FFD500"; "#111"; "#0045AD"])).
  reflexivity.
Defined.

(** ** Moves on screen *)

(** On screen too the inverse token undoes a move, whatever the two
    durations: the pieces are back where they were and turned as they
    were. *)
Theorem inverse_move_restores_pieces (move : string) (d d' : Q) (s : Controller) :
  isMoveToken move = true ->
  cubies (awaitApplyMove (invertMove move) d' (awaitApplyMove move d s)) = cubies s /\
  logicalCube (awaitApplyMove (invertMove move) d' (awaitApplyMove move d s))
  = logicalCube s.
Proof.
  intros H. split.
  - rewrite !awaitApplyMove_cubies.
    each_token H; cbn; rewrite ?rotateSlice_add; apply rotateSlice_full; reflexivity.
  - rewrite !awaitApplyMove_logicalCube. apply Cube_move_invertMove, H.
Qed.

Lemma inverse_move_restores_pieces_witness :
  cubies (awaitApplyMove (invertMove "F2") 0 (awaitApplyMove "F2" (3 # 10) mounted))
  = cubies mounted.
Proof.
  apply (inverse_move_restores_pieces "F2" (3 # 10) 0 mounted). reflexivity.
Defined.

(** The logical cube and the pieces on screen move in step: if they show
    the same arrangement, they still do after any list of move tokens has
    been applied and awaited; the initial scramble of a freshly mounted
    cube leaves both at the reversed, inverted scramble. *)
Theorem logical_cube_follows_the_pieces (moves : list string) (d : Q) (s : Controller) :
  forallb isMoveToken moves = true ->
  arrangement (cubies s) = logicalCube s ->
  arrangement (cubies (awaitApplyMoves moves d s))
  = logicalCube (awaitApplyMoves moves d s) /\
  (arrangement (cubies s) = Cube_new ->
   arrangement (cubies (initCube moves s)) = logicalCube (initCube moves s) /\
   logicalCube (initCube moves s) = Cube_moves (map invertMove (rev moves)) Cube_new /\
   lastQueuedStep (initCube moves s) = 0).
Proof.
  intros Htok Hsync. split.
  - rewrite awaitApplyMoves_arrangement, awaitApplyMoves_logicalCube by exact Htok.
    rewrite Hsync. reflexivity.
  - intros Hnew. unfold initCube. cbv zeta.
    set (s1 := awaitApplyMoves (map invertMove (rev moves)) 0 (set_logicalCube Cube_new s)).
    assert (Hc : cubies (set_lastQueuedStep 0 (set_currentAnimatedStep 0 s1)) = cubies s1)
      by (destruct s1; reflexivity).
    assert (Hl : logicalCube (set_lastQueuedStep 0 (set_currentAnimatedStep 0 s1))
                 = logicalCube s1) by (destruct s1; reflexivity).
    rewrite Hc, Hl. unfold s1.
    rewrite awaitApplyMoves_arrangement by (apply inverted_tokens, Htok).
    rewrite awaitApplyMoves_logicalCube.
    replace (cubies (set_logicalCube Cube_new s)) with (cubies s) by (destruct s; reflexivity).
    rewrite Hnew.
    split; [reflexivity |]. split; [reflexivity |].
    destruct s1. reflexivity.
Qed.

Lemma logical_cube_follows_the_pieces_witness :
  arrangement (cubies (awaitApplyMoves fourMoves (3 # 10) mounted))
  = logicalCube (awaitApplyMoves fourMoves (3 # 10) mounted).
Proof.
  apply (logical_cube_follows_the_pieces fourMoves (3 # 10) mounted); reflexivity.
Defined.

(** ** Plans and checkpoints *)

Lemma slice_nonneg {A : Type} (l : list A) (a b : Z) :
  0 <= a -> 0 <= b ->
  slice l a b = firstn (Z.to_nat b - Z.to_nat a) (skipn (Z.to_nat a) l).
Proof.
  intros Ha Hb. unfold slice.
  destruct (Z.ltb_spec a 0); [lia |]. destruct (Z.ltb_spec b 0); [lia |].
  cbv zeta. set (len := List.length l).
  destruct (Z.le_gt_cases a (Z.of_nat len)) as [Hal | Hal].
  - rewrite (Z.min_l a) by lia.
    destruct (Z.le_gt_cases b (Z.of_nat len)) as [Hbl | Hbl].
    + rewrite (Z.min_l b) by lia. f_equal. lia.
    + rewrite (Z.min_r b) by lia.
      rewrite (firstn_all2 (n := Z.to_nat b - Z.to_nat a)) by (rewrite length_skipn; fold len; lia).
      apply firstn_all2. rewrite length_skipn. fold len. lia.
  - rewrite (Z.min_r a) by lia.
    rewrite !skipn_all2 by (fold len; lia). rewrite !firstn_nil. reflexivity.
Qed.

Lemma slice_app {A : Type} (l : list A) (a b c : Z) :
  0 <= a -> a <= b -> b <= c ->
  slice l a b ++ slice l b c = slice l a c.
Proof.
  intros Ha Hab Hbc. rewrite !slice_nonneg by lia.
  set (x := Z.to_nat a). set (y := Z.to_nat b). set (z := Z.to_nat c).
  assert (Hxy : (x <= y)%nat) by (unfold x, y; lia).
  assert (Hyz : (y <= z)%nat) by (unfold y, z; lia).
  replace (skipn y l) with (skipn (y - x) (skipn x l))
    by (rewrite skipn_skipn; f_equal; lia).
  generalize (skipn x l). intros m.
  replace (z - x)%nat with ((y - x) + (z - y))%nat by lia.
  generalize (y - x)%nat (z - y)%nat. intros p q. revert m.
  induction p as [| p IH]; intros m; [reflexivity |].
  destruct m as [| h m]; [rewrite !firstn_nil; reflexivity |].
  cbn [firstn skipn Nat.add app]. f_equal. apply IH.
Qed.

(** In exact arithmetic the table never decreases and stays between 0 and
    the number of moves. *)
Lemma checkpoints_nondecreasing (moves : list string) (N : nat) (i j : nat) :
  (3 <= N)%nat -> moves <> [] -> (i <= j)%nat -> (j < N)%nat ->
  0 <= nth i (moveCheckpoints (num := Q) moves N) 0
  /\ nth i (moveCheckpoints (num := Q) moves N) 0
     <= nth j (moveCheckpoints (num := Q) moves N) 0
  /\ nth j (moveCheckpoints (num := Q) moves N) 0 <= Z.of_nat (List.length moves).
Proof.
  intros HN Hne Hij Hj.
  set (T := Z.of_nat (List.length moves)).
  set (pre := Z.max 0 (T - 3)).
  set (q := (inject_Z pre / inject_Z (Z.of_nat N - 2))%Q).
  assert (Hq : (0 <= q)%Q) by (apply quotient_nonneg; lia).
  assert (Hval : forall k : Z, interpolated (num := Q) T N k = roundHalfUp (inject_Z k * q))
    by reflexivity.
  assert (Hlo : forall k : Z, 0 <= k -> 0 <= interpolated (num := Q) T N k)
    by (intros k Hk; rewrite Hval; apply scaled_round_nonneg; assumption).
  assert (Hup : forall k : Z, k <= Z.of_nat N - 2 -> interpolated (num := Q) T N k <= pre)
    by (intros k Hk; rewrite Hval; apply scaled_round_upper; lia).
  assert (Hmono : forall a b : Z, a <= b ->
            interpolated (num := Q) T N a <= interpolated (num := Q) T N b)
    by (intros a b Hab; rewrite !Hval; apply scaled_round_mono; assumption).
  rewrite (moveCheckpoints_nth moves N i), (moveCheckpoints_nth moves N j)
    by (try assumption; lia).
  fold T pre.
  specialize (Hlo (Z.of_nat i) ltac:(lia)) as Hlo_i.
  specialize (Hlo (Z.of_nat j) ltac:(lia)) as Hlo_j.
  specialize (Hmono (Z.of_nat i) (Z.of_nat j) ltac:(lia)).
  assert (HT : 1 <= T).
  { unfold T. destruct moves; [contradiction | cbn [List.length]; lia]. }
  destruct (Nat.eqb_spec i (N - 1)), (Nat.eqb_spec i (N - 2)), (Nat.eqb_spec i 0),
    (Nat.eqb_spec j (N - 1)), (Nat.eqb_spec j (N - 2)), (Nat.eqb_spec j 0);
    try lia;
    try (specialize (Hup (Z.of_nat i) ltac:(lia)); lia);
    try (specialize (Hup (Z.of_nat j) ltac:(lia)); lia);
    (pose proof (Hup (Z.of_nat i) ltac:(lia)); pose proof (Hup (Z.of_nat j) ltac:(lia)); lia).
Qed.

Section PlanAlgebra.

Variable moves : list string.
Variable N : nat.
Hypothesis scrambled : moves <> [].
Hypothesis milestones : (3 <= N)%nat.


Lemma checkpoint_order (i j : Z) :
  0 <= i -> i <= j -> j < Z.of_nat N ->
  0 <= checkpointAt (num := Q) moves N i /\ checkpointAt (num := Q) moves N i <= checkpointAt (num := Q) moves N j
  /\ checkpointAt (num := Q) moves N j <= Z.of_nat (List.length moves).
Proof.
  intros Hi Hij Hj. unfold checkpointAt.
  apply checkpoints_nondecreasing; try assumption; lia.
Qed.

Lemma checkpoint_first : checkpointAt (num := Q) moves N 0 = 0.
Proof.
  unfold checkpointAt. rewrite moveCheckpoints_nth by (try assumption; lia).
  change (Z.to_nat 0) with 0%nat.
  destruct (Nat.eqb_spec 0 (N - 1)), (Nat.eqb_spec 0 (N - 2)); try reflexivity; lia.
Qed.

Lemma checkpoint_last : checkpointAt (num := Q) moves N (Z.of_nat N - 1) = Z.of_nat (List.length moves).
Proof.
  unfold checkpointAt. rewrite moveCheckpoints_nth by (try assumption; lia).
  replace (Z.to_nat (Z.of_nat N - 1) =? N - 1)%nat with true
    by (symmetry; apply Nat.eqb_eq; lia).
  reflexivity.
Qed.

(** The moves of the plan between two milestones, whichever way. *)
Lemma plan_up (i j : Z) :
  0 <= i -> i <= j -> j < Z.of_nat N ->
  fst (getMovesForTransition (num := Q) moves N i j)
  = slice moves (checkpointAt (num := Q) moves N i) (checkpointAt (num := Q) moves N j).
Proof.
  intros Hi Hij Hj. destruct (Z.eq_dec i j) as [-> | Hne].
  - rewrite plan_stay by (try assumption; lia). cbn [fst].
    rewrite slice_nonneg by (apply (checkpoint_order j j); lia).
    rewrite Nat.sub_diag. reflexivity.
  - rewrite plan_forward by (try assumption; lia). reflexivity.
Qed.

Lemma plan_down (i j : Z) :
  0 <= i -> i <= j -> j < Z.of_nat N ->
  fst (getMovesForTransition (num := Q) moves N j i)
  = map invertMove (rev (slice moves (checkpointAt (num := Q) moves N i) (checkpointAt (num := Q) moves N j))).
Proof.
  intros Hi Hij Hj. destruct (Z.eq_dec i j) as [-> | Hne].
  - rewrite plan_stay by (try assumption; lia). cbn [fst].
    rewrite slice_nonneg by (apply (checkpoint_order j j); lia).
    rewrite Nat.sub_diag. reflexivity.
  - destruct (Z.eq_dec j (Z.of_nat N - 1)) as [Hlast | Hlast];
      [destruct (Z.eq_dec i 0) as [Hfirst | Hfirst] |].
    + subst i j. rewrite plan_reset by assumption. cbn [fst].
      rewrite checkpoint_first, checkpoint_last, slice_whole. reflexivity.
    + rewrite plan_backward by (try assumption; lia). reflexivity.
    + rewrite plan_backward by (try assumption; lia). reflexivity.
Qed.

Lemma reach_prefix (k : Z) :
  0 <= k -> k < Z.of_nat N ->
  getMovesToReachStep (num := Q) moves N k = slice moves 0 (checkpointAt (num := Q) moves N k).
Proof.
  intros Hk HkN. unfold getMovesToReachStep.
  rewrite scrambled_length by assumption.
  rewrite moveCheckpoints_length by (try assumption; lia).
  destruct (Z.geb_spec k (Z.of_nat N)); [lia |]. cbn [orb].
  destruct (Z.ltb_spec k 0); [lia | reflexivity].
Qed.

End PlanAlgebra.

(** From three milestones on and in exact arithmetic, plans chain: going
    from [i] to [k] through a milestone [j] in between plays the moves of
    the direct plan, forward and backward alike (the fast reset from the
    last milestone to the first included). *)
Theorem plans_chain (moves : list string) (N : nat) (i j k : Z) :
  (3 <= N)%nat -> moves <> [] ->
  0 <= i -> i <= j -> j <= k -> k < Z.of_nat N ->
  fst (getMovesForTransition (num := Q) moves N i j)
  ++ fst (getMovesForTransition (num := Q) moves N j k)
  = fst (getMovesForTransition (num := Q) moves N i k) /\
  fst (getMovesForTransition (num := Q) moves N k j)
  ++ fst (getMovesForTransition (num := Q) moves N j i)
  = fst (getMovesForTransition (num := Q) moves N k i).
Proof.
  intros HN Hne Hi Hij Hjk Hk.
  pose proof (checkpoint_order moves N Hne HN i j ltac:(lia) ltac:(lia) ltac:(lia))
    as (H0 & H1 & _).
  pose proof (checkpoint_order moves N Hne HN j k ltac:(lia) ltac:(lia) ltac:(lia))
    as (_ & H2 & _).
  split.
  - rewrite !(plan_up moves N Hne HN) by lia. apply slice_app; assumption.
  - rewrite !(plan_down moves N Hne HN) by lia.
    rewrite <- map_app, <- rev_app_distr. do 2 f_equal. apply slice_app; assumption.
Qed.

Lemma plans_chain_witness :
  fst (getMovesForTransition (num := Q) fourMoves 5 1 2)
  ++ fst (getMovesForTransition (num := Q) fourMoves 5 2 4)
  = fst (getMovesForTransition (num := Q) fourMoves 5 1 4).
Proof.
  apply (plans_chain fourMoves 5 1 2 4); [lia | discriminate | lia | lia | lia | cbn; lia].
Defined.

(** In any arithmetic, from three milestones on: the plan back from a later
    milestone to an earlier one is the plan forward between them, reversed
    and with every move inverted. *)
Theorem plan_back_mirrors_plan_forth {num : Type} {NUM : JSNumber num}
    (moves : list string) (N : nat) (i j : Z) :
  (3 <= N)%nat -> moves <> [] ->
  0 <= i -> i < j -> j < Z.of_nat N ->
  fst (getMovesForTransition moves N j i)
  = map invertMove (rev (fst (getMovesForTransition moves N i j))).
Proof.
  intros HN Hne Hi Hij Hj.
  rewrite (plan_forward moves N Hne i j) by lia. cbn [fst].
  destruct (Z.eq_dec j (Z.of_nat N - 1)) as [Hlast | Hlast];
    [destruct (Z.eq_dec i 0) as [Hfirst | Hfirst] |].
  - subst i j. rewrite plan_reset by exact Hne. cbn [fst].
    rewrite (moveCheckpoints_nth moves N) by (try assumption; lia).
    rewrite (moveCheckpoints_nth moves N) by (try assumption; lia).
    replace (Z.to_nat 0 =? N - 1)%nat with false by (symmetry; apply Nat.eqb_neq; lia).
    replace (Z.to_nat 0 =? N - 2)%nat with false by (symmetry; apply Nat.eqb_neq; lia).
    replace (Z.to_nat 0 =? 0)%nat with true by reflexivity.
    replace (Z.to_nat (Z.of_nat N - 1) =? N - 1)%nat with true
      by (symmetry; apply Nat.eqb_eq; lia).
    rewrite slice_whole. reflexivity.
  - rewrite plan_backward by (try assumption; lia). reflexivity.
  - rewrite plan_backward by (try assumption; lia). reflexivity.
Qed.

Lemma plan_back_mirrors_plan_forth_witness :
  fst (getMovesForTransition (num := float) fourMoves 5 4 0)
  = map invertMove (rev (fst (getMovesForTransition (num := float) fourMoves 5 0 4))).
Proof.
  apply (plan_back_mirrors_plan_forth (num := float) fourMoves 5 0 4);
    [lia | discriminate | lia | lia | cbn; lia].
Defined.

(** [getMovesToReachStep]: nothing for an empty scramble or a step past the
    table; from three milestones on and in exact arithmetic, nothing for
    step 0, the whole scramble for the last step, and for two steps in
    order the moves of the later step are those of the earlier one followed
    by the plan between them. *)
Theorem moves_to_reach_a_step (moves : list string) (N : nat) (i j : Z) :
  getMovesToReachStep (num := Q) [] N j = [] /\
  (Z.of_nat (List.length (moveCheckpoints (num := Q) moves N)) <= j ->
     getMovesToReachStep (num := Q) moves N j = []) /\
  ((3 <= N)%nat -> moves <> [] ->
     getMovesToReachStep (num := Q) moves N 0 = [] /\
     getMovesToReachStep (num := Q) moves N (Z.of_nat N - 1) = moves /\
     (0 <= i -> i <= j -> j < Z.of_nat N ->
        getMovesToReachStep (num := Q) moves N j
        = getMovesToReachStep (num := Q) moves N i
          ++ fst (getMovesForTransition (num := Q) moves N i j))).
Proof.
  split; [reflexivity |]. split.
  - intros Hpast. unfold getMovesToReachStep.
    destruct (Z.geb_spec j (Z.of_nat (List.length (moveCheckpoints (num := Q) moves N))));
      [rewrite orb_true_r; reflexivity | lia].
  - intros HN Hne. split; [| split].
    + rewrite (reach_prefix moves N Hne HN) by lia.
      rewrite (checkpoint_first moves N Hne HN).
      rewrite slice_nonneg by lia. reflexivity.
    + rewrite (reach_prefix moves N Hne HN) by lia.
      rewrite (checkpoint_last moves N Hne HN). apply slice_whole.
    + intros Hi Hij Hj.
      rewrite !(reach_prefix moves N Hne HN) by lia.
      rewrite (plan_up moves N Hne HN) by lia.
      pose proof (checkpoint_order moves N Hne HN i j ltac:(lia) ltac:(lia) ltac:(lia))
        as (H0 & H1 & _).
      symmetry. apply slice_app; lia.
Qed.

Lemma moves_to_reach_a_step_witness :
  getMovesToReachStep (num := Q) fourMoves 5 4
  = getMovesToReachStep (num := Q) fourMoves 5 2
    ++ fst (getMovesForTransition (num := Q) fourMoves 5 2 4).
Proof.
  apply (moves_to_reach_a_step fourMoves 5 2 4); [lia | discriminate | lia | lia | cbn; lia].
Defined.

(* ================================================================= *)
(** ** The queue runs to its end *)

(** What [applyMove] leaves alone. *)
Lemma perform_frame (acts : list Action) (s : Controller) :
  let s' := fold_left (fun st a => perform a st) acts s in
  running s' = running s /\ abortProcessing s' = abortProcessing s /\
  animationQueue s' = animationQueue s /\
  isProcessingQueue s' = isProcessingQueue s /\ isSolving s' = isSolving s /\
  currentAnimatedStep s' = currentAnimatedStep s /\
  lastQueuedStep s' = lastQueuedStep s /\ isJumping s' = isJumping s /\
  pendingStep s' = pendingStep s /\ animationState s' = animationState s /\
  jumpTimer s' = jumpTimer s /\ groupRotation s' = groupRotation s /\
  groupY s' = groupY s.
Proof.
  revert s. induction acts as [| a acts IH]; intros s; cbn [fold_left].
  - repeat split.
  - specialize (IH (perform a s)). cbn zeta in IH.
    destruct a; exact IH.
Qed.

Lemma awaitApplyMoves_perform (moves : list string) (d : Q) (s : Controller) :
  awaitApplyMoves moves d s
  = fold_left (fun st a => perform a st) (flat_map (fun move => applyMove move d) moves) s.
Proof.
  revert s. induction moves as [| m moves IH]; intros s; [reflexivity |].
  cbn [flat_map]. rewrite fold_left_app. rewrite <- IH. reflexivity.
Qed.

Lemma rotationsOf_app (a b : list Action) :
  rotationsOf (a ++ b) = rotationsOf a ++ rotationsOf b.
Proof.
  induction a as [| [m | call] a IH]; cbn [app rotationsOf]; [reflexivity | exact IH |].
  rewrite IH. reflexivity.
Qed.

Lemma logicalMovesOf_app (a b : list Action) :
  logicalMovesOf (a ++ b) = logicalMovesOf a ++ logicalMovesOf b.
Proof.
  induction a as [| [m | call] a IH]; cbn [app logicalMovesOf]; [reflexivity | | exact IH].
  rewrite IH. reflexivity.
Qed.

Lemma perform_history (acts : list Action) (s : Controller) :
  history (fold_left (fun st a => perform a st) acts s) = history s ++ acts.
Proof.
  revert s. induction acts as [| a acts IH]; intros s; cbn [fold_left];
    [symmetry; apply app_nil_r |].
  rewrite IH. destruct a; cbn; rewrite <- app_assoc; reflexivity.
Qed.

Lemma perform_cubies (acts : list Action) (s : Controller) :
  cubies (fold_left (fun st a => perform a st) acts s)
  = turnCalls (rotationsOf acts) (cubies s).
Proof.
  revert s. induction acts as [| a acts IH]; intros s; cbn [fold_left]; [reflexivity |].
  rewrite IH. destruct a; reflexivity.
Qed.

Lemma perform_logicalCube (acts : list Action) (s : Controller) :
  logicalCube (fold_left (fun st a => perform a st) acts s)
  = Cube_moves (logicalMovesOf acts) (logicalCube s).
Proof.
  revert s. induction acts as [| a acts IH]; intros s; cbn [fold_left]; [reflexivity |].
  rewrite IH. destruct a; reflexivity.
Qed.

Lemma logicalMovesOf_applyMoves (moves : list string) (d : Q) :
  logicalMovesOf (flat_map (fun move => applyMove move d) moves) = moves.
Proof.
  induction moves as [| m moves IH]; [reflexivity |].
  cbn [flat_map]. rewrite logicalMovesOf_app, IH.
  unfold applyMove. destruct (includes "2" m); reflexivity.
Qed.

Lemma runToAwait_animationQueue (acts : list Action) (s : Controller) :
  animationQueue (fst (runToAwait acts s)) = animationQueue s.
Proof.
  revert s. induction acts as [| [m | call] acts IH]; intros s; cbn [runToAwait fst];
    [reflexivity | rewrite IH; reflexivity | reflexivity].
Qed.

(** The loop reads the code behind it only on states with the queue it was
    started with. *)
Lemma forMoves_ext (f g : Controller -> Controller) (queue : list Transition)
    (to : Z) (d : Q) (moves : list string) :
  (forall s, animationQueue s = queue -> f s = g s) ->
  forall s, animationQueue s = queue -> forMoves f to d moves s = forMoves g to d moves s.
Proof.
  intros Hfg. induction moves as [| m moves IH]; intros s Hs; cbn [forMoves];
    [apply Hfg, Hs |].
  destruct (abortProcessing s); [apply Hfg, Hs |].
  pose proof (runToAwait_animationQueue (applyMove m d) s) as Hq.
  destruct (runToAwait (applyMove m d) s) as [s' [[call after] |]]; [reflexivity |].
  apply IH. cbn [fst] in Hq. congruence.
Qed.

Lemma last_cons {A : Type} (x d : A) (l : list A) : last (x :: l) d = last l x.
Proof.
  revert x d. induction l as [| y l IH]; intros x d; [reflexivity |].
  change (last (x :: y :: l) d) with (last (y :: l) d). rewrite !IH. reflexivity.
Qed.

Section QueueRuns.

Context {num : Type} {NUM : JSNumber num}.
Variable solutionMoves : list string.
Variable numExperiences : nat.

(** Nothing in flight: a frame changes nothing. *)
Lemma settle_idle (n : nat) (s : Controller) :
  running s = None -> settle solutionMoves numExperiences n s = s.
Proof.
  intros H. induction n as [| n IH]; [reflexivity |].
  rewrite settle_S. unfold rotationDone. rewrite H. exact IH.
Qed.

(** An [applyMove] of the queue pass resumed at its effects [acts]: after
    as many frames as it has rotations left, the pass is at the head of the
    next iteration of its [for] loop. *)
Lemma resume_settle (to : Z) (rest : list string) (d : Q) (acts : list Action) :
  forall (s : Controller) (m : nat),
  running s = None ->
  settle solutionMoves numExperiences (List.length (rotationsOf acts) + m)
    (match runToAwait acts s with
     | (s', Some (call, after)) =>
         set_running (Some (mkPending (QueuePass to rest d) call after)) s'
     | (s', None) =>
         forMoves
           (fun s'' => whileQueue solutionMoves numExperiences (animationQueue s'')
                         (set_currentAnimatedStep to s''))
           to d rest s'
     end)
  = settle solutionMoves numExperiences m
      (forMoves
         (fun s'' => whileQueue solutionMoves numExperiences (animationQueue s'')
                       (set_currentAnimatedStep to s''))
         to d rest (fold_left (fun st a => perform a st) acts s)).
Proof.
  induction acts as [| [mv | call] acts IH]; intros s m Hrun.
  - reflexivity.
  - cbn [runToAwait rotationsOf fold_left perform]. apply IH. exact Hrun.
  - cbn [runToAwait rotationsOf List.length fold_left perform Nat.add].
    rewrite settle_S. unfold rotationDone at 1.
    cbn [running set_running p_inflight p_after p_caller].
    rewrite set_running_twice.
    rewrite <- (running_eta (beginRotation call s) None) by exact Hrun.
    apply IH. exact Hrun.
Qed.

Lemma forMoves_settle (to : Z) (d : Q) (moves : list string) :
  forall (s : Controller) (m : nat),
  running s = None -> abortProcessing s = false ->
  settle solutionMoves numExperiences
    (List.length (rotationsOf (flat_map (fun move => applyMove move d) moves)) + m)
    (forMoves
       (fun s'' => whileQueue solutionMoves numExperiences (animationQueue s'')
                     (set_currentAnimatedStep to s''))
       to d moves s)
  = settle solutionMoves numExperiences m
      (whileQueue solutionMoves numExperiences
         (animationQueue (awaitApplyMoves moves d s))
         (set_currentAnimatedStep to (awaitApplyMoves moves d s))).
Proof.
  induction moves as [| mv moves IH]; intros s m Hrun Habort.
  - reflexivity.
  - cbn [forMoves flat_map]. rewrite Habort.
    rewrite rotationsOf_app, length_app, <- Nat.add_assoc.
    rewrite resume_settle by exact Hrun.
    fold (awaitApplyMove mv d s).
    destruct (perform_frame (applyMove mv d) s) as (H1 & H2 & _).
    fold (awaitApplyMove mv d s) in H1, H2.
    rewrite IH by congruence. reflexivity.
Qed.

Lemma whileQueue_settle (queue : list Transition) :
  forall (s : Controller) (m : nat),
  running s = None -> abortProcessing s = false ->
  settle solutionMoves numExperiences
    (List.length (rotationsOf (queueActions solutionMoves numExperiences queue)) + m)
    (whileQueue solutionMoves numExperiences queue s)
  = playQueue solutionMoves numExperiences queue s.
Proof.
  induction queue as [| t queue IH]; intros s m Hrun Habort.
  - cbn [whileQueue playQueue queueActions flat_map rotationsOf List.length Nat.add].
    apply settle_idle. reflexivity.
  - cbn [whileQueue playQueue]. rewrite Habort.
    unfold queueActions. cbn [flat_map]. fold (queueActions solutionMoves numExperiences queue).
    rewrite rotationsOf_app, length_app, <- Nat.add_assoc.
    change (match t_moves t with
            | Some moves => (moves, (25 # 100)%Q)
            | None => getMovesForTransition solutionMoves numExperiences (t_from t) (t_to t)
            end) with (transitionPlan solutionMoves numExperiences t).
    destruct (transitionPlan solutionMoves numExperiences t) as [moves d]. cbn [fst snd].
    rewrite (forMoves_ext _
               (fun s'' => whileQueue solutionMoves numExperiences (animationQueue s'')
                             (set_currentAnimatedStep (t_to t) s''))
               queue);
      [| intros s0 Hs0; rewrite Hs0; reflexivity | reflexivity].
    rewrite forMoves_settle by assumption.
    rewrite awaitApplyMoves_perform.
    destruct (perform_frame (flat_map (fun move => applyMove move d) moves)
                (set_animationQueue queue s)) as (H1 & H2 & H3 & _).
    rewrite H3. cbn [animationQueue set_animationQueue].
    apply IH; cbn [running abortProcessing set_currentAnimatedStep];
      [rewrite H1 | rewrite H2]; cbn; assumption.
Qed.

(** The fields of a queue played through. *)
Lemma playQueue_control (queue : list Transition) (s : Controller) :
  let s' := playQueue solutionMoves numExperiences queue s in
  running s' = None /\ isProcessingQueue s' = false /\ isSolving s' = false /\
  animationQueue s' = match queue with [] => animationQueue s | _ => [] end /\
  currentAnimatedStep s' = last (map t_to queue) (currentAnimatedStep s) /\
  abortProcessing s' = abortProcessing s /\
  lastQueuedStep s' = lastQueuedStep s.
Proof.
  revert s. induction queue as [| t queue IH]; intros s.
  - cbn. repeat split.
  - cbn [playQueue]. cbn zeta.
    rewrite awaitApplyMoves_perform.
    set (acts := flat_map _ _).
    destruct (perform_frame acts (set_animationQueue queue s))
      as (_ & H2 & H3 & _ & _ & _ & H7 & _).
    specialize (IH (set_currentAnimatedStep (t_to t)
                      (fold_left (fun st a => perform a st) acts (set_animationQueue queue s)))).
    cbn zeta in IH. destruct IH as (I1 & I2 & I3 & I4 & I5 & I6 & I7).
    split; [exact I1 |]. split; [exact I2 |]. split; [exact I3 |].
    split; [| split; [| split]].
    + rewrite I4. destruct queue; [| reflexivity]. cbn. rewrite H3. reflexivity.
    + rewrite I5. cbn [map currentAnimatedStep set_currentAnimatedStep].
      symmetry. apply last_cons.
    + rewrite I6. cbn. exact H2.
    + rewrite I7. cbn. exact H7.
Qed.

Lemma playQueue_cube (queue : list Transition) (s : Controller) :
  let s' := playQueue solutionMoves numExperiences queue s in
  history s' = history s ++ queueActions solutionMoves numExperiences queue /\
  logicalCube s' = Cube_moves (queueMoves solutionMoves numExperiences queue) (logicalCube s) /\
  cubies s'
  = turnCalls (rotationsOf (queueActions solutionMoves numExperiences queue)) (cubies s).
Proof.
  revert s. induction queue as [| t queue IH]; intros s.
  - cbn. rewrite app_nil_r. repeat split.
  - cbn [playQueue]. cbn zeta.
    rewrite awaitApplyMoves_perform.
    unfold queueActions, queueMoves. cbn [flat_map].
    fold (queueActions solutionMoves numExperiences queue).
    fold (queueMoves solutionMoves numExperiences queue).
    set (acts := flat_map (fun move => applyMove move _) _).
    specialize (IH (set_currentAnimatedStep (t_to t)
                      (fold_left (fun st a => perform a st) acts (set_animationQueue queue s)))).
    cbn zeta in IH. destruct IH as (I1 & I2 & I3).
    split; [| split].
    + rewrite I1. cbn [history set_currentAnimatedStep].
      rewrite perform_history. cbn. symmetry. apply app_assoc.
    + rewrite I2. cbn [logicalCube set_currentAnimatedStep].
      rewrite perform_logicalCube. cbn [logicalCube set_animationQueue].
      unfold acts. rewrite logicalMovesOf_applyMoves.
      symmetry. apply Cube_moves_app.
    + rewrite I3. cbn [cubies set_currentAnimatedStep].
      rewrite perform_cubies. cbn [cubies set_animationQueue].
      rewrite rotationsOf_app. unfold turnCalls. symmetry. apply fold_left_app.
Qed.

(** [processQueue] on an idle controller with something queued, followed to
    the end of its rotations. *)
Lemma processQueue_settle (s : Controller) (n : nat) :
  isProcessingQueue s = false -> running s = None -> animationQueue s <> [] ->
  (List.length (rotationsOf (queueActions solutionMoves numExperiences (animationQueue s)))
   <= n)%nat ->
  settle solutionMoves numExperiences n (processQueue solutionMoves numExperiences s)
  = playQueue solutionMoves numExperiences (animationQueue s)
      (set_abortProcessing false (set_isSolving true (set_isProcessingQueue true s))).
Proof.
  intros Hidle Hrun Hq Hn. unfold processQueue. rewrite Hidle.
  destruct (animationQueue s) as [| t q] eqn:E; [contradiction |].
  cbn [List.length Nat.eqb orb].
  cbn [animationQueue set_abortProcessing set_isSolving set_isProcessingQueue].
  rewrite E.
  replace n with (List.length (rotationsOf (queueActions solutionMoves numExperiences (t :: q)))
                  + (n - List.length (rotationsOf (queueActions solutionMoves numExperiences (t :: q)))))%nat
    by lia.
  apply whileQueue_settle; cbn; [exact Hrun | reflexivity].
Qed.

End QueueRuns.

(** The queue pass runs to its end. Started on a controller that is not
    processing, has no rotation in flight and has transitions queued, and
    with no cancellation on the way, [processQueue] takes the transitions
    first in, first out and every move of each exactly once: once all its
    rotations have resolved the queue is empty, nothing is in flight, the
    processing and solving flags are down, [currentAnimatedStep] is the
    target of the last transition, and the logical cube, the pieces and
    the effects started are those of the queue's moves in order. Further
    frames change nothing. *)
Theorem queue_runs_to_its_end {num : Type} {NUM : JSNumber num}
    (solutionMoves : list string) (numExperiences : nat) (s : Controller) (n : nat) :
  isProcessingQueue s = false -> running s = None -> animationQueue s <> [] ->
  (List.length (rotationsOf (queueActions solutionMoves numExperiences (animationQueue s)))
   <= n)%nat ->
  let queue := animationQueue s in
  let s' := settle solutionMoves numExperiences n
              (processQueue solutionMoves numExperiences s) in
  animationQueue s' = [] /\ running s' = None /\
  isProcessingQueue s' = false /\ isSolving s' = false /\
  currentAnimatedStep s' = last (map t_to queue) 0 /\
  history s' = history s ++ queueActions solutionMoves numExperiences queue /\
  logicalCube s'
  = Cube_moves (queueMoves solutionMoves numExperiences queue) (logicalCube s) /\
  cubies s'
  = turnCalls (rotationsOf (queueActions solutionMoves numExperiences queue)) (cubies s).
Proof.
  intros Hidle Hrun Hq Hn queue s'. subst s'.
  rewrite processQueue_settle by assumption. fold queue.
  set (s0 := set_abortProcessing false _).
  destruct (playQueue_control solutionMoves numExperiences queue s0)
    as (C1 & C2 & C3 & C4 & C5 & _).
  destruct (playQueue_cube solutionMoves numExperiences queue s0) as (P1 & P2 & P3).
  split; [| split; [| split; [| split; [| split; [| split; [| split]]]]]].
  - rewrite C4. unfold queue in *. destruct (animationQueue s); [contradiction | reflexivity].
  - exact C1.
  - exact C2.
  - exact C3.
  - rewrite C5. unfold queue in *.
    destruct (animationQueue s) as [| t q]; [contradiction |].
    cbn [map]. rewrite !last_cons. reflexivity.
  - exact P1.
  - exact P2.
  - exact P3.
Qed.

Lemma queue_runs_to_its_end_witness :
  let s := set_animationQueue [mkTransition 0 1 None; mkTransition 1 2 None] mounted in
  let s' := settle (num := Q) fourMoves 5 4 (processQueue (num := Q) fourMoves 5 s) in
  animationQueue s' = [] /\ running s' = None /\
  isProcessingQueue s' = false /\ isSolving s' = false /\
  currentAnimatedStep s' = 2.
Proof.
  intros s s'.
  pose proof (queue_runs_to_its_end (num := Q) fourMoves 5 s 4
                eq_refl eq_refl ltac:(discriminate) ltac:(vm_compute; lia)) as H.
  cbv zeta in H. destruct H as (H1 & H2 & H3 & H4 & H5 & _).
  split; [exact H1 |]. split; [exact H2 |]. split; [exact H3 |]. split; [exact H4 |].
  exact H5.
Defined.

(* ================================================================= *)
(** ** Navigation along the milestones *)

Lemma slice_length_le {A : Type} (l : list A) (a b : Z) :
  (List.length (slice l a b) <= List.length l)%nat.
Proof.
  unfold slice. cbv zeta. rewrite length_firstn, length_skipn. lia.
Qed.

(** Whatever the arithmetic, a plan is made of move tokens and is no
    longer than the scramble. *)
Lemma plan_tokens {num : Type} {NUM : JSNumber num} (moves : list string) (N : nat)
    (i j : Z) :
  forallb isMoveToken moves = true ->
  forallb isMoveToken (fst (getMovesForTransition moves N i j)) = true.
Proof.
  intros H. unfold getMovesForTransition.
  destruct (_ =? _)%nat; [reflexivity |].
  destruct (_ && _); [apply inverted_tokens, H |].
  destruct (j >? i); [destruct (j =? _); apply forallb_slice, H |].
  destruct (j <? i); [| reflexivity].
  apply inverted_tokens, forallb_slice, H.
Qed.

Lemma rotations_bound (moves : list string) (d : Q) :
  (List.length (rotationsOf (flat_map (fun move => applyMove move d) moves))
   <= 2 * List.length moves)%nat.
Proof.
  induction moves as [| m moves IH]; [cbn; lia |].
  cbn [flat_map]. rewrite rotationsOf_app, length_app.
  assert (List.length (rotationsOf (applyMove m d)) <= 2)%nat
    by (unfold applyMove; destruct (includes "2" m); cbn; lia).
  cbn [List.length]. lia.
Qed.

Section QueueShape.

Context {num : Type} {NUM : JSNumber num}.
Variable solutionMoves : list string.
Variable numExperiences : nat.

Lemma queueMoves_app (p q : list Transition) :
  queueMoves solutionMoves numExperiences (p ++ q)
  = queueMoves solutionMoves numExperiences p ++ queueMoves solutionMoves numExperiences q.
Proof. apply flat_map_app. Qed.

Lemma queue_rotations_bound (queue : list Transition) :
  (List.length (rotationsOf (queueActions solutionMoves numExperiences queue))
   <= 2 * List.length (queueMoves solutionMoves numExperiences queue))%nat.
Proof.
  induction queue as [| t queue IH]; [cbn; lia |].
  unfold queueActions, queueMoves. cbn [flat_map].
  fold (queueActions solutionMoves numExperiences queue).
  fold (queueMoves solutionMoves numExperiences queue).
  rewrite rotationsOf_app, !length_app.
  pose proof (rotations_bound (fst (transitionPlan solutionMoves numExperiences t))
                (snd (transitionPlan solutionMoves numExperiences t))).
  lia.
Qed.

(** Over a queue of token moves the pieces of a queue played through
    follow the permutation model. *)
Lemma playQueue_arrangement (queue : list Transition) (s : Controller) :
  forallb isMoveToken (queueMoves solutionMoves numExperiences queue) = true ->
  arrangement (cubies (playQueue solutionMoves numExperiences queue s))
  = Cube_moves (queueMoves solutionMoves numExperiences queue) (arrangement (cubies s)).
Proof.
  revert s. induction queue as [| t queue IH]; intros s Htok; [reflexivity |].
  unfold queueMoves in Htok. cbn [flat_map] in Htok.
  fold (queueMoves solutionMoves numExperiences queue) in Htok.
  rewrite forallb_app in Htok. apply andb_prop in Htok as [Ht Hq].
  cbn [playQueue]. cbv zeta. rewrite IH by exact Hq.
  unfold queueMoves at 2. cbn [flat_map].
  fold (queueMoves solutionMoves numExperiences queue).
  rewrite Cube_moves_app. f_equal.
  cbn [cubies set_currentAnimatedStep].
  rewrite awaitApplyMoves_arrangement by exact Ht. reflexivity.
Qed.

End QueueShape.

Section Navigation.

Variable moves : list string.
Variable N : nat.
Variable solve : Cube -> string.
Hypothesis scrambled : moves <> [].
Hypothesis milestones : (3 <= N)%nat.

(** The forward loop of the normal path queues the neighbouring
    transitions from [a] up; together they play the slice between the
    checkpoints at both ends. *)
Lemma chain_up (count : nat) :
  forall a : Z, 0 <= a -> a + Z.of_nat count < Z.of_nat N ->
  queueMoves (num := Q) moves N (pushSteps count 1 (a + 1) a [])
  = slice moves (checkpointAt (num := Q) moves N a)
      (checkpointAt (num := Q) moves N (a + Z.of_nat count)) /\
  last (map t_to (pushSteps count 1 (a + 1) a [])) a = a + Z.of_nat count.
Proof.
  induction count as [| count IH]; intros a Ha Hb.
  - cbn [pushSteps queueMoves flat_map map last]. rewrite Z.add_0_r.
    split; [| reflexivity].
    rewrite slice_nonneg by (apply (checkpoint_order moves N scrambled milestones a a); lia).
    rewrite Nat.sub_diag. reflexivity.
  - cbn [pushSteps]. rewrite pushSteps_app. cbn [app].
    destruct (IH (a + 1) ltac:(lia) ltac:(lia)) as [IHm IHl].
    replace (a + Z.of_nat (S count)) with (a + 1 + Z.of_nat count) by lia.
    split.
    + unfold queueMoves. cbn [flat_map]. fold (queueMoves (num := Q) moves N).
      unfold queueMoves in IHm. rewrite IHm.
      unfold transitionPlan. cbn [t_moves t_from t_to].
      rewrite (plan_up moves N scrambled milestones) by lia.
      pose proof (checkpoint_order moves N scrambled milestones a (a + 1)
                    ltac:(lia) ltac:(lia) ltac:(lia)) as (H0 & H1 & _).
      pose proof (checkpoint_order moves N scrambled milestones (a + 1)
                    (a + 1 + Z.of_nat count) ltac:(lia) ltac:(lia) ltac:(lia))
        as (_ & H2 & _).
      apply slice_app; assumption.
    + cbn [map t_to]. rewrite last_cons. exact IHl.
Qed.

(** The backward loop likewise, from [a] down. *)
Lemma chain_down (count : nat) :
  forall a : Z, a < Z.of_nat N -> 0 <= a - Z.of_nat count ->
  queueMoves (num := Q) moves N (pushSteps count (-1) (a - 1) a [])
  = map invertMove
      (rev (slice moves (checkpointAt (num := Q) moves N (a - Z.of_nat count))
              (checkpointAt (num := Q) moves N a))) /\
  last (map t_to (pushSteps count (-1) (a - 1) a [])) a = a - Z.of_nat count.
Proof.
  induction count as [| count IH]; intros a Ha Hb.
  - cbn [pushSteps queueMoves flat_map map last]. rewrite Z.sub_0_r.
    split; [| reflexivity].
    rewrite slice_nonneg by (apply (checkpoint_order moves N scrambled milestones a a); lia).
    rewrite Nat.sub_diag. reflexivity.
  - cbn [pushSteps]. rewrite pushSteps_app. cbn [app].
    replace (a - 1 + -1) with (a - 1 - 1) by lia.
    destruct (IH (a - 1) ltac:(lia) ltac:(lia)) as [IHm IHl].
    replace (a - Z.of_nat (S count)) with (a - 1 - Z.of_nat count) by lia.
    split.
    + unfold queueMoves. cbn [flat_map]. fold (queueMoves (num := Q) moves N).
      unfold queueMoves in IHm. rewrite IHm.
      unfold transitionPlan. cbn [t_moves t_from t_to].
      rewrite (plan_down moves N scrambled milestones) by lia.
      rewrite <- map_app, <- rev_app_distr. do 2 f_equal.
      pose proof (checkpoint_order moves N scrambled milestones
                    (a - 1 - Z.of_nat count) (a - 1) ltac:(lia) ltac:(lia) ltac:(lia))
        as (H0 & H1 & _).
      pose proof (checkpoint_order moves N scrambled milestones (a - 1) a
                    ltac:(lia) ltac:(lia) ltac:(lia)) as (_ & H2 & _).
      apply slice_app; assumption.
    + cbn [map t_to]. rewrite last_cons. exact IHl.
Qed.

(** What the normal path queues between two milestones plays the plan
    between them and ends on the target. *)
Lemma normalTransitions_moves (a b : Z) :
  0 <= a -> a < Z.of_nat N -> 0 <= b -> b < Z.of_nat N -> a <> b ->
  queueMoves (num := Q) moves N (normalTransitions N a b [])
  = fst (getMovesForTransition (num := Q) moves N a b) /\
  last (map t_to (normalTransitions N a b [])) a = b /\
  normalTransitions N a b [] <> [].
Proof.
  intros Ha HaN Hb HbN Hab. unfold normalTransitions. cbv zeta.
  destruct (Z.gtb_spec b a) as [Hgt | Hle].
  - destruct (chain_up (Z.to_nat (b - a)) a Ha ltac:(lia)) as [Hm Hl].
    replace (a + Z.of_nat (Z.to_nat (b - a))) with b in Hm, Hl by lia.
    split; [| split].
    + rewrite Hm. symmetry. apply (plan_up moves N scrambled milestones); lia.
    + exact Hl.
    + destruct (Z.to_nat (b - a)) as [| k] eqn:E; [lia |].
      cbn [pushSteps]. rewrite pushSteps_app. discriminate.
  - destruct (Z.ltb_spec b a) as [Hlt | Hge]; [| lia].
    destruct ((a =? Z.of_nat N - 1) && (b =? 0)) eqn:Hreset.
    + apply andb_prop in Hreset as [H1 H2].
      apply Z.eqb_eq in H1, H2. subst a b.
      split; [| split; [reflexivity | discriminate]].
      unfold queueMoves. cbn [app flat_map]. rewrite app_nil_r. reflexivity.
    + destruct (chain_down (Z.to_nat (a - b)) a HaN ltac:(lia)) as [Hm Hl].
      replace (a - Z.of_nat (Z.to_nat (a - b))) with b in Hm, Hl by lia.
      split; [| split].
      * rewrite Hm. symmetry. apply (plan_down moves N scrambled milestones); lia.
      * exact Hl.
      * destruct (Z.to_nat (a - b)) as [| k] eqn:E; [lia |].
        cbn [pushSteps]. rewrite pushSteps_app. discriminate.
Qed.

Hypothesis tokens : forallb isMoveToken moves = true.

(** Played on a cube that stands at milestone [a], the plan from [a] to
    [b] leaves it at milestone [b]. *)
Lemma plan_moves_cube (a b : Z) (cube : Cube) :
  0 <= a -> a < Z.of_nat N -> 0 <= b -> b < Z.of_nat N ->
  Cube_moves (fst (getMovesForTransition (num := Q) moves N a b))
    (Cube_moves (stepMoves (num := Q) moves N a) cube)
  = Cube_moves (stepMoves (num := Q) moves N b) cube.
Proof.
  intros Ha HaN Hb HbN. unfold stepMoves.
  rewrite !(reach_prefix moves N scrambled milestones) by lia.
  destruct (Z.le_gt_cases a b) as [Hab | Hba].
  - rewrite (plan_up moves N scrambled milestones) by lia.
    pose proof (checkpoint_order moves N scrambled milestones a b
                  ltac:(lia) ltac:(lia) ltac:(lia)) as (H0 & H1 & _).
    rewrite <- (slice_app moves 0 _ _ ltac:(lia) H0 H1).
    rewrite !Cube_moves_app. reflexivity.
  - rewrite (plan_down moves N scrambled milestones) by lia.
    pose proof (checkpoint_order moves N scrambled milestones b a
                  ltac:(lia) ltac:(lia) ltac:(lia)) as (H0 & H1 & _).
    rewrite <- (slice_app moves 0 _ _ ltac:(lia) H0 H1).
    rewrite !Cube_moves_app.
    apply Cube_moves_undo. apply forallb_slice, tokens.
Qed.

Lemma plan_length (a b : Z) :
  (List.length (fst (getMovesForTransition (num := Q) moves N a b))
   <= List.length moves)%nat.
Proof.
  unfold getMovesForTransition.
  destruct (_ =? _)%nat; [cbn; lia |].
  destruct (_ && _); [cbn [fst]; rewrite length_map, length_rev; lia |].
  destruct (b >? a); [destruct (b =? _); apply slice_length_le |].
  destruct (b <? a); [| cbn; lia].
  cbn [fst]. rewrite length_map, length_rev. apply slice_length_le.
Qed.

(** The normal path from an idle controller, followed to the end. *)
Lemma normalPath_settle (a b : Z) (s : Controller) (n : nat) :
  0 <= a -> a < Z.of_nat N -> 0 <= b -> b < Z.of_nat N -> a <> b ->
  isProcessingQueue s = false -> running s = None -> animationQueue s = [] ->
  lastQueuedStep s = a ->
  (2 * List.length moves <= n)%nat ->
  settle (num := Q) moves N n (normalPath (num := Q) moves N b s)
  = playQueue (num := Q) moves N (normalTransitions N a b [])
      (set_abortProcessing false
         (set_isSolving true
            (set_isProcessingQueue true
               (set_lastQueuedStep b
                  (set_animationQueue (normalTransitions N a b [])
                     (set_abortProcessing false s)))))).
Proof.
  intros Ha HaN Hb HbN Hab Hidle Hrun Hq Hlast Hn.
  destruct (normalTransitions_moves a b Ha HaN Hb HbN Hab) as (Hm & _ & Hne).
  unfold normalPath. cbv zeta.
  cbn [animationQueue set_abortProcessing]. rewrite Hq, Hlast.
  rewrite processQueue_settle; cbn [animationQueue isProcessingQueue running
    set_lastQueuedStep set_animationQueue set_abortProcessing];
    try assumption; [reflexivity |].
  pose proof (queue_rotations_bound (num := Q) moves N (normalTransitions N a b [])) as Hr.
  rewrite Hm in Hr. pose proof (plan_length a b). lia.
Qed.

End Navigation.

Lemma playQueue_isJumping {num : Type} {NUM : JSNumber num}
    (moves : list string) (N : nat) (queue : list Transition) (s : Controller) :
  isJumping (playQueue moves N queue s) = isJumping s.
Proof.
  revert s. induction queue as [| t queue IH]; intros s; [reflexivity |].
  cbn [playQueue]. cbv zeta. rewrite IH, awaitApplyMoves_perform.
  cbn [isJumping set_currentAnimatedStep].
  destruct (perform_frame
              (flat_map (fun move => applyMove move (snd (transitionPlan moves N t)))
                 (fst (transitionPlan moves N t)))
              (set_animationQueue queue s)) as (_ & _ & _ & _ & _ & _ & _ & H & _).
  rewrite H. reflexivity.
Qed.

(** The normal path takes a controller at rest on a milestone to rest on
    the next one. *)
Lemma normalPath_lands (moves : list string) (N : nat)
    (solve : Cube -> string) (a b : Z) (s : Controller) (n : nat) :
  (3 <= N)%nat -> moves <> [] -> forallb isMoveToken moves = true ->
  0 <= a -> a < Z.of_nat N -> 0 <= b -> b < Z.of_nat N -> a <> b ->
  (a = Z.of_nat N - 1 -> b <> Z.of_nat N - 2) ->
  (b = Z.of_nat N - 1 -> a = Z.of_nat N - 2) ->
  atRestOn (num := Q) moves N a s ->
  (2 * List.length moves <= n)%nat ->
  let s' := settle (num := Q) moves N n (stepChanged (num := Q) moves N solve b s) in
  atRestOn (num := Q) moves N b s' /\
  isSolving s' = false /\ currentAnimatedStep s' = b.
Proof.
  intros HN Hne Htok Ha HaN Hb HbN Hab Hjump Hsolve
    (Hidle & Hrun & Hq & Hj & Hlast & Hlog & Harr) Hn s'.
  assert (Hpath : stepChanged (num := Q) moves N solve b s
                  = normalPath (num := Q) moves N b s).
  { unfold stepChanged. rewrite (scrambled_length moves Hne), Hj.
    unfold handleStepChange. cbv zeta. rewrite Hlast.
    destruct (Z.eqb_spec b a); [lia |].
    destruct (Z.eqb_spec a (Z.of_nat N - 1)), (Z.eqb_spec b (Z.of_nat N - 2)),
      (Z.eqb_spec b (Z.of_nat N - 1)), (Z.eqb_spec a (b - 1));
      cbn [andb negb]; try reflexivity; lia. }
  subst s'. rewrite Hpath.
  rewrite (normalPath_settle moves N Hne HN a b s n) by assumption.
  destruct (normalTransitions_moves moves N Hne HN a b Ha HaN Hb HbN Hab) as (Hm & Hl & Hq').
  set (queue := normalTransitions N a b []) in *.
  set (s0 := set_abortProcessing false (set_isSolving true _)).
  destruct (playQueue_control (num := Q) moves N queue s0)
    as (C1 & C2 & C3 & C4 & C5 & _ & C7).
  destruct (playQueue_cube (num := Q) moves N queue s0) as (_ & P2 & _).
  split; [unfold atRestOn;
          split; [| split; [| split; [| split; [| split; [| split]]]]] | split].
  - exact C2.
  - exact C1.
  - rewrite C4. destruct queue; [contradiction | reflexivity].
  - rewrite playQueue_isJumping. exact Hj.
  - rewrite C7. reflexivity.
  - rewrite P2, Hm. cbn [logicalCube s0 set_abortProcessing set_isSolving
      set_isProcessingQueue set_lastQueuedStep set_animationQueue].
    rewrite Hlog. apply plan_moves_cube; assumption.
  - rewrite playQueue_arrangement
      by (rewrite Hm; apply plan_tokens, Htok).
    rewrite Hm. cbn [cubies s0 set_abortProcessing set_isSolving
      set_isProcessingQueue set_lastQueuedStep set_animationQueue].
    rewrite Harr. apply plan_moves_cube; assumption.
  - exact C3.
  - rewrite C5. destruct queue as [| t q]; [contradiction |].
    cbn [map] in *. rewrite last_cons in *. exact Hl.
Qed.

(** With three milestones or more and in exact arithmetic, the normal
    path keeps the cube on the checkpoints. Let the controller be idle on
    milestone [a], with the logical cube and the pieces where the scramble
    undone and the moves of step [a] take the solved cube. A step change to
    another milestone [b] that goes down the normal path (neither the jump
    back from the last milestone nor the dynamic solve), followed until
    its rotations have resolved (two per move of the scramble are enough),
    leaves the controller idle on milestone [b], with the logical cube and
    the pieces where the moves of step [b] take the solved cube. *)
Theorem normal_path_reaches_the_milestone (moves : list string) (N : nat)
    (solve : Cube -> string) (a b : Z) (s : Controller) (n : nat) :
  (3 <= N)%nat -> moves <> [] -> forallb isMoveToken moves = true ->
  0 <= a -> a < Z.of_nat N -> 0 <= b -> b < Z.of_nat N -> a <> b ->
  (a = Z.of_nat N - 1 -> b <> Z.of_nat N - 2) ->
  (b = Z.of_nat N - 1 -> a = Z.of_nat N - 2) ->
  isProcessingQueue s = false -> running s = None -> animationQueue s = [] ->
  isJumping s = false -> lastQueuedStep s = a ->
  logicalCube s = Cube_moves (stepMoves (num := Q) moves N a) Cube_new ->
  arrangement (cubies s) = Cube_moves (stepMoves (num := Q) moves N a) Cube_new ->
  (2 * List.length moves <= n)%nat ->
  let s' := settle (num := Q) moves N n (stepChanged (num := Q) moves N solve b s) in
  animationQueue s' = [] /\ running s' = None /\
  isProcessingQueue s' = false /\ isSolving s' = false /\
  lastQueuedStep s' = b /\ currentAnimatedStep s' = b /\
  logicalCube s' = Cube_moves (stepMoves (num := Q) moves N b) Cube_new /\
  arrangement (cubies s') = Cube_moves (stepMoves (num := Q) moves N b) Cube_new.
Proof.
  intros HN Hne Htok Ha HaN Hb HbN Hab Hjump Hsolve Hidle Hrun Hq Hj Hlast Hlog Harr Hn s'.
  destruct (normalPath_lands moves N solve a b s n HN Hne Htok Ha HaN Hb HbN Hab
              Hjump Hsolve (conj Hidle (conj Hrun (conj Hq (conj Hj (conj Hlast
                (conj Hlog Harr)))))) Hn)
    as ((R1 & R2 & R3 & _ & R5 & R6 & R7) & Hsolving & Hstep).
  fold s' in R1, R2, R3, R5, R6, R7, Hsolving, Hstep.
  split; [exact R3 |]. split; [exact R2 |]. split; [exact R1 |]. split; [exact Hsolving |].
  split; [exact R5 |]. split; [exact Hstep |]. split; [exact R6 | exact R7].
Qed.

Lemma normal_path_reaches_the_milestone_witness :
  logicalCube
    (settle (num := Q) fourMoves 5 8
       (stepChanged (num := Q) fourMoves 5 (fun _ => "") 2 (initCube fourMoves mounted)))
  = Cube_moves (stepMoves (num := Q) fourMoves 5 2) Cube_new.
Proof.
  pose proof (normal_path_reaches_the_milestone fourMoves 5 (fun _ => "") 0 2
                (initCube fourMoves mounted) 8) as H.
  cbv zeta in H.
  apply H; try (vm_compute; reflexivity); try lia; try discriminate; cbn; lia.
Defined.

Lemma Cube_move_invertMove_back (m : string) (cube : Cube) :
  isMoveToken m = true -> Cube_move m (Cube_move (invertMove m) cube) = cube.
Proof.
  intros H. each_token H;
    cbn [invertMove includes String.prefix orb replace string_drop String.length
         append Cube_move faceLayer tokenTurns];
    cbn; unfold Cube_turn; rewrite turnLayer_add; apply turnLayer_full; reflexivity.
Qed.

Lemma Cube_moves_redo (l : list string) (cube : Cube) :
  forallb isMoveToken l = true ->
  Cube_moves l (Cube_moves (map invertMove (rev l)) cube) = cube.
Proof.
  revert cube. induction l as [| m l IH]; intros cube Hl; [reflexivity |].
  cbn [forallb] in Hl. apply andb_prop in Hl as [Hm Hl].
  cbn [rev]. rewrite map_app, Cube_moves_app. cbn [map].
  change (Cube_moves (m :: l) ?c) with (Cube_moves l (Cube_move m c)).
  change (Cube_moves [invertMove m] ?c) with (Cube_move (invertMove m) c).
  rewrite Cube_move_invertMove_back by exact Hm. apply IH. exact Hl.
Qed.

Section Walk.

Variable moves : list string.
Variable N : nat.
Variable solve : Cube -> string.
Hypothesis scrambled : moves <> [].
Hypothesis milestones : (3 <= N)%nat.
Hypothesis tokens : forallb isMoveToken moves = true.

(** The moves of the last step take the solved cube back to itself. *)
Lemma last_step_solved :
  Cube_moves (stepMoves (num := Q) moves N (Z.of_nat N - 1)) Cube_new = Cube_new.
Proof.
  unfold stepMoves.
  rewrite (reach_prefix moves N scrambled milestones) by lia.
  rewrite (checkpoint_last moves N scrambled milestones), slice_whole.
  rewrite Cube_moves_app. apply Cube_moves_redo. exact tokens.
Qed.

(** Stepping up one milestone at a time, each step left to settle. *)
Lemma walk_up (n : nat) (count : nat) :
  forall (a : nat) (s : Controller),
  (2 * List.length moves <= n)%nat ->
  (a + count < N)%nat ->
  atRestOn (num := Q) moves N (Z.of_nat a) s ->
  atRestOn (num := Q) moves N (Z.of_nat (a + count))
    (fold_left
       (fun st k => settle (num := Q) moves N n
                      (stepChanged (num := Q) moves N solve (Z.of_nat k) st))
       (seq (S a) count) s).
Proof.
  induction count as [| count IH]; intros a s Hn Hlt Hrest.
  - rewrite Nat.add_0_r. exact Hrest.
  - cbn [seq fold_left].
    replace (a + S count)%nat with (S a + count)%nat by lia.
    apply IH; [exact Hn | lia |].
    apply (normalPath_lands moves N solve (Z.of_nat a) (Z.of_nat (S a)) s n);
      try assumption; lia.
Qed.

End Walk.

(** Stepping through the milestones solves the cube. With three
    milestones or more, a scramble of move tokens and exact arithmetic:
    from a controller at rest on the first milestone (where [initCube]
    leaves a freshly mounted cube), going to milestones 1, 2, ... up to the
    last, one step at a time and each left to settle, ends at rest on the
    last milestone with the logical cube and the pieces solved. *)
Theorem stepping_through_solves_the_cube (moves : list string) (N : nat)
    (solve : Cube -> string) (s : Controller) (n : nat) :
  (3 <= N)%nat -> moves <> [] -> forallb isMoveToken moves = true ->
  (2 * List.length moves <= n)%nat ->
  atRestOn (num := Q) moves N 0 s ->
  let s' :=
    fold_left
      (fun st k => settle (num := Q) moves N n
                     (stepChanged (num := Q) moves N solve (Z.of_nat k) st))
      (seq 1 (N - 1)) s in
  atRestOn (num := Q) moves N 0 (initCube moves mounted) /\
  atRestOn (num := Q) moves N (Z.of_nat N - 1) s' /\
  logicalCube s' = Cube_new /\ arrangement (cubies s') = Cube_new.
Proof.
  intros HN Hne Htok Hn Hrest s'.
  assert (Hs' : atRestOn (num := Q) moves N (Z.of_nat N - 1) s').
  { replace (Z.of_nat N - 1) with (Z.of_nat (0 + (N - 1))) by lia.
    apply (walk_up moves N solve Hne HN Htok n (N - 1) 0 s); [exact Hn | lia | exact Hrest]. }
  split; [| split; [exact Hs' |]].
  - unfold atRestOn.
    assert (Hzero : stepMoves (num := Q) moves N 0 = map invertMove (rev moves)).
    { unfold stepMoves. rewrite (reach_prefix moves N Hne HN) by lia.
      rewrite (checkpoint_first moves N Hne HN).
      rewrite slice_nonneg by lia. cbn [Z.to_nat Nat.sub firstn]. apply app_nil_r. }
    rewrite Hzero. unfold initCube. cbv zeta.
    set (s1 := awaitApplyMoves (map invertMove (rev moves)) 0 (set_logicalCube Cube_new mounted)).
    cbn [isProcessingQueue running animationQueue isJumping lastQueuedStep logicalCube cubies
         set_lastQueuedStep set_currentAnimatedStep].
    unfold s1. rewrite awaitApplyMoves_perform.
    destruct (perform_frame
                (flat_map (fun move => applyMove move 0) (map invertMove (rev moves)))
                (set_logicalCube Cube_new mounted))
      as (F1 & _ & F3 & F4 & _ & _ & _ & F8 & _).
    rewrite F1, F3, F4, F8. rewrite <- awaitApplyMoves_perform.
    rewrite awaitApplyMoves_logicalCube.
    rewrite awaitApplyMoves_arrangement by (apply inverted_tokens, Htok).
    repeat (split; [reflexivity |]). reflexivity.
  - destruct Hs' as (_ & _ & _ & _ & _ & Hlog & Harr).
    rewrite Hlog, Harr. rewrite (last_step_solved moves N Hne HN Htok). split; reflexivity.
Qed.

Lemma stepping_through_solves_the_cube_witness :
  logicalCube
    (fold_left
       (fun st k => settle (num := Q) fourMoves 5 8
                      (stepChanged (num := Q) fourMoves 5 (fun _ => "") (Z.of_nat k) st))
       (seq 1 4) (initCube fourMoves mounted))
  = Cube_new.
Proof.
  pose proof (stepping_through_solves_the_cube fourMoves 5 (fun _ => "")
                (initCube fourMoves mounted) 8
                ltac:(lia) ltac:(discriminate) eq_refl ltac:(cbn; lia)) as H.
  cbv zeta in H.
  assert (Hrest : atRestOn (num := Q) fourMoves 5 0 (initCube fourMoves mounted))
    by (unfold atRestOn; repeat split; vm_compute; reflexivity).
  destruct (H Hrest) as (_ & _ & Hlog & _). exact Hlog.
Defined.

(* ================================================================= *)
(** ** The dynamic solve, followed to its end *)

Section DynamicSolve.

Context {num : Type} {NUM : JSNumber num}.
Variable moves : list string.
Variable N : nat.
Variable solve : Cube -> string.

(** A step change to the last milestone from any milestone but the last
    two, outside a jump, is a dynamic solve. *)
Lemma stepChanged_dynamicSolve (b : Z) (s : Controller) :
  moves <> [] -> b = Z.of_nat N - 1 ->
  lastQueuedStep s <> b -> lastQueuedStep s <> b - 1 -> isJumping s = false ->
  stepChanged moves N solve b s = dynamicSolve moves N solve b s.
Proof.
  intros Hne Hb Hlast Hprev Hj. unfold stepChanged.
  rewrite (scrambled_length moves Hne), Hj. unfold handleStepChange. cbv zeta.
  destruct (Z.eqb_spec b (lastQueuedStep s)); [congruence |].
  destruct (Z.eqb_spec (lastQueuedStep s) (Z.of_nat N - 1)); [congruence |].
  destruct (Z.eqb_spec b (Z.of_nat N - 1)); [| congruence].
  destruct (Z.eqb_spec (lastQueuedStep s) (b - 1)); [congruence |].
  reflexivity.
Qed.

(** A queue pass resumed at the end of the rotation it waits for, with no
    cancellation on the way: the rest of its move, the rest of its
    transition and then the queue as it stands are played. *)
Lemma inflight_settle (s : Controller) (to : Z) (rest : list string) (d : Q)
    (call : SliceCall) (after : list Action) (m : nat) :
  running s = Some (mkPending (QueuePass to rest d) call after) ->
  abortProcessing s = false ->
  settle moves N
    (S (List.length (rotationsOf after)
        + (List.length (rotationsOf (flat_map (fun move => applyMove move d) rest))
           + (List.length (rotationsOf (queueActions moves N (animationQueue s))) + m))))
    s
  = playQueue moves N (animationQueue s)
      (set_currentAnimatedStep to
         (awaitApplyMoves rest d
            (fold_left (fun st a => perform a st) after
               (endRotation call (set_running None s))))).
Proof.
  intros Hrun Habort. rewrite settle_S. unfold rotationDone. rewrite Hrun.
  cbn [p_inflight p_after p_caller]. cbv zeta.
  set (s1 := endRotation call (set_running None s)).
  assert (Hrun1 : running s1 = None) by reflexivity.
  assert (Habort1 : abortProcessing s1 = false) by exact Habort.
  assert (Hq1 : animationQueue s1 = animationQueue s) by reflexivity.
  rewrite (resume_settle moves N to rest d after s1 _ Hrun1).
  destruct (perform_frame after s1) as (F1 & F2 & F3 & _).
  rewrite (forMoves_settle moves N to d rest) by congruence.
  rewrite awaitApplyMoves_perform.
  set (s2 := fold_left (fun st a => perform a st) after s1) in *.
  destruct (perform_frame (flat_map (fun move => applyMove move d) rest) s2)
    as (G1 & G2 & G3 & _).
  rewrite G3, F3, Hq1.
  apply whileQueue_settle; cbn [running abortProcessing set_currentAnimatedStep];
    congruence.
Qed.

End DynamicSolve.

Lemma quarter_cases (d : Z) :
  (cosq d = 1 /\ sinq d = 0) \/ (cosq d = 0 /\ sinq d = 1) \/
  (cosq d = -1 /\ sinq d = 0) \/ (cosq d = 0 /\ sinq d = -1).
Proof.
  unfold cosq, sinq.
  destruct (quarter_residue d) as [H | [H | [H | H]]]; rewrite H; tauto.
Qed.

(** A quarter turn takes centres to centres and the other pieces to other
    pieces. *)
Lemma isCentre_rotateVec (axis : Axis) (d : Z) (v : Vec) :
  isCentre (rotateVec axis d v) = isCentre v.
Proof.
  destruct v as [[vx vy] vz]. unfold rotateVec. cbv zeta.
  destruct (quarter_cases d) as [[Hc Hs] | [[Hc Hs] | [[Hc Hs] | [Hc Hs]]]];
    rewrite Hc, Hs; destruct axis; unfold isCentre;
    repeat match goal with
           | |- context [?a =? 0] => destruct (Z.eqb_spec a 0)
           end; try reflexivity; lia.
Qed.

Lemma uptoCentres_twice (cube : Cube) : uptoCentres (uptoCentres cube) = uptoCentres cube.
Proof.
  unfold uptoCentres. rewrite map_map. apply map_ext. intros [v r]. cbn [fst].
  destruct (isCentre v) eqn:Hc; cbn [fst]; rewrite Hc; reflexivity.
Qed.

Lemma uptoCentres_turnLayer (axis : Axis) (side d : Z) (cube : Cube) :
  uptoCentres (turnLayer axis side d (uptoCentres cube))
  = uptoCentres (turnLayer axis side d cube).
Proof.
  unfold uptoCentres, turnLayer. rewrite !map_map. apply map_ext. intros [v r].
  cbn [fst snd].
  destruct (isCentre v) eqn:Hc; cbn [fst snd];
    destruct (coord axis v =? side); cbn [fst snd];
    rewrite ?isCentre_rotateVec, ?Hc; reflexivity.
Qed.

Lemma uptoCentres_Cube_move (m : string) (cube : Cube) :
  uptoCentres (Cube_move m (uptoCentres cube)) = uptoCentres (Cube_move m cube).
Proof.
  unfold Cube_move. destruct m as [| face modifier]; [apply uptoCentres_twice |].
  destruct (faceLayer face) as [[axis side] |]; [| apply uptoCentres_twice].
  destruct (tokenTurns modifier); [| apply uptoCentres_twice].
  apply uptoCentres_turnLayer.
Qed.

Lemma uptoCentres_Cube_moves (l : list string) :
  forall cube : Cube,
  uptoCentres (Cube_moves l (uptoCentres cube)) = uptoCentres (Cube_moves l cube).
Proof.
  induction l as [| m l IH]; intros cube; [apply uptoCentres_twice |].
  change (Cube_moves (m :: l) ?c) with (Cube_moves l (Cube_move m c)).
  rewrite <- (IH (Cube_move m (uptoCentres cube))), uptoCentres_Cube_move.
  apply IH.
Qed.

(** Moves do not tell apart two states that differ in the turning of
    their centres only. *)
Lemma Cube_moves_uptoCentres (l : list string) (a b : Cube) :
  uptoCentres a = uptoCentres b ->
  uptoCentres (Cube_moves l a) = uptoCentres (Cube_moves l b).
Proof.
  intros H. rewrite <- (uptoCentres_Cube_moves l a), <- (uptoCentres_Cube_moves l b), H.
  reflexivity.
Qed.

(** Six moves played twice turn the centre of the upper face by a half
    turn and restore everything else: the state is solved for the solver
    and on screen, and is not the state of a new cube. *)
Remark centre_twist_is_solved :
  let twist := ["U"; "R"; "L"; "U2"; "R'"; "L'"] in
  solvedCube (Cube_moves (twist ++ twist) Cube_new) /\
  Cube_moves (twist ++ twist) Cube_new <> Cube_new.
Proof. intros twist. split; vm_compute; [reflexivity | discriminate]. Qed.

(** The dynamic solve from a controller at rest. A step change to the
    last milestone that takes the dynamic-solve branch, on a controller
    that is not processing and has nothing in flight, drops whatever was
    queued and plays the non-blank words of the solver's answer for the
    logical cube as it is. When these words are move tokens: once the
    rotations have resolved (two per word are enough) the controller is
    idle on the last milestone, and the logical cube and the pieces have
    both gone through exactly those words. So if the pieces showed what
    the logical cube held, the turning of centres apart, and the answer
    solves the logical cube, the turning of centres apart (the solver
    records none), then the logical cube and the pieces both end
    solved. *)
Theorem dynamic_solve_plays_the_answer {num : Type} {NUM : JSNumber num}
    (moves : list string) (N : nat) (solve : Cube -> string)
    (b : Z) (s : Controller) (n : nat) :
  moves <> [] -> b = Z.of_nat N - 1 ->
  lastQueuedStep s <> b -> lastQueuedStep s <> b - 1 ->
  isJumping s = false -> isProcessingQueue s = false -> running s = None ->
  let answer := filter notBlank (split_space (solve (logicalCube s))) in
  forallb isMoveToken answer = true ->
  (2 * List.length answer <= n)%nat ->
  let s' := settle moves N n (stepChanged moves N solve b s) in
  animationQueue s' = [] /\ running s' = None /\
  isProcessingQueue s' = false /\ isSolving s' = false /\
  lastQueuedStep s' = b /\ currentAnimatedStep s' = b /\
  logicalCube s' = Cube_moves answer (logicalCube s) /\
  arrangement (cubies s') = Cube_moves answer (arrangement (cubies s)) /\
  (uptoCentres (arrangement (cubies s)) = uptoCentres (logicalCube s) ->
   solvedCube (Cube_moves answer (logicalCube s)) ->
   solvedCube (logicalCube s') /\ solvedCube (arrangement (cubies s'))).
Proof.
  intros Hne Hb Hlast Hprev Hj Hidle Hrun answer Htok Hn s'. subst s'.
  rewrite (stepChanged_dynamicSolve moves N solve b s) by assumption.
  unfold dynamicSolve. cbv zeta.
  cbn [animationQueue logicalCube set_abortProcessing set_animationQueue app].
  fold answer.
  set (queue := [mkTransition (lastQueuedStep s) b (Some answer)]).
  set (s1 := set_lastQueuedStep b _).
  assert (Hmoves : queueMoves moves N queue = answer)
    by (unfold queue, queueMoves; cbn; apply app_nil_r).
  rewrite (processQueue_settle moves N s1 n); try assumption;
    [| discriminate
     | pose proof (queue_rotations_bound moves N queue) as Hr;
       rewrite Hmoves in Hr; exact (Nat.le_trans _ _ _ Hr Hn)].
  change (animationQueue s1) with queue.
  set (s0 := set_abortProcessing false (set_isSolving true _)).
  destruct (playQueue_control moves N queue s0) as (C1 & C2 & C3 & C4 & C5 & _ & C7).
  destruct (playQueue_cube moves N queue s0) as (_ & P2 & _).
  assert (Hlog : logicalCube (playQueue moves N queue s0)
                 = Cube_moves answer (logicalCube s))
    by (rewrite P2, Hmoves; reflexivity).
  assert (Harr : arrangement (cubies (playQueue moves N queue s0))
                 = Cube_moves answer (arrangement (cubies s)))
    by (rewrite playQueue_arrangement by (rewrite Hmoves; exact Htok);
        rewrite Hmoves; reflexivity).
  split; [exact C4 |]. split; [exact C1 |]. split; [exact C2 |]. split; [exact C3 |].
  split; [rewrite C7; reflexivity |]. split; [rewrite C5; reflexivity |].
  split; [exact Hlog |]. split; [exact Harr |].
  intros Hsync Hsolved. unfold solvedCube in *. rewrite Hlog, Harr.
  split; [exact Hsolved |].
  rewrite (Cube_moves_uptoCentres answer _ _ Hsync). exact Hsolved.
Qed.

Lemma dynamic_solve_plays_the_answer_witness :
  solvedCube
    (arrangement
       (cubies
          (settle (num := Q) fourMoves 5 12
             (stepChanged (num := Q) fourMoves 5 (fun _ => "U R L U2 R' L'") 4
                (awaitApplyMoves ["U"; "R"; "L"; "U2"; "R'"; "L'"] 0 mounted))))).
Proof.
  pose proof (dynamic_solve_plays_the_answer (num := Q) fourMoves 5
                (fun _ => "U R L U2 R' L'") 4
                (awaitApplyMoves ["U"; "R"; "L"; "U2"; "R'"; "L'"] 0 mounted) 12
                ltac:(discriminate) eq_refl ltac:(discriminate) ltac:(discriminate)
                eq_refl eq_refl eq_refl) as H.
  cbv zeta in H.
  specialize (H ltac:(vm_compute; reflexivity) ltac:(vm_compute; lia)).
  destruct H as (_ & _ & _ & _ & _ & _ & _ & _ & H).
  apply H; vm_compute; reflexivity.
Defined.

(** The dynamic solve requested in the middle of a queue pass. The step
    change finds the pass busy, so it only replaces the queue by the
    transition carrying the solver's answer for the logical cube as it is
    at that moment. The pass was not cancelled: it goes on with the rest of
    the move in flight and the moves still to come of its transition, and
    plays the answer after them. The logical cube ends where the answer
    takes the state reached by those remaining moves, not the state the
    solver was asked about. *)
Theorem solve_during_a_pass_comes_after_its_transition
    {num : Type} {NUM : JSNumber num}
    (moves : list string) (N : nat) (solve : Cube -> string) (b : Z) (s : Controller)
    (to : Z) (rest : list string) (d : Q) (call : SliceCall) (after : list Action)
    (n : nat) :
  moves <> [] -> b = Z.of_nat N - 1 ->
  lastQueuedStep s <> b -> lastQueuedStep s <> b - 1 -> isJumping s = false ->
  isProcessingQueue s = true ->
  running s = Some (mkPending (QueuePass to rest d) call after) ->
  let answer := filter notBlank (split_space (solve (logicalCube s))) in
  (1 + List.length (rotationsOf after) + 2 * List.length rest + 2 * List.length answer
   <= n)%nat ->
  let s' := settle moves N n (stepChanged moves N solve b s) in
  animationQueue s' = [] /\ running s' = None /\ isProcessingQueue s' = false /\
  lastQueuedStep s' = b /\ currentAnimatedStep s' = b /\
  logicalCube s'
  = Cube_moves answer (Cube_moves rest (Cube_moves (logicalMovesOf after) (logicalCube s))).
Proof.
  intros Hne Hb Hlast Hprev Hj Hbusy Hrun answer Hn s'. subst s'.
  rewrite (stepChanged_dynamicSolve moves N solve b s) by assumption.
  unfold dynamicSolve. cbv zeta.
  cbn [animationQueue logicalCube set_abortProcessing set_animationQueue app].
  fold answer.
  set (queue := [mkTransition (lastQueuedStep s) b (Some answer)]).
  set (s1 := set_lastQueuedStep b _).
  assert (Hmoves : queueMoves moves N queue = answer)
    by (unfold queue, queueMoves; cbn; apply app_nil_r).
  assert (Hp : processQueue moves N s1 = s1)
    by (unfold processQueue; change (isProcessingQueue s1) with (isProcessingQueue s);
        rewrite Hbusy; reflexivity).
  rewrite Hp.
  pose proof (queue_rotations_bound moves N queue) as Hr. rewrite Hmoves in Hr.
  pose proof (rotations_bound rest d) as Hr'.
  set (k := (List.length (rotationsOf after)
             + (List.length (rotationsOf (flat_map (fun move => applyMove move d) rest))
                + List.length (rotationsOf (queueActions moves N queue))))%nat) in *.
  replace n with
    (S (List.length (rotationsOf after)
        + (List.length (rotationsOf (flat_map (fun move => applyMove move d) rest))
           + (List.length (rotationsOf (queueActions moves N (animationQueue s1)))
              + (n - S k)))))%nat
    by (change (animationQueue s1) with queue; unfold k; lia).
  rewrite (inflight_settle moves N s1 to rest d call after) by (exact Hrun || reflexivity).
  change (animationQueue s1) with queue.
  set (s0 := set_currentAnimatedStep to _).
  destruct (playQueue_control moves N queue s0) as (C1 & C2 & _ & C4 & C5 & _ & C7).
  destruct (playQueue_cube moves N queue s0) as (_ & P2 & _).
  split; [exact C4 |]. split; [exact C1 |]. split; [exact C2 |].
  split; [| split].
  - rewrite C7. unfold s0. cbn [lastQueuedStep set_currentAnimatedStep].
    rewrite awaitApplyMoves_perform.
    destruct (perform_frame (flat_map (fun move => applyMove move d) rest)
                (fold_left (fun st a => perform a st) after
                   (endRotation call (set_running None s1))))
      as (_ & _ & _ & _ & _ & _ & F7 & _).
    destruct (perform_frame after (endRotation call (set_running None s1)))
      as (_ & _ & _ & _ & _ & _ & G7 & _).
    rewrite F7, G7. reflexivity.
  - rewrite C5. reflexivity.
  - rewrite P2, Hmoves. unfold s0. cbn [logicalCube set_currentAnimatedStep].
    rewrite awaitApplyMoves_logicalCube, perform_logicalCube. reflexivity.
Qed.

Lemma solve_during_a_pass_comes_after_its_transition_witness :
  let s := processQueue (num := Q) fourMoves 5
             (set_animationQueue [mkTransition 0 2 (Some ["R"; "U"])]
                (initCube fourMoves mounted)) in
  logicalCube (settle (num := Q) fourMoves 5 8
                 (stepChanged (num := Q) fourMoves 5 (fun _ => "R'") 4 s))
  = Cube_moves ["R'"] (Cube_moves ["U"] (logicalCube s)).
Proof.
  intros s.
  pose proof (solve_during_a_pass_comes_after_its_transition (num := Q) fourMoves 5
                (fun _ => "R'") 4 s 2 ["U"] (25 # 100) (moveCall "R" (25 # 100)) [] 8
                ltac:(discriminate) eq_refl ltac:(discriminate) ltac:(discriminate)
                eq_refl eq_refl eq_refl) as H.
  cbv zeta in H. specialize (H ltac:(vm_compute; lia)).
  destruct H as (_ & _ & _ & _ & _ & H). exact H.
Defined.

(* ================================================================= *)
(** ** Steps requested while a pass is running *)

Section PassStates.

Context {num : Type} {NUM : JSNumber num}.
Variable moves : list string.
Variable N : nat.
Variable b : Z.

Lemma settle_add (k n : nat) (s : Controller) :
  settle moves N (k + n) s = settle moves N n (settle moves N k s).
Proof.
  revert s. induction k as [| k IH]; intros s; [reflexivity |].
  cbn [Nat.add]. rewrite !settle_S. apply IH.
Qed.

Lemma runToAwait_passing (acts : list Action) (s : Controller) :
  passing b s -> passing b (fst (runToAwait acts s)).
Proof.
  revert s. induction acts as [| [m | call] acts IH]; intros s Hs; cbn [runToAwait fst];
    [exact Hs | apply IH; exact Hs | exact Hs].
Qed.

Lemma forMoves_state (k : Controller -> Controller) (to : Z) (d : Q)
    (tokens : list string) :
  (forall s', passing b s' -> waitingOrOver b (k s')) ->
  forall s, passing b s -> waitingOrOver b (forMoves k to d tokens s).
Proof.
  intros Hk. induction tokens as [| m tokens IH]; intros s Hs; cbn [forMoves];
    [apply Hk, Hs |].
  destruct Hs as (Habort & Hrest). rewrite Habort.
  pose proof (runToAwait_passing (applyMove m d) s (conj Habort Hrest)) as Hp.
  destruct (runToAwait (applyMove m d) s) as [s' [[call after] |]]; cbn [fst] in Hp.
  - left. split; [exact Hp |]. exists to, tokens, d, call, after. reflexivity.
  - apply IH. exact Hp.
Qed.

Lemma whileQueue_state (queue : list Transition) :
  forall s, passing b s -> waitingOrOver b (whileQueue moves N queue s).
Proof.
  induction queue as [| t queue IH]; intros s Hs; cbn [whileQueue];
    [right; reflexivity |].
  destruct Hs as (Habort & Hrest). rewrite Habort.
  destruct (match t_moves t with
            | Some tokens => (tokens, (25 # 100)%Q)
            | None => getMovesForTransition moves N (t_from t) (t_to t)
            end) as [tokens d].
  apply forMoves_state; [| exact (conj Habort Hrest)].
  intros s' Hs'. apply IH. exact Hs'.
Qed.

Lemma rotationDone_state (s : Controller) :
  waitingOrOver b s -> waitingOrOver b (rotationDone moves N s).
Proof.
  intros [(Hs & to & rest & d & call & after & Hrun) | Hnone].
  - unfold rotationDone. rewrite Hrun. cbn [p_inflight p_after p_caller]. cbv zeta.
    assert (H0 : passing b (endRotation call (set_running None s))) by exact Hs.
    pose proof (runToAwait_passing after _ H0) as Hp.
    destruct (runToAwait after (endRotation call (set_running None s)))
      as [s' [[call' after'] |]]; cbn [fst] in Hp.
    + left. split; [exact Hp |]. exists to, rest, d, call', after'. reflexivity.
    + apply forMoves_state; [| exact Hp].
      intros s'' Hs''. apply whileQueue_state. exact Hs''.
  - right. unfold rotationDone. rewrite Hnone. exact Hnone.
Qed.

Lemma settle_state (k : nat) (s : Controller) :
  waitingOrOver b s -> waitingOrOver b (settle moves N k s).
Proof.
  revert s. induction k as [| k IH]; intros s Hs; [exact Hs |].
  rewrite settle_S. apply IH, rotationDone_state, Hs.
Qed.

(** A pass begun by [processQueue], at any later frame. *)
Lemma pass_state (k : nat) (s : Controller) :
  isProcessingQueue s = false -> animationQueue s <> [] ->
  isJumping s = false -> lastQueuedStep s = b ->
  let s2 := settle moves N k (processQueue moves N s) in
  (abortProcessing s2 = false /\ isProcessingQueue s2 = true /\
   isJumping s2 = false /\ lastQueuedStep s2 = b /\
   exists to rest d call after,
     running s2 = Some (mkPending (QueuePass to rest d) call after)) \/
  running s2 = None.
Proof.
  intros Hidle Hq Hj Hlast s2.
  assert (H : waitingOrOver b s2).
  { apply settle_state. unfold processQueue. rewrite Hidle.
    destruct (animationQueue s) as [| t q] eqn:E; [contradiction |].
    cbn [List.length Nat.eqb orb]. cbv zeta. apply whileQueue_state.
    repeat split; assumption. }
  destruct H as [((H1 & H2 & H3 & H4) & H5) | H]; [left | right; exact H].
  repeat (split; [assumption |]). exact H5.
Qed.

End PassStates.

Lemma last_app_cons {A : Type} (l l' : list A) (x d : A) :
  last (l ++ x :: l') d = last (x :: l') d.
Proof.
  induction l as [| y l IH]; [reflexivity |].
  cbn [app]. rewrite <- IH.
  destruct (l ++ x :: l') as [| z r] eqn:E; [| reflexivity].
  apply app_eq_nil in E as [_ E]. discriminate.
Qed.

Lemma turnCalls_app (c1 c2 : list SliceCall) (cs : list Cubie) :
  turnCalls (c1 ++ c2) cs = turnCalls c2 (turnCalls c1 cs).
Proof. apply fold_left_app. Qed.

Section QueueAppended.

Context {num : Type} {NUM : JSNumber num}.
Variable moves : list string.
Variable N : nat.

Lemma queueActions_app (p q : list Transition) :
  queueActions moves N (p ++ q) = queueActions moves N p ++ queueActions moves N q.
Proof. apply flat_map_app. Qed.

(** The pieces after the slice calls of a queue of token moves. *)
Lemma turnCalls_arrangement (queue : list Transition) (cs : list Cubie) :
  forallb isMoveToken (queueMoves moves N queue) = true ->
  arrangement (turnCalls (rotationsOf (queueActions moves N queue)) cs)
  = Cube_moves (queueMoves moves N queue) (arrangement cs).
Proof.
  intros Htok.
  pose proof (playQueue_arrangement moves N queue (set_cubies cs mounted) Htok) as H.
  destruct (playQueue_cube moves N queue (set_cubies cs mounted)) as (_ & _ & P3).
  rewrite P3 in H. exact H.
Qed.

End QueueAppended.

(** Steps requested while a pass is running are played after it. With
    three milestones or more, a scramble of move tokens and exact
    arithmetic: the controller is at rest on milestone [a]; a step change
    to [b] goes down the normal path; at any later frame, whether that pass
    is still waiting for a rotation or is over, a further step change to
    [c] goes down the normal path too. Then from some number of frames on
    the controller is at rest on milestone [c], with
    [currentAnimatedStep] on [c]: a pass that is still running is neither
    cancelled nor restarted, it takes the new transitions when its own are
    done. *)
Theorem steps_during_a_pass_are_played_after_it (moves : list string) (N : nat)
    (solve : Cube -> string) (a b c : Z) (s : Controller) (k : nat) :
  (3 <= N)%nat -> moves <> [] -> forallb isMoveToken moves = true ->
  0 <= a -> a < Z.of_nat N -> 0 <= b -> b < Z.of_nat N -> 0 <= c -> c < Z.of_nat N ->
  a <> b -> (a = Z.of_nat N - 1 -> b <> Z.of_nat N - 2) ->
  (b = Z.of_nat N - 1 -> a = Z.of_nat N - 2) ->
  b <> c -> (b = Z.of_nat N - 1 -> c <> Z.of_nat N - 2) ->
  (c = Z.of_nat N - 1 -> b = Z.of_nat N - 2) ->
  atRestOn (num := Q) moves N a s ->
  let s2 := settle (num := Q) moves N k (stepChanged (num := Q) moves N solve b s) in
  exists n0 : nat, forall n : nat, (n0 <= n)%nat ->
    let s' := settle (num := Q) moves N n (stepChanged (num := Q) moves N solve c s2) in
    atRestOn (num := Q) moves N c s' /\
    isSolving s' = false /\ currentAnimatedStep s' = c.
Proof.
  intros HN Hne Htok Ha HaN Hb HbN Hc HcN Hab Hab1 Hab2 Hbc Hbc1 Hbc2 Hrest s2.
  (* the first pass, left alone, ends at rest on [b] *)
  assert (Hfirst : forall n, (2 * List.length moves <= n)%nat ->
            atRestOn (num := Q) moves N b
              (settle (num := Q) moves N n (stepChanged (num := Q) moves N solve b s))).
  { intros n Hn.
    apply (normalPath_lands moves N solve a b s n); assumption. }
  assert (Hstate :
    (abortProcessing s2 = false /\ isProcessingQueue s2 = true /\
     isJumping s2 = false /\ lastQueuedStep s2 = b /\
     exists to rest d call after,
       running s2 = Some (mkPending (QueuePass to rest d) call after)) \/
    running s2 = None).
  { destruct Hrest as (Hidle & Hrun & Hq & Hj & Hlast & _).
    destruct (normalTransitions_moves moves N Hne HN a b Ha HaN Hb HbN Hab) as (_ & _ & Hq').
    subst s2.
    assert (Hpath : stepChanged (num := Q) moves N solve b s
                    = processQueue (num := Q) moves N
                        (set_lastQueuedStep b
                           (set_animationQueue (normalTransitions N a b [])
                              (set_abortProcessing false s)))).
    { unfold stepChanged. rewrite (scrambled_length moves Hne), Hj.
      unfold handleStepChange. cbv zeta. rewrite Hlast.
      destruct (Z.eqb_spec b a); [lia |].
      destruct (Z.eqb_spec a (Z.of_nat N - 1)), (Z.eqb_spec b (Z.of_nat N - 2)),
        (Z.eqb_spec b (Z.of_nat N - 1)), (Z.eqb_spec a (b - 1));
        cbn [andb negb]; try lia;
        unfold normalPath; cbv zeta; cbn [animationQueue set_abortProcessing];
        rewrite Hq, Hlast; reflexivity. }
    rewrite Hpath.
    apply (pass_state (num := Q) moves N b k); [exact Hidle | exact Hq' | exact Hj | reflexivity]. }
  destruct Hstate as [(Habort & Hbusy & Hj2 & Hlast2 & to & rest & d & call & after & Hrun2)
                     | Hover].
  - (* the pass is still waiting for a rotation *)
    destruct (normalTransitions_moves moves N Hne HN b c Hb HbN Hc HcN Hbc)
      as (Hm & Hl & He).
    set (e := normalTransitions N b c []) in *.
    set (q2 := animationQueue s2).
    set (s3 := set_lastQueuedStep c
                 (set_animationQueue (q2 ++ e) (set_abortProcessing false s2))).
    assert (Hstep : stepChanged (num := Q) moves N solve c s2 = s3).
    { unfold stepChanged. rewrite (scrambled_length moves Hne), Hj2.
      unfold handleStepChange. cbv zeta. rewrite Hlast2.
      destruct (Z.eqb_spec c b); [lia |].
      destruct (Z.eqb_spec b (Z.of_nat N - 1)), (Z.eqb_spec c (Z.of_nat N - 2)),
        (Z.eqb_spec c (Z.of_nat N - 1)), (Z.eqb_spec b (c - 1));
        cbn [andb negb]; try lia;
        unfold normalPath, processQueue; cbv zeta;
        cbn [isProcessingQueue animationQueue set_lastQueuedStep set_animationQueue
             set_abortProcessing];
        rewrite Hbusy, Hlast2, (normalTransitions_app N b c (animationQueue s2));
        reflexivity. }
    set (r0 := (List.length (rotationsOf after)
                + List.length (rotationsOf (flat_map (fun move => applyMove move d) rest)))%nat).
    (* the first pass left alone, from [s2] *)
    set (X2 := set_currentAnimatedStep to
                 (awaitApplyMoves rest d
                    (fold_left (fun st act => perform act st) after
                       (endRotation call (set_running None s2))))).
    assert (Hf0 : atRestOn (num := Q) moves N b (playQueue (num := Q) moves N q2 X2)).
    { pose proof (inflight_settle (num := Q) moves N s2 to rest d call after
                    (2 * List.length moves) Hrun2 Habort) as H.
      fold q2 X2 in H. rewrite <- H. unfold s2. rewrite <- settle_add.
      apply Hfirst. lia. }
    destruct Hf0 as (_ & _ & _ & _ & _ & Hlog0 & Harr0).
    destruct (playQueue_cube (num := Q) moves N q2 X2) as (_ & P2 & P3).
    rewrite P2 in Hlog0. rewrite P3 in Harr0.
    (* the pass with the new transitions, from [s3] *)
    set (X3 := set_currentAnimatedStep to
                 (awaitApplyMoves rest d
                    (fold_left (fun st act => perform act st) after
                       (endRotation call (set_running None s3))))).
    assert (HX : logicalCube X3 = logicalCube X2 /\ cubies X3 = cubies X2 /\
                 lastQueuedStep X3 = c /\ isJumping X3 = false).
    { unfold X3, X2. cbn [logicalCube cubies lastQueuedStep isJumping set_currentAnimatedStep].
      rewrite !awaitApplyMoves_perform.
      rewrite !perform_logicalCube, !perform_cubies.
      destruct (perform_frame (flat_map (fun move => applyMove move d) rest)
                  (fold_left (fun st act => perform act st) after
                     (endRotation call (set_running None s3))))
        as (_ & _ & _ & _ & _ & _ & F7 & F8 & _).
      destruct (perform_frame after (endRotation call (set_running None s3)))
        as (_ & _ & _ & _ & _ & _ & G7 & G8 & _).
      rewrite F7, F8, G7, G8.
      repeat split; try reflexivity. exact Hj2. }
    destruct HX as (HXl & HXc & HXq & HXj).
    exists (S (r0 + List.length (rotationsOf (queueActions (num := Q) moves N (q2 ++ e))))).
    intros n Hn s'. subst s'. rewrite Hstep.
    replace n with
      (S (List.length (rotationsOf after)
          + (List.length (rotationsOf (flat_map (fun move => applyMove move d) rest))
             + (List.length (rotationsOf (queueActions (num := Q) moves N (animationQueue s3)))
                + (n - S (r0 + List.length
                                 (rotationsOf (queueActions (num := Q) moves N (q2 ++ e)))))))))%nat
      by (change (animationQueue s3) with (q2 ++ e); unfold r0 in *; lia).
    rewrite (inflight_settle (num := Q) moves N s3 to rest d call after)
      by (exact Hrun2 || reflexivity).
    change (animationQueue s3) with (q2 ++ e). fold X3.
    destruct (playQueue_control (num := Q) moves N (q2 ++ e) X3)
      as (C1 & C2 & C3 & C4 & C5 & _ & C7).
    destruct (playQueue_cube (num := Q) moves N (q2 ++ e) X3) as (_ & Q2 & Q3).
    split; [unfold atRestOn;
            split; [| split; [| split; [| split; [| split; [| split]]]]] | split].
    + exact C2.
    + exact C1.
    + rewrite C4. destruct (q2 ++ e) eqn:E; [| reflexivity].
      apply app_eq_nil in E as [_ E]. contradiction.
    + rewrite playQueue_isJumping. exact HXj.
    + rewrite C7. exact HXq.
    + rewrite Q2, HXl, queueMoves_app, Cube_moves_app, Hlog0, Hm.
      apply plan_moves_cube; assumption.
    + rewrite Q3, HXc, queueActions_app, rotationsOf_app, turnCalls_app.
      rewrite turnCalls_arrangement by (rewrite Hm; apply plan_tokens, Htok).
      rewrite Harr0, Hm. apply plan_moves_cube; assumption.
    + exact C3.
    + rewrite C5, map_app.
      destruct e as [| t e']; [contradiction |].
      cbn [map] in *. rewrite last_app_cons. rewrite last_cons in *. exact Hl.
  - (* the pass is over *)
    assert (Hb2 : atRestOn (num := Q) moves N b s2).
    { rewrite <- (settle_idle (num := Q) moves N (2 * List.length moves) s2 Hover).
      unfold s2. rewrite <- settle_add. apply Hfirst. lia. }
    exists (2 * List.length moves)%nat. intros n Hn.
    apply (normalPath_lands moves N solve b c s2 n); assumption.
Qed.

Lemma steps_during_a_pass_are_played_after_it_witness :
  exists n0 : nat, forall n : nat, (n0 <= n)%nat ->
    currentAnimatedStep
      (settle (num := Q) fourMoves 5 n
         (stepChanged (num := Q) fourMoves 5 (fun _ => "") 3
            (settle (num := Q) fourMoves 5 1
               (stepChanged (num := Q) fourMoves 5 (fun _ => "") 2
                  (initCube fourMoves mounted)))))
    = 3.
Proof.
  assert (Hrest : atRestOn (num := Q) fourMoves 5 0 (initCube fourMoves mounted))
    by (unfold atRestOn; repeat split; vm_compute; reflexivity).
  destruct (steps_during_a_pass_are_played_after_it fourMoves 5 (fun _ => "") 0 2 3
              (initCube fourMoves mounted) 1
              ltac:(lia) ltac:(discriminate) eq_refl
              ltac:(lia) ltac:(cbn; lia) ltac:(lia) ltac:(cbn; lia) ltac:(lia) ltac:(cbn; lia)
              ltac:(lia) ltac:(cbn; lia) ltac:(cbn; lia)
              ltac:(lia) ltac:(cbn; lia) ltac:(cbn; lia) Hrest) as [n0 H].
  exists n0. intros n Hn. apply (H n Hn).
Defined.

(* ================================================================= *)
(** ** The words of the solver's answer *)

Lemma split_space_nonempty (s : string) : split_space s <> [].
Proof.
  induction s as [| c s IH]; cbn [split_space]; [discriminate |].
  destruct (Ascii.eqb c " "); [discriminate |].
  destruct (split_space s); discriminate.
Qed.

Lemma split_space_app (s s' : string) :
  split_space (s ++ " " ++ s')%string = split_space s ++ split_space s'.
Proof.
  induction s as [| c s IH]; [reflexivity |].
  cbn [String.append split_space] in *.
  destruct (Ascii.eqb c " "); [rewrite IH; reflexivity |].
  rewrite IH. pose proof (split_space_nonempty s) as Hne.
  destruct (split_space s); [contradiction | reflexivity].
Qed.

Lemma includes_space_cons (c : ascii) (w : string) :
  includes " " (String c w) = Ascii.eqb c " " || includes " " w.
Proof.
  cbn [includes String.prefix].
  destruct (Ascii.eqb_spec c " ") as [-> | Hc].
  - destruct (ascii_dec " " " "); [destruct w; reflexivity | contradiction].
  - destruct (ascii_dec " " c); [congruence | reflexivity].
Qed.

Lemma split_space_word (w : string) :
  includes " " w = false -> split_space w = [w].
Proof.
  induction w as [| c w IH]; intros H; [reflexivity |].
  rewrite includes_space_cons in H. apply orb_false_elim in H as [Hc Hw].
  cbn [split_space]. rewrite Hc, IH by exact Hw. reflexivity.
Qed.

Lemma split_space_words (s w : string) :
  In w (split_space s) -> includes " " w = false.
Proof.
  revert w. induction s as [| c s IH]; intros w Hin.
  - destruct Hin as [<- | []]. reflexivity.
  - cbn [split_space] in Hin. destruct (Ascii.eqb c " ") eqn:Hc.
    + destruct Hin as [<- | Hin]; [reflexivity | apply IH, Hin].
    + pose proof (split_space_nonempty s) as Hne.
      destruct (split_space s) as [| w0 ws]; [contradiction |].
      destruct Hin as [<- | Hin].
      * rewrite includes_space_cons, Hc. apply IH. left. reflexivity.
      * apply IH. right. exact Hin.
Qed.

Lemma token_is_a_word (w : string) :
  isMoveToken w = true -> includes " " w = false /\ notBlank w = true.
Proof.
  intros H. apply isMoveToken_In in H.
  repeat (destruct H as [<- | H]; [split; reflexivity |]). destruct H.
Qed.

(** The solver's answer is read word by word. A single space separates
    two parts of an answer whatever they are; the words kept contain no
    space and are not blank; and a list of move tokens joined by single
    spaces is read back as that list. *)
Theorem answer_is_read_word_by_word (words : list string) :
  forallb isMoveToken words = true ->
  solveMoves (String.concat " " words) = words /\
  (forall s s' : string,
     solveMoves (s ++ " " ++ s')%string = solveMoves s ++ solveMoves s') /\
  (forall (s w : string),
     In w (solveMoves s) -> includes " " w = false /\ notBlank w = true).
Proof.
  intros Htok.
  assert (Happ : forall s s' : string,
             solveMoves (s ++ " " ++ s')%string = solveMoves s ++ solveMoves s')
    by (intros s s'; unfold solveMoves; rewrite split_space_app; apply filter_app).
  split; [| split; [exact Happ |]].
  - induction words as [| w words IH]; [reflexivity |].
    cbn [forallb] in Htok. apply andb_prop in Htok as [Hw Hws].
    apply token_is_a_word in Hw as [Hspace Hblank].
    assert (Hone : solveMoves w = [w])
      by (unfold solveMoves; rewrite split_space_word by exact Hspace;
          cbn [filter]; rewrite Hblank; reflexivity).
    destruct words as [| w' words]; [exact Hone |].
    change (String.concat " " (w :: w' :: words))
      with (w ++ " " ++ String.concat " " (w' :: words))%string.
    rewrite Happ, Hone, IH by exact Hws. reflexivity.
  - intros s w Hin. unfold solveMoves in Hin. apply filter_In in Hin as [Hin Hblank].
    split; [apply (split_space_words s), Hin | exact Hblank].
Qed.

Lemma answer_is_read_word_by_word_witness :
  solveMoves "R U2 F' D" = ["R"; "U2"; "F'"; "D"].
Proof.
  apply (answer_is_read_word_by_word ["R"; "U2"; "F'"; "D"]). reflexivity.
Defined.

(* ================================================================= *)
(** ** The page around the cube *)

(** The arrow keys keep the step among the experiences. With at least one
    experience and a step in range, whatever keys are pressed the step
    stays in range; one key moves it by one at most, [ArrowRight] never
    down and [ArrowLeft] never up, and any other key leaves it; the
    progress bar is never empty, never over 100 percent, and full exactly
    on the last step. *)
Theorem keys_keep_the_step_in_range (numExperiences : nat) (keys : list string)
    (step : Z) :
  (1 <= numExperiences)%nat -> 0 <= step -> step < Z.of_nat numExperiences ->
  let step' :=
    fold_left (fun st key => Portfolio.handleKeyDown numExperiences key st) keys step in
  (0 <= step' /\ step' < Z.of_nat numExperiences) /\
  (forall key : string,
     let next := Portfolio.handleKeyDown numExperiences key step in
     Z.abs (next - step) <= 1 /\
     (key = "ArrowRight" -> next = if step =? Z.of_nat numExperiences - 1
                                    then step else step + 1) /\
     (key = "ArrowLeft" -> next = if step =? 0 then step else step - 1) /\
     (key <> "ArrowRight" -> key <> "ArrowLeft" -> next = step)) /\
  (0 < Portfolio.progressWidth numExperiences step' /\
   Portfolio.progressWidth numExperiences step' <= 100 /\
   (Portfolio.progressWidth numExperiences step' == 100
    <-> (step' = Z.of_nat numExperiences - 1)%Z))%Q.
Proof.
  intros HN H0 H1 step'.
  assert (Hkey : forall key st, 0 <= st < Z.of_nat numExperiences ->
            0 <= Portfolio.handleKeyDown numExperiences key st < Z.of_nat numExperiences).
  { intros key st Hst. unfold Portfolio.handleKeyDown, Portfolio.nextStep, Portfolio.prevStep.
    destruct (String.eqb key "ArrowRight"), (String.eqb key "ArrowLeft"); lia. }
  assert (Hrange : 0 <= step' < Z.of_nat numExperiences).
  { subst step'. revert step H0 H1.
    induction keys as [| key keys IH]; intros step H0 H1; cbn [fold_left]; [lia |].
    apply IH; apply Hkey; lia. }
  split; [lia |]. split.
  - intros key next. subst next.
    unfold Portfolio.handleKeyDown, Portfolio.nextStep, Portfolio.prevStep.
    split; [| split; [| split]].
    + destruct (String.eqb key "ArrowRight"), (String.eqb key "ArrowLeft"); lia.
    + intros ->. cbn [String.eqb Ascii.eqb Bool.eqb andb].
      destruct (Z.eqb_spec step (Z.of_nat numExperiences - 1)); lia.
    + intros ->. cbn [String.eqb Ascii.eqb Bool.eqb andb].
      destruct (Z.eqb_spec step 0); lia.
    + intros Hr Hl.
      destruct (String.eqb_spec key "ArrowRight"); [contradiction |].
      destruct (String.eqb_spec key "ArrowLeft"); [contradiction | reflexivity].
  - unfold Portfolio.progressWidth.
    set (N := Z.of_nat numExperiences) in *.
    assert (HNpos : (0 < inject_Z N)%Q) by (change 0%Q with (inject_Z 0); rewrite <- Zlt_Qlt; lia).
    assert (Hs : (0 < inject_Z (step' + 1))%Q)
      by (change 0%Q with (inject_Z 0); rewrite <- Zlt_Qlt; lia).
    assert (Hle : (inject_Z (step' + 1) <= inject_Z N)%Q) by (rewrite <- Zle_Qle; lia).
    assert (Hq : (0 < inject_Z (step' + 1) / inject_Z N)%Q)
      by (apply Qlt_shift_div_l; [exact HNpos | rewrite Qmult_0_l; exact Hs]).
    assert (Hq1 : (inject_Z (step' + 1) / inject_Z N <= 1)%Q)
      by (apply Qle_shift_div_r; [exact HNpos | rewrite Qmult_1_l; exact Hle]).
    split; [| split; [| split]].
    + apply Qmult_lt_0_compat; [exact Hq | reflexivity].
    + setoid_replace 100%Q with (1 * 100)%Q at 2 by reflexivity.
      apply Qmult_le_compat_r; [exact Hq1 | discriminate].
    + intros Heq.
      assert (Hone : (inject_Z (step' + 1) / inject_Z N == 1)%Q).
      { apply (Qmult_inj_r _ _ 100); [discriminate |]. rewrite Heq. reflexivity. }
      assert (Hnum : (inject_Z (step' + 1) == inject_Z N)%Q).
      { rewrite <- (Qmult_1_l (inject_Z N)), <- Hone.
        field. intros Hz. rewrite Hz in HNpos. discriminate. }
      unfold Qeq in Hnum. cbn [Qnum Qden inject_Z] in Hnum. lia.
    + intros Hlast. replace (step' + 1) with N by lia.
      field. intros Hz. rewrite Hz in HNpos. discriminate.
Qed.

Lemma keys_keep_the_step_in_range_witness :
  fold_left (fun st key => Portfolio.handleKeyDown 5 key st)
    ["ArrowRight"; "ArrowRight"; "Enter"; "ArrowLeft"; "ArrowLeft"; "ArrowLeft"] 3 < 5.
Proof.
  apply (keys_keep_the_step_in_range 5
           ["ArrowRight"; "ArrowRight"; "Enter"; "ArrowLeft"; "ArrowLeft"; "ArrowLeft"] 3);
    cbn; lia.
Defined.

(* ================================================================= *)
(** ** The shuffle on the last milestone *)

Lemma randomMove_token (r1 r2 : Q) :
  (0 <= r1)%Q -> (r1 < 1)%Q -> (0 <= r2)%Q -> (r2 < 1)%Q ->
  isMoveToken (randomMove r1 r2) = true.
Proof.
  intros H1 H1' H2 H2'. unfold randomMove.
  change (inject_Z (Z.of_nat (List.length faceLetters))) with 6%Q.
  change (inject_Z (Z.of_nat (List.length modifiers))) with 3%Q.
  assert (Hf : 0 <= Qfloor (r1 * 6) < 6).
  { split.
    - change 0 with (Qfloor 0). apply Qfloor_resp_le.
      apply Qmult_le_0_compat; [exact H1 | discriminate].
    - rewrite Zlt_Qlt. apply Qle_lt_trans with (r1 * 6)%Q; [apply Qfloor_le |].
      change (inject_Z 6) with (1 * 6)%Q.
      apply Qmult_lt_compat_r; [reflexivity | exact H1']. }
  assert (Hm : 0 <= Qfloor (r2 * 3) < 3).
  { split.
    - change 0 with (Qfloor 0). apply Qfloor_resp_le.
      apply Qmult_le_0_compat; [exact H2 | discriminate].
    - rewrite Zlt_Qlt. apply Qle_lt_trans with (r2 * 3)%Q; [apply Qfloor_le |].
      change (inject_Z 3) with (1 * 3)%Q.
      apply Qmult_lt_compat_r; [reflexivity | exact H2']. }
  destruct (Qfloor (r1 * 6)) as [| p | p]; [| | lia];
    destruct (Qfloor (r2 * 3)) as [| q | q]; try lia; try reflexivity.
  - assert (Hq : (q = 1 \/ q = 2)%positive) by lia.
    destruct Hq as [-> | ->]; reflexivity.
  - assert (Hp : (p = 1 \/ p = 2 \/ p = 3 \/ p = 4 \/ p = 5)%positive) by lia.
    destruct Hp as [-> | [-> | [-> | [-> | ->]]]]; reflexivity.
  - assert (Hp : (p = 1 \/ p = 2 \/ p = 3 \/ p = 4 \/ p = 5)%positive) by lia.
    assert (Hq : (q = 1 \/ q = 2)%positive) by lia.
    destruct Hp as [-> | [-> | [-> | [-> | ->]]]]; destruct Hq as [-> | ->]; reflexivity.
Qed.

Section ShuffleFacts.

Context {num : Type} {NUM : JSNumber num}.
Variable moves : list string.
Variable N : nat.

(** The [then] callback of the shuffling frame (lines 624-630). *)
Lemma shuffle_resume (acts : list Action) :
  forall (s : Controller) (m : nat),
  running s = None ->
  settle moves N (List.length (rotationsOf acts) + m)
    (match runToAwait acts s with
     | (s', Some (call, after)) => set_running (Some (mkPending Shuffle call after)) s'
     | (s', None) =>
         if (0 <? List.length (animationQueue (set_isProcessingQueue false s')))%nat
         then processQueue moves N (set_isProcessingQueue false s')
         else set_isProcessingQueue false s'
     end)
  = settle moves N m
      (let s' := set_isProcessingQueue false (fold_left (fun st a => perform a st) acts s) in
       if (0 <? List.length (animationQueue s'))%nat then processQueue moves N s' else s').
Proof.
  induction acts as [| [mv | call] acts IH]; intros s m Hrun.
  - reflexivity.
  - cbn [runToAwait rotationsOf fold_left perform]. apply IH. exact Hrun.
  - cbn [runToAwait rotationsOf List.length fold_left perform Nat.add].
    rewrite settle_S. unfold rotationDone at 1.
    cbn [running set_running p_inflight p_after p_caller].
    rewrite set_running_twice.
    rewrite <- (running_eta (beginRotation call s) None) by exact Hrun.
    apply IH. exact Hrun.
Qed.

(** A shuffle move in flight, followed to the end of its rotations. *)
Lemma shuffle_settle (s : Controller) (call : SliceCall) (after : list Action) (m : nat) :
  running s = Some (mkPending Shuffle call after) ->
  settle moves N (S (List.length (rotationsOf after) + m)) s
  = settle moves N m
      (let s' := set_isProcessingQueue false
                   (fold_left (fun st a => perform a st) after
                      (endRotation call (set_running None s))) in
       if (0 <? List.length (animationQueue s'))%nat then processQueue moves N s' else s').
Proof.
  intros Hrun. rewrite settle_S. unfold rotationDone. rewrite Hrun.
  cbn [p_inflight p_after p_caller]. cbv zeta.
  apply (shuffle_resume after (endRotation call (set_running None s)) m). reflexivity.
Qed.

(** The shuffling frame on a controller at rest starts the move. *)
Lemma shuffleFrame_starts (mv : string) (s : Controller) :
  animationState s = shuffling -> isProcessingQueue s = false ->
  shuffleFrame mv s
  = set_running
      (Some (mkPending Shuffle (moveCall mv (3 # 10))
               (if includes "2" mv then [RotateSlice (moveCall mv (3 # 10))] else [])))
      (beginRotation (moveCall mv (3 # 10)) (moveLogical mv (set_isProcessingQueue true s))).
Proof.
  intros Hstate Hidle. unfold shuffleFrame. rewrite Hstate, Hidle.
  unfold applyMove. cbv zeta. cbn [runToAwait].
  destruct (includes "2" mv); reflexivity.
Qed.

End ShuffleFacts.

(** The shuffle plays one move at a time. In the shuffling state, on a
    controller that is not processing, with nothing in flight and nothing
    queued, a frame draws one of the eighteen move tokens, raises the
    processing flag and starts the move; while the flag is up further
    frames start nothing. Once the move's rotations have resolved (two are
    enough) the flag is down again, nothing is in flight, and the logical
    cube and the pieces have both made that one move. *)
Theorem shuffle_plays_one_move_at_a_time {num : Type} {NUM : JSNumber num}
    (moves : list string) (N : nat) (s : Controller) (r1 r2 : Q) (n : nat) :
  animationState s = shuffling -> isProcessingQueue s = false ->
  running s = None -> animationQueue s = [] ->
  (0 <= r1)%Q -> (r1 < 1)%Q -> (0 <= r2)%Q -> (r2 < 1)%Q -> (2 <= n)%nat ->
  let mv := randomMove r1 r2 in
  let s1 := shuffleFrame mv s in
  let s' := settle moves N n s1 in
  isMoveToken mv = true /\
  isProcessingQueue s1 = true /\ running s1 <> None /\
  (forall mv' : string, shuffleFrame mv' s1 = s1) /\
  isProcessingQueue s' = false /\ running s' = None /\
  logicalCube s' = Cube_move mv (logicalCube s) /\
  arrangement (cubies s') = Cube_move mv (arrangement (cubies s)).
Proof.
  intros Hstate Hidle Hrun Hq H1 H1' H2 H2' Hn mv s1 s'.
  pose proof (randomMove_token r1 r2 H1 H1' H2 H2') as Htok. fold mv in Htok.
  assert (Hs1 : s1 = set_running
                       (Some (mkPending Shuffle (moveCall mv (3 # 10))
                                (if includes "2" mv
                                 then [RotateSlice (moveCall mv (3 # 10))] else [])))
                       (beginRotation (moveCall mv (3 # 10))
                          (moveLogical mv (set_isProcessingQueue true s))))
    by (apply shuffleFrame_starts; assumption).
  split; [exact Htok |].
  split; [rewrite Hs1; reflexivity |].
  split; [rewrite Hs1; discriminate |].
  split.
  { intros mv'. unfold shuffleFrame at 1.
    replace (animationState s1) with shuffling by (rewrite Hs1; symmetry; exact Hstate).
    replace (isProcessingQueue s1) with true by (rewrite Hs1; reflexivity).
    reflexivity. }
  set (after := if includes "2" mv then [RotateSlice (moveCall mv (3 # 10))] else [])
    in Hs1.
  assert (Hlen : (List.length (rotationsOf after) <= 1)%nat)
    by (unfold after; destruct (includes "2" mv); cbn; lia).
  assert (Hend : s' = set_isProcessingQueue false
                        (awaitApplyMove mv (3 # 10) (set_isProcessingQueue true s))).
  { subst s'.
    replace n with (S (List.length (rotationsOf after)
                       + (n - S (List.length (rotationsOf after)))))%nat by lia.
    rewrite (shuffle_settle moves N s1 (moveCall mv (3 # 10)) after)
      by (rewrite Hs1; reflexivity).
    cbv zeta.
    assert (Hseq : fold_left (fun st a => perform a st) after
                     (endRotation (moveCall mv (3 # 10)) (set_running None s1))
                   = awaitApplyMove mv (3 # 10) (set_isProcessingQueue true s)).
    { rewrite Hs1, set_running_twice.
      rewrite <- (running_eta (beginRotation (moveCall mv (3 # 10))
                                 (moveLogical mv (set_isProcessingQueue true s))) None)
        by exact Hrun.
      unfold awaitApplyMove, applyMove, after. cbv zeta.
      destruct (includes "2" mv); reflexivity. }
    rewrite Hseq.
    destruct (perform_frame (applyMove mv (3 # 10)) (set_isProcessingQueue true s))
      as (F1 & _ & F3 & _).
    fold (awaitApplyMove mv (3 # 10) (set_isProcessingQueue true s)) in F1, F3.
    cbn [animationQueue set_isProcessingQueue] in *. rewrite F3, Hq.
    cbn [List.length Nat.ltb Nat.leb].
    apply settle_idle. cbn [running set_isProcessingQueue]. rewrite F1. exact Hrun. }
  rewrite Hend.
  destruct (perform_frame (applyMove mv (3 # 10)) (set_isProcessingQueue true s))
    as (F1 & _).
  fold (awaitApplyMove mv (3 # 10) (set_isProcessingQueue true s)) in F1.
  split; [reflexivity |].
  split; [cbn [running set_isProcessingQueue] in *; rewrite F1; exact Hrun |].
  split.
  - cbn [logicalCube set_isProcessingQueue]. rewrite awaitApplyMove_logicalCube.
    reflexivity.
  - cbn [cubies set_isProcessingQueue].
    rewrite awaitApplyMove_arrangement by exact Htok. reflexivity.
Qed.

Lemma shuffle_plays_one_move_at_a_time_witness :
  logicalCube
    (settle (num := Q) fourMoves 5 2
       (shuffleFrame (randomMove (1 # 2) (3 # 4)) (set_animationState shuffling mounted)))
  = Cube_move (randomMove (1 # 2) (3 # 4)) Cube_new.
Proof.
  pose proof (shuffle_plays_one_move_at_a_time (num := Q) fourMoves 5
                (set_animationState shuffling mounted) (1 # 2) (3 # 4) 2
                eq_refl eq_refl eq_refl eq_refl) as H.
  cbv zeta in H.
  specialize (H ltac:(discriminate) eq_refl ltac:(discriminate) eq_refl ltac:(lia)).
  destruct H as (_ & _ & _ & _ & _ & _ & H & _). exact H.
Defined.

(** Transitions queued while a shuffle move is in flight wait for it.
    With the processing flag up for the shuffle, [processQueue] returns at
    once; when the last rotation of the shuffle move has resolved, its
    callback lowers the flag, finds the queue filled and starts the pass,
    which then runs to its end (with no cancellation on the way): the
    queue's moves come after the shuffle move, on the cube it leaves. *)
Theorem queue_waits_for_the_shuffle_move {num : Type} {NUM : JSNumber num}
    (moves : list string) (N : nat) (s : Controller)
    (call : SliceCall) (after : list Action) (n : nat) :
  running s = Some (mkPending Shuffle call after) ->
  isProcessingQueue s = true -> animationQueue s <> [] ->
  (1 + List.length (rotationsOf after)
   + List.length (rotationsOf (queueActions moves N (animationQueue s))) <= n)%nat ->
  let queue := animationQueue s in
  let s' := settle moves N n s in
  processQueue moves N s = s /\
  animationQueue s' = [] /\ running s' = None /\
  isProcessingQueue s' = false /\ isSolving s' = false /\
  currentAnimatedStep s' = last (map t_to queue) 0 /\
  history s' = history s ++ after ++ queueActions moves N queue /\
  logicalCube s'
  = Cube_moves (queueMoves moves N queue)
      (Cube_moves (logicalMovesOf after) (logicalCube s)) /\
  cubies s'
  = turnCalls (rotationsOf (queueActions moves N queue))
      (turnCalls (call :: rotationsOf after) (cubies s)).
Proof.
  intros Hrun Hbusy Hq Hn queue s'. subst s'.
  split; [unfold processQueue; rewrite Hbusy; reflexivity |].
  set (k := List.length (rotationsOf (queueActions moves N (animationQueue s)))) in *.
  replace n with (S (List.length (rotationsOf after) + (n - S (List.length (rotationsOf after)))))%nat
    by lia.
  rewrite (shuffle_settle moves N s call after) by exact Hrun. cbv zeta.
  set (s2 := fold_left (fun st a => perform a st) after (endRotation call (set_running None s))).
  destruct (perform_frame after (endRotation call (set_running None s)))
    as (F1 & _ & F3 & _).
  fold s2 in F1, F3. cbn [running animationQueue endRotation set_cubies set_running] in F1, F3.
  assert (Hq2 : animationQueue (set_isProcessingQueue false s2) = queue) by exact F3.
  rewrite Hq2.
  assert (Hpos : (0 <? List.length queue)%nat = true)
    by (unfold queue; destruct (animationQueue s); [contradiction | reflexivity]).
  rewrite Hpos.
  rewrite (processQueue_settle moves N (set_isProcessingQueue false s2));
    [| reflexivity | exact F1 | rewrite Hq2; exact Hq | rewrite Hq2; unfold queue, k in *; lia].
  rewrite Hq2.
  set (s0 := set_abortProcessing false _).
  destruct (playQueue_control moves N queue s0) as (C1 & C2 & C3 & C4 & C5 & _).
  destruct (playQueue_cube moves N queue s0) as (P1 & P2 & P3).
  split; [| split; [| split; [| split; [| split; [| split; [| split]]]]]].
  - rewrite C4. unfold queue in *. destruct (animationQueue s); [contradiction | reflexivity].
  - exact C1.
  - exact C2.
  - exact C3.
  - rewrite C5. unfold queue in *.
    destruct (animationQueue s) as [| t q]; [contradiction |].
    cbn [map]. rewrite !last_cons. reflexivity.
  - rewrite P1. unfold s0. cbn [history set_abortProcessing set_isSolving set_isProcessingQueue].
    unfold s2. rewrite perform_history. cbn. symmetry. apply app_assoc.
  - rewrite P2. unfold s0.
    cbn [logicalCube set_abortProcessing set_isSolving set_isProcessingQueue].
    unfold s2. rewrite perform_logicalCube. reflexivity.
  - rewrite P3. unfold s0.
    cbn [cubies set_abortProcessing set_isSolving set_isProcessingQueue].
    unfold s2. rewrite perform_cubies. reflexivity.
Qed.

Lemma queue_waits_for_the_shuffle_move_witness :
  let s := set_animationQueue [mkTransition 4 0 None]
             (shuffleFrame "U2" (set_animationState shuffling mounted)) in
  logicalCube (settle (num := Q) fourMoves 5 10 s)
  = Cube_moves (map invertMove (rev fourMoves)) (logicalCube s).
Proof.
  intros s.
  pose proof (queue_waits_for_the_shuffle_move (num := Q) fourMoves 5 s
                (moveCall "U2" (3 # 10)) [RotateSlice (moveCall "U2" (3 # 10))] 10
                eq_refl eq_refl ltac:(discriminate)) as H.
  cbv zeta in H. specialize (H ltac:(vm_compute; lia)).
  destruct H as (_ & _ & _ & _ & _ & _ & _ & H & _). exact H.
Defined.

(* ================================================================= *)
(** ** Steps requested during the jump *)

Lemma perform_pendingStep (acts : list Action) (p : option Z) (s : Controller) :
  fold_left (fun st a => perform a st) acts (set_pendingStep p s)
  = set_pendingStep p (fold_left (fun st a => perform a st) acts s).
Proof.
  revert s. induction acts as [| a acts IH]; intros s; cbn [fold_left]; [reflexivity |].
  rewrite <- IH. f_equal. destruct a; reflexivity.
Qed.

Lemma moveLogical_pendingStep (tokens : list string) (p : option Z) (s : Controller) :
  fold_left (fun st move => moveLogical move st) tokens (set_pendingStep p s)
  = set_pendingStep p (fold_left (fun st move => moveLogical move st) tokens s).
Proof.
  revert s. induction tokens as [| m tokens IH]; intros s; cbn [fold_left]; [reflexivity |].
  rewrite <- IH. reflexivity.
Qed.

Lemma moveLogical_perform (tokens : list string) (s : Controller) :
  fold_left (fun st move => moveLogical move st) tokens s
  = fold_left (fun st a => perform a st) (map LogicalMove tokens) s.
Proof.
  revert s. induction tokens as [| m tokens IH]; intros s; [reflexivity |].
  cbn [fold_left map]. apply IH.
Qed.

Lemma perform_jumpTimer (acts : list Action) (s : Controller) :
  jumpTimer (fold_left (fun st a => perform a st) acts s) = jumpTimer s.
Proof. apply (perform_frame acts s). Qed.

Lemma set_pendingStep_twice (p q : option Z) (s : Controller) :
  set_pendingStep p (set_pendingStep q s) = set_pendingStep p s.
Proof. destruct s. reflexivity. Qed.

Section JumpFacts.

Context {num : Type} {NUM : JSNumber num}.
Variable moves : list string.
Variable N : nat.
Variable solve : Cube -> string.

Lemma resetToStep_pendingStep (targetStep : Z) (p : option Z) (s : Controller) :
  resetToStep moves N targetStep (set_pendingStep p s)
  = set_pendingStep p (resetToStep moves N targetStep s).
Proof.
  unfold resetToStep. cbv zeta.
  rewrite !awaitApplyMoves_perform.
  rewrite <- !moveLogical_pendingStep, <- !perform_pendingStep. reflexivity.
Qed.

Lemma resetToStep_jumpTimer (targetStep : Z) (s : Controller) :
  jumpTimer (resetToStep moves N targetStep s) = jumpTimer s.
Proof.
  unfold resetToStep. cbv zeta.
  rewrite !awaitApplyMoves_perform, !moveLogical_perform, !perform_jumpTimer.
  reflexivity.
Qed.

(** The landing of a jump that recorded [p]. *)
Lemma jumpLanding_pending (t : Z) (p : option Z) (s : Controller) :
  jumpTimer s = Some t ->
  jumpLanding moves N solve (set_pendingStep p s)
  = let landed :=
      set_pendingStep None
        (set_currentAnimatedStep t
           (set_lastQueuedStep t
              (set_groupY 0%Q
                 (set_isJumping false
                    (set_animationState idle
                       (resetToStep moves N t (set_jumpTimer None s))))))) in
    match p with
    | Some nextStep => handleStepChange moves N solve nextStep landed
    | None => landed
    end.
Proof.
  intros Ht. unfold jumpLanding.
  change (jumpTimer (set_pendingStep p s)) with (jumpTimer s). rewrite Ht. cbv zeta.
  change (set_jumpTimer None (set_pendingStep p s))
    with (set_pendingStep p (set_jumpTimer None s)).
  rewrite resetToStep_pendingStep.
  set (R := resetToStep moves N t (set_jumpTimer None s)).
  cbn [pendingStep set_currentAnimatedStep set_lastQueuedStep set_groupY set_isJumping
       set_animationState set_pendingStep].
  destruct p as [k |]; reflexivity.
Qed.

Lemma stepChanged_jumping (steps : list Z) :
  forall (k : Z) (s : Controller),
  moves <> [] -> isJumping s = true ->
  fold_left (fun st step => stepChanged moves N solve step st) (steps ++ [k]) s
  = set_pendingStep (Some k) s.
Proof.
  induction steps as [| x steps IH]; intros k s Hne Hj.
  - cbn [app fold_left]. unfold stepChanged.
    rewrite (scrambled_length moves Hne), Hj. reflexivity.
  - cbn [app fold_left]. unfold stepChanged at 2.
    rewrite (scrambled_length moves Hne), Hj.
    rewrite IH by (exact Hne || exact Hj). apply set_pendingStep_twice.
Qed.

End JumpFacts.



(* ================================================================= *)
(** ** The frame callback: jump, vibration and decay *)

Lemma Qsquare_nonneg (a : Q) : (0 <= a * a)%Q.
Proof.
  destruct (Qlt_le_dec a 0) as [H | H].
  - setoid_replace (a * a)%Q with ((- a) * (- a))%Q by ring.
    apply Qmult_le_0_compat; Lqa.lra.
  - apply Qmult_le_0_compat; exact H.
Qed.

(** The parabola of the jump before it is cut at the ground. *)
Lemma jumpY_progress (elapsed p : Q) :
  (Qmin (elapsed / inject_Z JUMP_DURATION) 1 == p)%Q ->
  (jumpY elapsed == Qmax 0 (4 * jumpHeight * (p - p * p)))%Q.
Proof.
  intros Hp. unfold jumpY. cbv zeta.
  change ((Qmin (elapsed / inject_Z JUMP_DURATION) 1) ^ 2)%Q
    with (Qmin (elapsed / inject_Z JUMP_DURATION) 1
          * Qmin (elapsed / inject_Z JUMP_DURATION) 1)%Q.
  rewrite Hp. reflexivity.
Qed.

Lemma jump_progress (elapsed : Q) :
  (elapsed <= 600 -> Qmin (elapsed / inject_Z JUMP_DURATION) 1 == elapsed / 600)%Q /\
  (600 <= elapsed -> Qmin (elapsed / inject_Z JUMP_DURATION) 1 == 1)%Q.
Proof.
  change (inject_Z JUMP_DURATION) with 600%Q. split; intros H.
  - apply Q.min_l. apply Qle_shift_div_r; [reflexivity | Lqa.lra].
  - apply Q.min_r. apply Qle_shift_div_l; [reflexivity | Lqa.lra].
Qed.

(** The jump, with exact numbers. The group never goes below the ground
    nor above [jumpHeight]; it is on the ground when the jump begins and
    from 600 ms on, when the timer resets the cube, and at [jumpHeight] at
    half time. *)
Theorem jump_stays_between_ground_and_peak (elapsed : Q) :
  (0 <= jumpY elapsed /\ jumpY elapsed <= jumpHeight /\
   jumpY 300 == jumpHeight /\
   (elapsed <= 0 -> jumpY elapsed == 0) /\
   (inject_Z JUMP_DURATION <= elapsed -> jumpY elapsed == 0))%Q.
Proof.
  change (inject_Z JUMP_DURATION) with 600%Q.
  split; [unfold jumpY; cbv zeta; apply Q.le_max_l |].
  split.
  { unfold jumpY. cbv zeta. apply Q.max_lub; [discriminate |].
    set (p := Qmin _ _). change (p ^ 2)%Q with (p * p)%Q.
    pose proof (Qsquare_nonneg (p - (1 # 2))). unfold jumpHeight. Lqa.lra. }
  split; [reflexivity |].
  split.
  - intros H.
    rewrite (jumpY_progress elapsed (elapsed / 600))
      by (apply (jump_progress elapsed); Lqa.lra).
    apply Q.max_l. unfold jumpHeight.
    assert (Hp : (elapsed / 600 <= 0)%Q)
      by (apply Qle_shift_div_r; [reflexivity | Lqa.lra]).
    set (p := (elapsed / 600)%Q) in *.
    assert (Hpp : (0 <= (- p) * (1 - p))%Q) by (apply Qmult_le_0_compat; Lqa.lra).
    Lqa.lra.
  - intros H.
    rewrite (jumpY_progress elapsed 1) by (apply (jump_progress elapsed); exact H).
    reflexivity.
Qed.

(** In binary64 the height is the same at the start, at half time and at
    the end of the jump, but the way down does not mirror the way up to
    the last place: 100 ms and 500 ms after the start the two heights
    differ. *)
Remark jump_height_binary64 :
  jumpY64 0 = 0%float /\
  jumpY64 300 = 0x1.6666666666666p-3%float /\
  jumpY64 600 = 0%float /\
  jumpY64 100 = 0x1.8e38e38e38e39p-4%float /\
  jumpY64 500 = 0x1.8e38e38e38e36p-4%float.
Proof. repeat split; vm_compute; reflexivity. Qed.

(** The vibration, in exact arithmetic: for a time that is not negative
    and a random number in [0, 1), the intensity lies between 0.02 and
    0.15, it is 0.02 at the start and 0.15 from 1500 ms on, and an angle
    of the group is within half the intensity of zero. *)
Theorem vibration_stays_within_its_intensity (random elapsed : Q) :
  (0 <= elapsed)%Q -> (0 <= random)%Q -> (random < 1)%Q ->
  ((2 # 100) <= vibrationIntensity elapsed /\ vibrationIntensity elapsed <= (15 # 100) /\
   vibrationIntensity 0 == (2 # 100) /\
   (inject_Z VIBRATION_DURATION <= elapsed -> vibrationIntensity elapsed == (15 # 100)) /\
   Qabs (vibrationAngle random elapsed) <= vibrationIntensity elapsed / 2 /\
   Qabs (vibrationAngle random elapsed) <= (75 # 1000))%Q.
Proof.
  intros He Hr0 Hr1. change (inject_Z VIBRATION_DURATION) with 1500%Q.
  assert (Hp : (0 <= Qmin (elapsed / inject_Z VIBRATION_DURATION) 1 <= 1)%Q).
  { change (inject_Z VIBRATION_DURATION) with 1500%Q. split.
    - apply Q.min_glb; [| discriminate].
      apply Qle_shift_div_l; [reflexivity | Lqa.lra].
    - apply Q.le_min_r. }
  assert (Hlo : ((2 # 100) <= vibrationIntensity elapsed)%Q)
    by (unfold vibrationIntensity; cbv zeta; set (p := Qmin _ _) in *; Lqa.lra).
  assert (Hhi : (vibrationIntensity elapsed <= (15 # 100))%Q)
    by (unfold vibrationIntensity; cbv zeta; set (p := Qmin _ _) in *; Lqa.lra).
  assert (Hangle : (Qabs (vibrationAngle random elapsed) <= vibrationIntensity elapsed / 2)%Q).
  { unfold vibrationAngle. set (v := vibrationIntensity elapsed) in *.
    apply Qabs_Qle_condition.
    assert (H1 : (0 <= (random - 0) * v)%Q) by (apply Qmult_le_0_compat; Lqa.lra).
    assert (H2 : (0 <= (1 - random) * v)%Q) by (apply Qmult_le_0_compat; Lqa.lra).
    split.
    - setoid_replace (- (v / 2))%Q with (- (5 # 10) * v)%Q by field. Lqa.lra.
    - setoid_replace (v / 2)%Q with ((5 # 10) * v)%Q by field. Lqa.lra. }
  split; [exact Hlo |]. split; [exact Hhi |]. split; [reflexivity |].
  split; [| split; [exact Hangle |]].
  - intros H. unfold vibrationIntensity. cbv zeta.
    assert (H1 : (Qmin (elapsed / inject_Z VIBRATION_DURATION) 1 == 1)%Q).
    { apply Q.min_r. change (inject_Z VIBRATION_DURATION) with 1500%Q.
      apply Qle_shift_div_l; [reflexivity | Lqa.lra]. }
    rewrite H1. reflexivity.
  - apply Qle_trans with (vibrationIntensity elapsed / 2)%Q; [exact Hangle |].
    apply Qle_shift_div_r; [reflexivity |]. Lqa.lra.
Qed.

Lemma vibration_stays_within_its_intensity_witness :
  (Qabs (vibrationAngle (9 # 10) 750) <= (75 # 1000))%Q.
Proof.
  apply (vibration_stays_within_its_intensity (9 # 10) 750); [discriminate | discriminate | reflexivity].
Defined.

Lemma Qabs_decay (x : Q) :
  (Qabs (decay x) == if Qlt_le_dec (1 # 100) (Qabs x) then Qabs x * (9 # 10) else Qabs x)%Q.
Proof.
  unfold decay. destruct (Qlt_le_dec (1 # 100) (Qabs x)); [| reflexivity].
  rewrite Qabs_Qmult. reflexivity.
Qed.

(** The return to rest never brings a coordinate to zero. In exact
    arithmetic, after any number of frames the magnitude of a coordinate
    has not grown and is at least the smaller of its starting magnitude and
    0.009; a coordinate within 0.01 of zero is left as it is; and after
    1000 frames per unit of starting magnitude the coordinate is within
    0.01 of zero. *)
Theorem decay_stops_short_of_zero (x : Q) (n : nat) :
  (Qabs (Nat.iter n decay x) <= Qabs x /\
   Qmin (Qabs x) (9 # 1000) <= Qabs (Nat.iter n decay x) /\
   (Qabs x <= (1 # 100) -> Nat.iter n decay x = x) /\
   (1000 * Qabs x <= inject_Z (Z.of_nat n) -> Qabs (Nat.iter n decay x) <= (1 # 100)))%Q.
Proof.
  assert (Hstep : forall y : Q,
            (Qabs (decay y) <= Qabs y /\ Qmin (Qabs y) (9 # 1000) <= Qabs (decay y) /\
             (Qabs y <= (1 # 100) -> decay y = y) /\
             (Qabs (decay y) <= (1 # 100) \/ Qabs (decay y) <= Qabs y - (1 # 1000)))%Q).
  { intros y. pose proof (Qabs_decay y) as Hd. pose proof (Qabs_nonneg y) as H0.
    unfold decay in *. destruct (Qlt_le_dec (1 # 100) (Qabs y)) as [Hbig | Hsmall].
    - rewrite Hd. split; [Lqa.lra |]. split; [| split; [Lqa.lra | right; Lqa.lra]].
      apply Qle_trans with (9 # 1000)%Q; [apply Q.le_min_r | Lqa.lra].
    - split; [Lqa.lra |]. split; [apply Q.le_min_l |]. split; [reflexivity |].
      left. exact Hsmall. }
  induction n as [| n IH].
  - change (Nat.iter 0 decay x) with x. split; [Lqa.lra |]. split; [apply Q.le_min_l |].
    split; [reflexivity |]. intros H. pose proof (Qabs_nonneg x).
    change (inject_Z (Z.of_nat 0)) with 0%Q in H. Lqa.lra.
  - destruct IH as (I1 & I2 & I3 & I4).
    change (Nat.iter (S n) decay x) with (decay (Nat.iter n decay x)).
    set (y := Nat.iter n decay x) in *.
    destruct (Hstep y) as (S1 & S2 & S3 & S4).
    split; [Lqa.lra |]. split; [| split].
    + apply Qle_trans with (Qmin (Qabs y) (9 # 1000))%Q; [| exact S2].
      apply Q.min_glb; [| apply Q.le_min_r].
      apply Qle_trans with (Qmin (Qabs x) (9 # 1000))%Q; [| exact I2].
      apply Q.min_glb; [apply Q.le_min_l | apply Q.le_min_r].
    + intros Hx. specialize (I3 Hx). rewrite I3. apply (Hstep x). exact Hx.
    + intros Hn. rewrite Nat2Z.inj_succ, <- Z.add_1_r, inject_Z_plus in Hn.
      change (inject_Z 1) with 1%Q in Hn.
      destruct S4 as [S4 | S4]; [exact S4 |].
      destruct (Qlt_le_dec (1 # 100) (Qabs y)) as [Hbig | Hsmall]; [| Lqa.lra].
      (* still above the threshold: every frame so far took off a thousandth *)
      exfalso.
      assert (Hall : forall k : nat,
                ((1 # 100) < Qabs (Nat.iter k decay x) ->
                 Qabs (Nat.iter k decay x) <= Qabs x - inject_Z (Z.of_nat k) * (1 # 1000))%Q).
      { clear. induction k as [| k IHk]; intros Hk.
        - change (Nat.iter 0 decay x) with x.
          change (inject_Z (Z.of_nat 0)) with 0%Q. Lqa.lra.
        - change (Nat.iter (S k) decay x) with (decay (Nat.iter k decay x)) in *.
          pose proof (Qabs_decay (Nat.iter k decay x)) as Hd.
          rewrite Nat2Z.inj_succ, <- Z.add_1_r, inject_Z_plus.
          change (inject_Z 1) with 1%Q.
          destruct (Qlt_le_dec (1 # 100) (Qabs (Nat.iter k decay x))) as [Hb | Hs].
          + specialize (IHk Hb). rewrite Hd. Lqa.lra.
          + rewrite Hd in Hk. Lqa.lra. }
      specialize (Hall n Hbig). fold y in Hall. Lqa.lra.
Qed.
